(** * Reading-Practice: the alignment core, embedded and verified

    A shallow embedding of the JavaScript sources

    - [tokenize.js]        ([normalizeWord])
    - [aligner.js]         ([levenshtein], [similarity], class [Aligner])
    - the phonetic variant of [aligner.js] ([_combinedSimilarity])
    - [decisionBuffer.js]  (class [DecisionBuffer])
    - [app.js]             ([calculateAlignmentCost], [performAutoBacktrack],
                            [backOne])

    Conventions.  A JavaScript string is the list of its UTF-16 code
    units.  Integer-valued numbers (indices, counters) are [Z] or [nat].
    The drift cost of app.js is a binary64 number, added up with the
    rounding of IEEE 754 ([Binary64]); the costs and similarities of
    the aligner are exact rationals [Q], so [0.1] is [1#10] there.  An
    array is a list; an array slot that may hold [undefined] has type
    [option].  Code that can throw returns a completion that records the
    exception and the object state at the throw. *)

From Stdlib Require Import ZArith NArith QArith Qminmax Qround Lia Lqa Bool List Ascii String.
From Stdlib Require Import Sorted Permutation.
From Stdlib Require PrimFloat FloatOps SpecFloat Uint63.
From stdpp Require Import base decidable option list gmap.
Import ListNotations.

Local Open Scope Z_scope.

(* ================================================================== *)
(** * Part I: the embedding                                            *)
(* ================================================================== *)

(** ** JavaScript values *)

Module JS.

(** A string: its UTF-16 code units. *)
Abbreviation JSString := (list N) (only parsing).

(** An ASCII literal as a JavaScript string. *)
Definition lit (s : string) : JSString :=
  List.map N_of_ascii (list_ascii_of_string s).

(** Truthiness of a string: [!s] is true exactly for the empty string. *)
Definition truthy (s : JSString) : bool :=
  match s with [] => false | _ => true end.

(** [n || 1] on a non-negative integer. *)
Definition orOne (n : nat) : nat :=
  match n with O => 1%nat | _ => n end.

(** [arr[i]] for an integer [i]: [undefined] off the array. *)
Definition at_ {A} (arr : list A) (i : Z) : option A :=
  if i <? 0 then None else arr !! Z.to_nat i.

(** The exceptions the modelled code can raise. *)
Inductive Error : Type :=
| TypeError.

(** Surrogate code units and the code point of a pair. *)
Definition isHighSurrogate (c : N) : bool := ((55296 <=? c) && (c <=? 56319))%N.
Definition isLowSurrogate (c : N) : bool := ((56320 <=? c) && (c <=? 57343))%N.

(** The code points of a string, each kept as the code units that spell
    it: a high surrogate followed by a low one is one code point, every
    other unit (lone surrogates too) stands alone.  This is how a
    regular expression with the [u] flag walks a string. *)
Fixpoint codePoints (s : JSString) : list (list N) :=
  match s with
  | [] => []
  | h :: t =>
      match t with
      | l :: t' =>
          if isHighSurrogate h && isLowSurrogate l
          then [h; l] :: codePoints t'
          else [h] :: codePoints t
      | [] => [[h]]
      end
  end.

Definition codePointValue (u : list N) : N :=
  match u with
  | [h; l] => (65536 + (h - 55296) * 1024 + (l - 56320))%N
  | c :: _ => c
  | [] => 0%N
  end.

(** The class [\s] of a regular expression: WhiteSpace and
    LineTerminator of ECMAScript. *)
Definition isWhiteSpace (c : N) : bool :=
  ((9 <=? c) && (c <=? 13) || (c =? 32) || (c =? 160) || (c =? 5760)
   || (8192 <=? c) && (c <=? 8202) || (c =? 8232) || (c =? 8233)
   || (c =? 8239) || (c =? 8287) || (c =? 12288) || (c =? 65279))%N.

(** [s.split(/\s+/)]: the pieces between maximal runs of white space;
    a run at either end leaves an empty piece there. *)
Fixpoint splitGo (s : JSString) (cur : JSString) (inSep : bool) : list JSString :=
  match s with
  | [] => [cur]
  | c :: s' =>
      if isWhiteSpace c
      then (if inSep then splitGo s' [] true else cur :: splitGo s' [] true)
      else splitGo s' (cur ++ [c]) false
  end.

Definition splitWhiteSpace (s : JSString) : list JSString := splitGo s [] false.

(** What the engine knows about Unicode and the repository does not
    define: [String.prototype.toLowerCase] and the general categories
    behind [\p{L}] and [\p{N}] (on code points). *)
Class Unicode : Type := {
  toLowerCase : JSString -> JSString;
  isLetter : N -> bool;
  isNumber : N -> bool
}.

(** The Unicode data of the blocks Basic Latin and Latin-1 Supplement
    (U+0000..U+00FF), used to run the code on Latin-1 input.  Code
    units above U+00FF are outside this table: it leaves them unchanged
    and unclassified, and no statement below evaluates it on them. *)
Definition latin1Lower (c : N) : N :=
  (if (65 <=? c) && (c <=? 90) then c + 32
   else if (192 <=? c) && (c <=? 222) && negb (c =? 215) then c + 32
   else c)%N.

Definition latin1Letter (c : N) : bool :=
  ((65 <=? c) && (c <=? 90) || (97 <=? c) && (c <=? 122)
   || (c =? 170) || (c =? 181) || (c =? 186)
   || (192 <=? c) && (c <=? 214) || (216 <=? c) && (c <=? 246)
   || (248 <=? c) && (c <=? 255))%N.

Definition latin1Number (c : N) : bool :=
  ((48 <=? c) && (c <=? 57) || (c =? 178) || (c =? 179) || (c =? 185)
   || (188 <=? c) && (c <=? 190))%N.

Definition Latin1 : Unicode := {|
  toLowerCase := List.map latin1Lower;
  isLetter := latin1Letter;
  isNumber := latin1Number
|}.

End JS.

Import JS.

(** ** tokenize.js *)

Module Tokenize.

Section WithUnicode.
Context {U : Unicode}.

(** [[^\p{L}\p{N}]]: a code point that is neither a letter nor a number. *)
Definition notLetterOrNumber (u : list N) : bool :=
  negb (isLetter (codePointValue u) || isNumber (codePointValue u)).

Fixpoint dropWhile {A} (p : A -> bool) (l : list A) : list A :=
  match l with
  | [] => []
  | x :: l' => if p x then dropWhile p l' else l
  end.

(** [lower.replace(/^[^\p{L}\p{N}]+|[^\p{L}\p{N}]+$/gu, "")]: the
    leading and the trailing run of such code points are removed. *)
Definition stripEdges (s : JSString) : JSString :=
  concat (rev (dropWhile notLetterOrNumber
                 (rev (dropWhile notLetterOrNumber (codePoints s))))).

(** The class of the second replacement, as the engine reads it.  The
    pattern lists apostrophe, apostrophe, grave accent, acute accent,
    hyphen-minus, en dash, em dash, minus sign; the unescaped
    hyphen-minus between the acute accent and the en dash denotes the
    range U+00B4..U+2013, so the class is
    {U+0027, U+0060} + [U+00B4, U+2013] + {U+2014, U+2212}
    and the hyphen-minus U+002D itself is not in it. *)
Definition inCollapseClass (c : N) : bool :=
  ((c =? 39) || (c =? 96) || (180 <=? c) && (c <=? 8211)
   || (c =? 8212) || (c =? 8722))%N.

(** [stripped.replace(/[...]/g, "")] (no [u] flag: unit by unit). *)
Definition collapse (s : JSString) : JSString :=
  List.filter (fun c => negb (inCollapseClass c)) s.

Definition normalizeWord (w : JSString) : JSString :=
  if negb (truthy w) then []
  else
    let lower := toLowerCase w in
    let stripped := stripEdges lower in
    let collapsed := collapse stripped in
    collapsed.

End WithUnicode.

End Tokenize.

(** ** aligner.js: the similarity scorer *)

Module Scorer.

(** One pass of the inner loop [for (let j = 1; j <= n; j++)]: the
    loop state is the row [dp] and the variable [prev]. *)
Definition levInner (a b : JSString) (i : nat)
    (st : list nat * nat) (j : nat) : list nat * nat :=
  let '(dp, prev) := st in
  let temp := dp !!! j in
  let dp' :=
    if bool_decide (a !! (i - 1)%nat = b !! (j - 1)%nat)
    then <[j := prev]> dp
    else <[j := Nat.min (prev + 1) (Nat.min (dp !!! j + 1) (dp !!! (j - 1)%nat + 1))]> dp in
  (dp', temp).

(** One pass of the outer loop [for (let i = 1; i <= m; i++)]. *)
Definition levOuter (a b : JSString) (dp : list nat) (i : nat) : list nat :=
  let prev := dp !!! 0%nat in
  let dp0 := <[0%nat := i]> dp in
  fst (fold_left (levInner a b i) (seq 1 (length b)) (dp0, prev)).

(** [function levenshtein(a, b)]. *)
Definition levenshtein (a b : JSString) : nat :=
  let m := length a in
  let n := length b in
  if (m =? 0)%nat then n
  else if (n =? 0)%nat then m
  else
    let dp := seq 0 (n + 1) in
    fold_left (levOuter a b) (seq 1 m) dp !!! n.

Definition ofNat (n : nat) : Q := inject_Z (Z.of_nat n).

(** [function similarity(a, b)]. *)
Definition similarity (a b : JSString) : Q :=
  let dist := levenshtein a b in
  let maxLen := orOne (Nat.max (length a) (length b)) in
  1 - ofNat dist / ofNat maxLen.

(** The textbook recurrence for the Levenshtein distance, on prefixes
    through their last characters: [editRev x y] is the distance
    between the strings whose reversals are [x] and [y]. *)
Fixpoint editRev (x : list N) : list N -> nat :=
  fix inner (y : list N) : nat :=
    match x, y with
    | [], _ => length y
    | _, [] => length x
    | c :: x', d :: y' =>
        Nat.min (S (editRev x' y))
          (Nat.min (S (inner y'))
             (editRev x' y' + (if bool_decide (c = d) then 0 else 1)))
    end.

(** The Levenshtein distance in the words of the specification:
    single-character insertions, deletions and substitutions. *)
Definition editDistance (a b : JSString) : nat := editRev (rev a) (rev b).

End Scorer.

(** ** Tokens (tokenize.js) *)

(** The [status] strings the sources write: ["pending"], ["correct"],
    ["incorrect"], ["skipped"], and ["sep"] on separators. *)
Inductive Status : Type :=
| pending | correct | incorrect | skipped | sep.

Global Instance Status_eq_dec : EqDecision Status.
Proof. solve_decision. Defined.

(** [{ id, text, norm, isWord, status, phonetic }]; separators carry no
    [phonetic] field. *)
Record Token : Type := mkToken {
  id : Z;
  text : JSString;
  norm : JSString;
  isWord : bool;
  status : Status;
  phonetic : option (JSString * JSString)
}.

Definition setStatus (st : Status) (t : Token) : Token :=
  mkToken (id t) (text t) (norm t) (isWord t) st (phonetic t).

(** ** aligner.js: the beam search *)

Module Aligner.
Import Tokenize Scorer.

(** [const FILLERS = new Set([...])]. *)
Definition FILLERS : gset JSString :=
  {[ lit "uh"; lit "um"; lit "er"; lit "ah"; lit "eh"; lit "mm"; lit "hmm" ]}.

Definition FILLERS_has (w : JSString) : bool := bool_decide (w ∈ FILLERS).

(** An element of [path]: the object pushed by each transition. *)
Inductive Step : Type :=
| match_ (textPos : Z) (spokenWord : JSString) (cost : Q)
| substitution (textPos : Z) (spokenWord expected : JSString) (cost : Q)
| deletion (textPos : Z) (expected : JSString) (cost : Q)
| insertion (spokenWord : JSString) (cost : Q).

(** [class AlignmentState]. *)
Record AlignmentState : Type := mkState {
  textPos : Z;
  spokenPos : Z;
  cost : Q;
  path : list Step
}.

(** The calls made on the [ui] hooks, in order.  The hooks belong to the
    caller; the aligner only invokes them. *)
Inductive Title : Type :=
| titleSubstitution (expected heard : JSString)
| titleSkipped (expected : JSString)
| titleCorrect (expected : JSString).

Inductive UICall : Type :=
| updateStatus (tokenIndex : Z) (st : Status)
| uiSetPointer (idx : Z)
| setTitle (tokenIndex : Z) (title : Title).

(** [class Aligner]: the fields of [this], and the trace of hook calls. *)
Record Aligner : Type := mkAligner {
  tokens : list Token;
  pointer : Z;
  beamWidth : nat;
  threshold : Q;
  margin : Q;
  windowSize : nat;
  spokenBuffer : list JSString;
  beam : list AlignmentState;
  uiTrace : list UICall
}.

Definition withTokens (v : list Token) (a : Aligner) : Aligner :=
  mkAligner v (pointer a) (beamWidth a) (threshold a) (margin a)
    (windowSize a) (spokenBuffer a) (beam a) (uiTrace a).
Definition withPointer (v : Z) (a : Aligner) : Aligner :=
  mkAligner (tokens a) v (beamWidth a) (threshold a) (margin a)
    (windowSize a) (spokenBuffer a) (beam a) (uiTrace a).
Definition withSpokenBuffer (v : list JSString) (a : Aligner) : Aligner :=
  mkAligner (tokens a) (pointer a) (beamWidth a) (threshold a) (margin a)
    (windowSize a) v (beam a) (uiTrace a).
Definition withBeam (v : list AlignmentState) (a : Aligner) : Aligner :=
  mkAligner (tokens a) (pointer a) (beamWidth a) (threshold a) (margin a)
    (windowSize a) (spokenBuffer a) v (uiTrace a).
Definition uiCall (c : UICall) (a : Aligner) : Aligner :=
  mkAligner (tokens a) (pointer a) (beamWidth a) (threshold a) (margin a)
    (windowSize a) (spokenBuffer a) (beam a) (uiTrace a ++ [c]).

(** A method call on an aligner either returns a value or throws; both
    leave the object in some state. *)
Inductive Completion (A : Type) : Type :=
| Returned (v : A) (this : Aligner)
| Threw (e : Error) (this : Aligner).
Arguments Returned {A} v this.
Arguments Threw {A} e this.

Definition stateOf {A} (c : Completion A) : Aligner :=
  match c with Returned _ s => s | Threw _ s => s end.

Definition Method (A : Type) : Type := Aligner -> Completion A.

Definition ret {A} (v : A) : Method A := fun this => Returned v this.

Definition bind {A B} (m : Method A) (k : A -> Method B) : Method B :=
  fun this =>
    match m this with
    | Returned v this' => k v this'
    | Threw e this' => Threw e this'
    end.

Notation "m1 ;;; m2" := (bind m1 (fun _ => m2))
  (at level 100, m2 at level 200, right associativity).

Definition update (f : Aligner -> Aligner) : Method unit :=
  fun this => Returned tt (f this).

(** [for (const x of xs) body(x)]. *)
Fixpoint forEach {A} (xs : list A) (body : A -> Method unit) : Method unit :=
  match xs with
  | [] => ret tt
  | x :: xs' => body x ;;; forEach xs' body
  end.

Definition Qltb (x y : Q) : bool := negb (Qle_bool y x).

(** [_firstWordIndex()]. *)
Fixpoint firstWordFrom (ts : list Token) (i : Z) : Z :=
  match ts with
  | [] => -1
  | t :: ts' => if isWord t then i else firstWordFrom ts' (i + 1)
  end.

Definition _firstWordIndex (ts : list Token) : Z := firstWordFrom ts 0.

(** [_resetBeam()]. *)
Definition _resetBeam : Method unit :=
  update (fun this => withBeam [mkState (pointer this) 0 0 []] this).

(** [new Aligner(tokens, ui)]. *)
Definition new (ts : list Token) : Aligner :=
  let this := mkAligner ts (_firstWordIndex ts) 4 (8 # 10)%Q (1 # 10)%Q 10 [] [] [] in
  stateOf (_resetBeam this).

(** [setPointer(idx)]. *)
Definition setPointer (idx : Z) : Method unit :=
  update (fun this => uiCall (uiSetPointer idx) (withPointer idx this)).

(** [Math.max(lo, Math.min(hi, Math.floor(v)))] on a finite number. *)
Definition clampFloor (lo hi : Z) (v : Q) : nat :=
  Z.to_nat (Z.max lo (Z.min hi (Qfloor v))).

(** [setConfig({ beamWidth, threshold, margin, windowSize })]: a field
    is [Some v] when it is given and [Number.isFinite], else [None]. *)
Definition setConfig (beamWidth_ threshold_ margin_ windowSize_ : option Q)
    : Method unit :=
  update (fun this =>
    mkAligner (tokens this) (pointer this)
      (match beamWidth_ with Some v => clampFloor 2 10 v | None => beamWidth this end)
      (match threshold_ with Some v => Qmin 1 (Qmax 0 v) | None => threshold this end)
      (match margin_ with Some v => Qmin 1 (Qmax 0 v) | None => margin this end)
      (match windowSize_ with Some v => clampFloor 5 20 v | None => windowSize this end)
      (spokenBuffer this) (beam this) (uiTrace this)).

(** [_canMatch(spokenWord, textToken)]. *)
Definition _canMatch (this : Aligner) (spokenWord : JSString) (textToken : Token) : bool :=
  Qle_bool (threshold this) (similarity spokenWord (norm textToken)).

(** [state.clone()] followed by the assignments and the [path.push]. *)
Definition successor (state : AlignmentState) (newTextPos newSpokenPos : Z)
    (added : Q) (step : Step) : AlignmentState :=
  mkState newTextPos newSpokenPos (cost state + added)%Q (path state ++ [step]).

(** [_generateTransitions(state, textPos, textToken, spokenWord)]. *)
Definition _generateTransitions (this : Aligner) (state : AlignmentState)
    (textPos_ : Z) (textToken : Token) (spokenWord : JSString) : list AlignmentState :=
  let matchT :=
    if _canMatch this spokenWord textToken then
      let matchCost := (1 - similarity spokenWord (norm textToken))%Q in
      [successor state (textPos_ + 1) (spokenPos state + 1) matchCost
         (match_ textPos_ spokenWord matchCost)]
    else [] in
  let subCost := (1 - similarity spokenWord (norm textToken))%Q in
  let subState :=
    successor state (textPos_ + 1) (spokenPos state + 1) subCost
      (substitution textPos_ spokenWord (norm textToken) subCost) in
  let delState :=
    successor state (textPos_ + 1) (spokenPos state) (5 # 10)%Q
      (deletion textPos_ (norm textToken) (5 # 10)%Q) in
  let insertCost := (if FILLERS_has spokenWord then 1 # 10 else 3 # 10)%Q in
  let insertState :=
    successor state textPos_ (spokenPos state + 1) insertCost
      (insertion spokenWord insertCost) in
  matchT ++ [subState; delState; insertState].

(** The loop of [_getTextTokensInWindow]: [rest] is [tokens] from
    [pos] on, so [pos < this.tokens.length] reads [rest <> []]. *)
Fixpoint windowLoop (ws : nat) (rest : list Token) (pos : Z) (count : nat)
    : list (Z * Token) :=
  match rest with
  | [] => []
  | t :: rest' =>
      if (count <? ws)%nat then
        if isWord t then (pos, t) :: windowLoop ws rest' (pos + 1) (count + 1)
        else windowLoop ws rest' (pos + 1) count
      else []
  end.

(** [_getTextTokensInWindow(startPos)].  A negative [startPos] passes
    the test [pos < this.tokens.length]; [this.tokens[pos]] is then
    [undefined] and reading [.isWord] throws. *)
Definition _getTextTokensInWindow (this : Aligner) (startPos : Z)
    : Error + list (Z * Token) :=
  if startPos <? 0 then
    if (0 <? windowSize this)%nat then inl TypeError else inr []
  else
    inr (windowLoop (windowSize this)
           (drop (Z.to_nat startPos) (tokens this)) startPos 0).

(** [states.sort((a, b) => a.cost - b.cost)]: a stable sort by cost. *)
Fixpoint insertByCost (s : AlignmentState) (l : list AlignmentState)
    : list AlignmentState :=
  match l with
  | [] => [s]
  | h :: t => if Qle_bool (cost s) (cost h) then s :: l else h :: insertByCost s t
  end.

Definition sortByCost (l : list AlignmentState) : list AlignmentState :=
  foldr insertByCost [] l.

(** [_pruneBeam(states)]. *)
Definition _pruneBeam (this : Aligner) (states : list AlignmentState)
    : list AlignmentState :=
  take (beamWidth this) (sortByCost states).

(** The body of [for (const state of this.beam)], collecting what it
    pushes on [newBeam]. *)
Definition expandState (this : Aligner) (spokenWord : JSString)
    (state : AlignmentState) : Error + list AlignmentState :=
  match _getTextTokensInWindow this (textPos state) with
  | inl e => inl e
  | inr textTokens =>
      inr (concat (List.map
             (fun '(textPos_, textToken) =>
                _generateTransitions this state textPos_ textToken spokenWord)
             textTokens))
  end.

Fixpoint expandStates (this : Aligner) (spokenWord : JSString)
    (states : list AlignmentState) : Error + list AlignmentState :=
  match states with
  | [] => inr []
  | st :: rest =>
      match expandState this spokenWord st with
      | inl e => inl e
      | inr out =>
          match expandStates this spokenWord rest with
          | inl e => inl e
          | inr outs => inr (out ++ outs)
          end
      end
  end.

(** [_expandBeam(spokenWord)]: [this.beam] is assigned only after the
    loops, so a throw leaves [this] as it was. *)
Definition _expandBeam (spokenWord : JSString) : Method unit :=
  fun this =>
    match expandStates this spokenWord (beam this) with
    | inl e => Threw e this
    | inr newBeam => Returned tt (withBeam (_pruneBeam this newBeam) this)
    end.

(** [_mark(idx, status, heardNorm)]. *)
Definition _mark (idx : Z) (st : Status) (heardNorm : JSString) : Method unit :=
  fun this =>
    match at_ (tokens this) idx with
    | None => Returned tt this
    | Some t =>
        if negb (isWord t) then Returned tt this
        else
          let this1 := withTokens (<[Z.to_nat idx := setStatus st t]> (tokens this)) this in
          let this2 := uiCall (updateStatus idx st) this1 in
          let expected := norm t in
          Returned tt
            match st with
            | incorrect => uiCall (setTitle idx (titleSubstitution expected heardNorm)) this2
            | skipped => uiCall (setTitle idx (titleSkipped expected)) this2
            | correct => uiCall (setTitle idx (titleCorrect expected)) this2
            | _ => this2
            end
    end.

(** [_applyPath(path)]. *)
Definition _applyPath (p : list Step) : Method unit :=
  forEach p (fun step =>
    match step with
    | match_ tp w _ => _mark tp correct w
    | substitution tp w _ _ => _mark tp incorrect w
    | deletion tp _ _ => _mark tp skipped []
    | insertion _ _ => ret tt
    end).

(** [this.beam.reduce((best, current) => current.cost < best.cost ? current : best)]. *)
Definition bestOf (first : AlignmentState) (others : list AlignmentState)
    : AlignmentState :=
  fold_left (fun best current => if Qltb (cost current) (cost best) then current else best)
    others first.

(** [_checkAdvancement()]. *)
Definition _checkAdvancement : Method unit :=
  fun this =>
    match beam this with
    | [] => Returned tt this
    | first :: others =>
        let bestState := bestOf first others in
        let bestTextPos := textPos bestState in
        let bestCost := cost bestState in
        let competitiveStates :=
          List.filter
            (fun state => (bestTextPos - 1 <=? textPos state)
                          && Qle_bool (cost state) (bestCost + margin this)%Q)
            (beam this) in
        if (length competitiveStates =? 1)%nat
           || ((pointer this + 2 <? bestTextPos)
               && Qltb bestCost (ofNat (length (beam this)) * (5 # 10))%Q)
        then (_applyPath (path bestState) ;;; setPointer bestTextPos ;;; _resetBeam) this
        else Returned tt this
    end.

(** [_processBeamSearch()]. *)
Definition _processBeamSearch : Method unit :=
  fun this =>
    match spokenBuffer this with
    | [] => Returned tt this
    | _ =>
        (forEach (spokenBuffer this) _expandBeam ;;;
         _checkAdvancement ;;;
         update (withSpokenBuffer [])) this
    end.

Section WithUnicode.
Context {U : Unicode}.

(** The words of a phrase: split, normalized, empties dropped. *)
Definition wordsOf (phrase : JSString) : list JSString :=
  List.filter truthy (List.map normalizeWord (splitWhiteSpace phrase)).

(** [advanceWithPhrase(phrase)]. *)
Definition advanceWithPhrase (phrase : JSString) : Method nat :=
  if negb (truthy phrase) then ret 0%nat
  else
    let words := wordsOf phrase in
    update (fun this => withSpokenBuffer (spokenBuffer this ++ words) this) ;;;
    _processBeamSearch ;;;
    ret (length words).

End WithUnicode.

End Aligner.

(** ** The phonetic variant of aligner.js *)

Module PhoneticAligner.
Import Scorer Aligner.

Section WithLevenshtein.

(** [import { get as levenshtein } from "./libs/levenshtein-esm.js"]:
    the distance function of the package fastest-levenshtein, which is
    not part of the repository. *)
Variable levenshtein : JSString -> JSString -> nat.

(** [function similarity(a, b)] of this variant. *)
Definition similarity (a b : JSString) : Q :=
  let maxLen := orOne (Nat.max (length a) (length b)) in
  1 - ofNat (levenshtein a b) / ofNat maxLen.

(** The fields of [this] read by the scoring methods. *)
Record Scoring : Type := mkScoring {
  threshold : Q;
  phoneticEnabled : bool;
  phoneticWeight : Q
}.

Definition streq (a b : JSString) : bool := bool_decide (a = b).

(** The fallback of [_combinedSimilarity]: the best normalized
    similarity over the pairs of non-empty codes. *)
Definition bestPairSimilarity (spokenPhonetic tPhon : JSString * JSString) : Q :=
  let pairs :=
    flat_map
      (fun a => List.map (fun b => (a, b)) (List.filter truthy [fst tPhon; snd tPhon]))
      (List.filter truthy [fst spokenPhonetic; snd spokenPhonetic]) in
  fold_left
    (fun best '(a, b) =>
       let maxLen := orOne (Nat.max (length a) (length b)) in
       let sim := (1 - ofNat (levenshtein a b) / ofNat maxLen)%Q in
       if Qltb best sim then sim else best)
    pairs 0%Q.

(** The variable [phonSim] of [_combinedSimilarity] when it reaches
    the blend: [tPhon] is [textToken.phonetic], or the pair of empty
    strings when that is not an array. *)
Definition phonSimOf (spokenPhonetic : JSString * JSString) (textToken : Token) : Q :=
  let tPhon := match phonetic textToken with Some p => p | None => ([], []) end in
  let s0 := fst spokenPhonetic in
  let s1 := snd spokenPhonetic in
  if truthy (fst tPhon) || truthy (snd tPhon) || (truthy s0 || truthy s1) then
    if (truthy s0 && (streq s0 (fst tPhon) || streq s0 (snd tPhon)))
       || (truthy s1 && (streq s1 (fst tPhon) || streq s1 (snd tPhon)))
    then 1%Q
    else bestPairSimilarity spokenPhonetic tPhon
  else 0%Q.

(** [_combinedSimilarity(spokenWord, spokenPhonetic, textToken)]. *)
Definition _combinedSimilarity (this : Scoring) (spokenWord : JSString)
    (spokenPhonetic : JSString * JSString) (textToken : Token) : Q :=
  let textSim := similarity spokenWord (norm textToken) in
  if negb (phoneticEnabled this) then textSim
  else
    let phonSim := phonSimOf spokenPhonetic textToken in
    let blended := (phoneticWeight this * phonSim + (1 - phoneticWeight this) * textSim)%Q in
    Qmax textSim blended.

(** [_canMatch(spokenWord, spokenPhonetic, textToken)]. *)
Definition _canMatch (this : Scoring) (spokenWord : JSString)
    (spokenPhonetic : JSString * JSString) (textToken : Token) : bool :=
  Qle_bool (threshold this) (_combinedSimilarity this spokenWord spokenPhonetic textToken).

(** [_generateTransitions(state, textPos, textToken, spokenWord, spokenPhonetic)]. *)
Definition _generateTransitions (this : Scoring) (state : AlignmentState)
    (textPos_ : Z) (textToken : Token) (spokenWord : JSString)
    (spokenPhonetic : JSString * JSString) : list AlignmentState :=
  let matchT :=
    if _canMatch this spokenWord spokenPhonetic textToken then
      let sim := _combinedSimilarity this spokenWord spokenPhonetic textToken in
      let matchCost := (1 - sim)%Q in
      [successor state (textPos_ + 1) (spokenPos state + 1) matchCost
         (match_ textPos_ spokenWord matchCost)]
    else [] in
  let subSim := _combinedSimilarity this spokenWord spokenPhonetic textToken in
  let subCost := (1 - subSim)%Q in
  let subState :=
    successor state (textPos_ + 1) (spokenPos state + 1) subCost
      (substitution textPos_ spokenWord (norm textToken) subCost) in
  let delState :=
    successor state (textPos_ + 1) (spokenPos state) (5 # 10)%Q
      (deletion textPos_ (norm textToken) (5 # 10)%Q) in
  let insertCost := (if FILLERS_has spokenWord then 1 # 10 else 3 # 10)%Q in
  let insertState :=
    successor state textPos_ (spokenPos state + 1) insertCost
      (insertion spokenWord insertCost) in
  matchT ++ [subState; delState; insertState].

End WithLevenshtein.

End PhoneticAligner.

(** ** decisionBuffer.js *)

Module Decision.

(** The object pushed on the buffer:
    [{ index, status, timestamp, expected, heard, automatic }]. *)
Record t : Type := mk {
  index : Z;
  status : Status;
  timestamp : Z;
  expected : JSString;
  heard : JSString;
  automatic : bool
}.

End Decision.

Module DecisionBuffer.

(** [class DecisionBuffer]: a slot of [buffer] holds a decision or, as
    a hole of the array, [undefined]. *)
Record t : Type := mk {
  size : Z;
  buffer : list (option Decision.t);
  head : Z;
  count : Z
}.

(** [new DecisionBuffer(size)]. *)
Definition new (size_ : Z) : t := mk size_ [] 0 0.

(** [arr[i] = v] on an array: inside it replaces, at or past the end
    it extends (leaving holes), and a negative [i] is not an index. *)
Definition arraySet {A} (arr : list (option A)) (i : Z) (v : A) : list (option A) :=
  if i <? 0 then arr
  else if i <? Z.of_nat (length arr) then <[Z.to_nat i := Some v]> arr
  else arr ++ replicate (Z.to_nat i - length arr) None ++ [Some v].

(** [push(decision)]. *)
Definition push (decision : Decision.t) (this : t) : t :=
  if count this <? size this
  then mk (size this) (buffer this ++ [Some decision]) (head this) (count this + 1)
  else mk (size this) (arraySet (buffer this) (head this) decision)
         (Z.rem (head this + 1) (size this)) (count this).

(** [getRecent(count)]; the parameter is written [k] here. *)
Definition getRecent (k : Z) (this : t) : list (option Decision.t) :=
  if count this <=? k then buffer this
  else
    fold_left
      (fun result i =>
         let idx := Z.rem (head this - k + i + size this) (size this) in
         match at_ (buffer this) idx with
         | Some (Some d) => result ++ [Some d]
         | _ => result
         end)
      (List.map Z.of_nat (seq 0 (Z.to_nat k))) [].

(** [clear()]. *)
Definition clear (this : t) : t := mk (size this) [] 0 0.

End DecisionBuffer.

(** ** Binary64 numbers *)

Module Binary64.
Import PrimFloat.

(** A JavaScript number that is not an integer-valued index or
    counter: an IEEE 754 binary64 value.  [add] and [mul] round to
    nearest, ties to even, as [+] and [*] of ECMAScript do. *)
Definition float : Set := PrimFloat.float.

Definition add (x y : float) : float := PrimFloat.add x y.
Definition mul (x y : float) : float := PrimFloat.mul x y.

(** The literals [0], [0.1], [0.5] and [1.0]; [0.1] is the binary64
    number nearest to one tenth. *)
Definition zero : float := 0%float.
Definition tenth : float := 0x1.999999999999ap-4%float.
Definition half : float := 0.5%float.
Definition one : float := 1%float.

(** The number held by an integer counter; a counter of array elements
    is below [2^32], where the conversion is exact. *)
Definition ofZ (n : Z) : float := PrimFloat.of_uint63 (Uint63.of_Z n).

(** The rational number a finite binary64 value stands for, in lowest
    terms; [None] for an infinity and for NaN. *)
Definition value (x : float) : option Q :=
  match FloatOps.Prim2SF x with
  | SpecFloat.S754_zero _ => Some 0%Q
  | SpecFloat.S754_finite s m e =>
      Some (Qred (inject_Z (if s then Z.neg m else Z.pos m) * Qpower 2 e))
  | _ => None
  end.

(** [x > y] for a binary64 [x] and a finite [y] given by its value. *)
Definition greater (x : float) (y : Q) : bool :=
  match FloatOps.Prim2SF x with
  | SpecFloat.S754_infinity s => negb s
  | SpecFloat.S754_nan => false
  | _ => match value x with
         | Some v => negb (Qle_bool v y)
         | None => false
         end
  end.

(** The sum of a list of numbers, added from left to right. *)
Definition sum (l : list float) : float := fold_left add l zero.

End Binary64.

(** ** app.js: the auto-backtrack controller and the manual undo *)

Module App.

(** The fields of the global [state] that the functions below read or
    write.  Of [state.aligner] they touch the [pointer] field only:
    [alignerPointer] is [None] while [state.aligner] is [null], and
    [backtrackThreshold] is the value of the threshold, a finite
    number.  The calls into ui.js only draw and are left out. *)
Record State : Type := mkState {
  tokens : list Token;
  pointer : Z;
  alignerPointer : option Z;
  decisionBuffer : DecisionBuffer.t;
  backtrackThreshold : Q;
  backtrackWindow : Z
}.

(** [setPointer(idx)]. *)
Definition setPointer (idx : Z) (state : State) : State :=
  mkState (tokens state) idx
    (match alignerPointer state with Some _ => Some idx | None => None end)
    (decisionBuffer state) (backtrackThreshold state) (backtrackWindow state).

(** One pass of the loop of [calculateAlignmentCost]: the loop state is
    [(cost, consecutiveErrors)]. *)
Definition costStep (st : Binary64.float * Z) (decision : Decision.t)
    : Binary64.float * Z :=
  let '(cost, consecutiveErrors) := st in
  let '(cost, consecutiveErrors) :=
    match Decision.status decision with
    | correct => (Binary64.add cost Binary64.tenth, 0)
    | incorrect => (Binary64.add cost Binary64.one, consecutiveErrors + 1)
    | skipped => (Binary64.add cost Binary64.half, consecutiveErrors + 1)
    | _ => (cost, consecutiveErrors)
    end in
  if 3 <=? consecutiveErrors
  then (Binary64.add cost (Binary64.mul (Binary64.ofZ consecutiveErrors) Binary64.half),
        consecutiveErrors)
  else (cost, consecutiveErrors).

(** [calculateAlignmentCost(decisions)]. *)
Definition calculateAlignmentCost (decisions : list Decision.t) : Binary64.float :=
  fst (fold_left costStep decisions (Binary64.zero, 0)).

(** The loop [for (let i = decisions.length - 1; i >= 0; i--)] of
    [performAutoBacktrack], started from [rollbackIndex = -1], on the
    array read from its end; reading [.status] of a hole of the array
    throws ([None]). *)
Fixpoint lastCorrectLoop (fromEnd : list (option Decision.t)) : option Z :=
  match fromEnd with
  | [] => Some (-1)
  | None :: _ => None
  | Some d :: rest =>
      if bool_decide (Decision.status d = correct) then Some (Decision.index d)
      else lastCorrectLoop rest
  end.

(** The body of the loop [for (let i = startIdx; i <= endIdx; i++)];
    reading [.isWord] of a missing token throws ([None]). *)
Definition resetBody (acc : option (list Token)) (i : Z) : option (list Token) :=
  match acc with
  | None => None
  | Some ts =>
      match at_ ts i with
      | None => None
      | Some t =>
          if isWord t then Some (<[Z.to_nat i := setStatus pending t]> ts)
          else Some ts
      end
  end.

Definition resetRange (ts : list Token) (startIdx endIdx : Z) : option (list Token) :=
  fold_left resetBody
    (List.map (fun k => startIdx + Z.of_nat k) (seq 0 (Z.to_nat (endIdx - startIdx + 1))))
    (Some ts).

(** The loop of [checkDrift]: [i] runs down from [n - 1] while
    [count < 8]; reading [.isWord] of a missing token throws
    ([None]). *)
Fixpoint driftLoop (ts : list Token) (n : nat) (count errors : nat) : option (nat * nat) :=
  match n with
  | O => Some (count, errors)
  | S i =>
      if (count <? 8)%nat then
        match ts !! i with
        | None => None
        | Some t =>
            if negb (isWord t) then driftLoop ts i count errors
            else
              let errors' :=
                if bool_decide (status t = incorrect) || bool_decide (status t = skipped)
                then S errors else errors in
              let count' :=
                if bool_decide (status t = pending) then count else S count in
              driftLoop ts i count' errors'
        end
      else Some (count, errors)
  end.

(** [checkDrift()]: the value passed to [showDriftBanner], or [None]
    for a thrown [TypeError]. *)
Definition checkDrift (state : State) : option bool :=
  if pointer state <? 0 then Some false
  else
    match driftLoop (tokens state) (Z.to_nat (pointer state)) 0 0 with
    | None => None
    | Some (count, errors) => Some ((4 <=? count)%nat && (3 <=? errors)%nat)
    end.

(** [refreshMetrics()]: [computeMetrics] and the drawing calls change
    nothing; what is left is whether [checkDrift] completes. *)
Definition refreshMetrics (state : State) : option State :=
  match checkDrift state with
  | None => None
  | Some _ => Some state
  end.

(** [performAutoBacktrack(decisions)]; [None] stands for a thrown
    [TypeError]. *)
Definition performAutoBacktrack (decisions : list (option Decision.t)) (state : State)
    : option State :=
  match
    match lastCorrectLoop (rev decisions) with
    | None => None
    | Some rollbackIndex =>
        if rollbackIndex =? -1
        then match decisions !! 0%nat with
             | Some (Some d) => Some (Decision.index d)
             | _ => None
             end
        else Some rollbackIndex
    end
  with
  | None => None
  | Some rollbackIndex =>
      let startIdx := Z.max 0 (rollbackIndex - 2) in
      let endIdx := Z.min (Z.of_nat (length (tokens state)) - 1) (pointer state) in
      match resetRange (tokens state) startIdx endIdx with
      | None => None
      | Some ts =>
          let state1 :=
            mkState ts (pointer state) (alignerPointer state)
              (decisionBuffer state) (backtrackThreshold state) (backtrackWindow state) in
          let state2 := setPointer rollbackIndex state1 in
          refreshMetrics
            (mkState (tokens state2) (pointer state2) (alignerPointer state2)
               (DecisionBuffer.clear (decisionBuffer state2))
               (backtrackThreshold state2) (backtrackWindow state2))
      end
  end.

(** The objects of an array returned by [getRecent]; [None] when a
    slot is [undefined], where the loop of [calculateAlignmentCost]
    throws on reading [.status]. *)
Fixpoint objects (l : list (option Decision.t)) : option (list Decision.t) :=
  match l with
  | [] => Some []
  | None :: _ => None
  | Some d :: l' => option_map (cons d) (objects l')
  end.

(** [checkAutoBacktrack()]; [None] stands for a thrown [TypeError]. *)
Definition checkAutoBacktrack (state : State) : option State :=
  if DecisionBuffer.count (decisionBuffer state) <? backtrackWindow state
  then Some state
  else
    let recentDecisions :=
      DecisionBuffer.getRecent (backtrackWindow state) (decisionBuffer state) in
    match objects recentDecisions with
    | None => None
    | Some records =>
        let cost := calculateAlignmentCost records in
        if Binary64.greater cost (backtrackThreshold state)
        then performAutoBacktrack recentDecisions state
        else Some state
    end.

(** [triggerManualBacktrack()], bound to the key [b]; [None] stands
    for a thrown [TypeError]. *)
Definition triggerManualBacktrack (state : State) : option State :=
  if DecisionBuffer.count (decisionBuffer state) <? 4 then Some state
  else
    let recentDecisions :=
      DecisionBuffer.getRecent
        (Z.min (backtrackWindow state) (DecisionBuffer.count (decisionBuffer state)))
        (decisionBuffer state) in
    performAutoBacktrack recentDecisions state.

(** [prevWordIndex(tokens, fromIndex)] of tokenize.js, for an integer
    [fromIndex]: the loop runs [i] down from [fromIndex - 1], and
    reading [.isWord] past the end of the array throws. *)
Fixpoint prevWordLoop (ts : list Token) (n : nat) : option Z :=
  match n with
  | O => Some (-1)
  | S i =>
      match ts !! i with
      | None => None
      | Some t => if isWord t then Some (Z.of_nat i) else prevWordLoop ts i
      end
  end.

Definition prevWordIndex (ts : list Token) (fromIndex : Z) : option Z :=
  prevWordLoop ts (Z.to_nat fromIndex).

(** The lines of [backOne] under the comment "Remove the last decision
    from buffer". *)
Definition removeLastDecision (b : DecisionBuffer.t) : DecisionBuffer.t :=
  if 0 <? DecisionBuffer.count b then
    let count1 := DecisionBuffer.count b - 1 in
    if count1 =? 0
    then DecisionBuffer.mk (DecisionBuffer.size b) (DecisionBuffer.buffer b) 0 count1
    else DecisionBuffer.mk (DecisionBuffer.size b) (DecisionBuffer.buffer b)
           (Z.rem (DecisionBuffer.head b - 1 + DecisionBuffer.size b) (DecisionBuffer.size b))
           count1
  else b.

(** [backOne()]; [None] stands for a thrown [TypeError]. *)
Definition backOne (state : State) : option State :=
  if pointer state <? 0 then Some state
  else
    match prevWordIndex (tokens state) (pointer state) with
    | None => None
    | Some prev =>
        if 0 <=? prev then
          match at_ (tokens state) prev with
          | None => None
          | Some t =>
              let ts := <[Z.to_nat prev := setStatus pending t]> (tokens state) in
              let state1 :=
                setPointer prev
                  (mkState ts (pointer state) (alignerPointer state)
                     (decisionBuffer state) (backtrackThreshold state)
                     (backtrackWindow state)) in
              Some (mkState (tokens state1) (pointer state1) (alignerPointer state1)
                      (removeLastDecision (decisionBuffer state1))
                      (backtrackThreshold state1) (backtrackWindow state1))
          end
        else Some state
    end.

End App.

(** ** Sample inputs *)

Module Samples.

(** A word token and a separator token as [tokenize] builds them (the
    phonetic codes play no part in aligner.js). *)
Definition word (s : string) (i : Z) : Token :=
  mkToken i (lit s) (lit s) true pending (Some ([], [])).
Definition space (i : Z) : Token :=
  mkToken i (lit " ") [] false sep None.

(** The tokens of a text made of the given words separated by single
    spaces: words at the even indices, separators at the odd ones. *)
Fixpoint tokensFrom (i : Z) (ws : list string) : list Token :=
  match ws with
  | [] => []
  | w :: ws' => space (i - 1) :: word w i :: tokensFrom (i + 2) ws'
  end.

Definition tokensOfWords (ws : list string) : list Token :=
  match ws with
  | [] => []
  | w :: ws' => word w 0 :: tokensFrom 2 ws'
  end.

(** The statuses of the word tokens, in order. *)
Definition wordStatuses (ts : list Token) : list Status :=
  List.map status (List.filter isWord ts).

(** The tokens of the text "x y". *)
Definition tokensXY : list Token := [word "x" 0; space 1; word "y" 2].

(** The tokens of the text "abcdefgh y z". *)
Definition tokensLong : list Token :=
  [word "abcdefgh" 0; space 1; word "y" 2; space 3; word "z" 4].

(** An automatic decision on token [i]. *)
Definition decision (i : Z) (s : Status) : Decision.t :=
  Decision.mk i s 0 [] [] true.

Definition fiveWrongThreeRight : list Decision.t :=
  [decision 0 incorrect; decision 2 incorrect; decision 4 skipped;
   decision 6 incorrect; decision 8 incorrect;
   decision 10 correct; decision 12 correct; decision 14 correct].

Definition fourWrong : list Decision.t :=
  [decision 0 incorrect; decision 2 incorrect; decision 4 incorrect;
   decision 6 incorrect].

(** Three skipped and five correct decisions. *)
Definition threeSkippedFiveRight : list Decision.t :=
  [decision 0 skipped; decision 2 skipped; decision 4 correct;
   decision 6 skipped; decision 8 correct; decision 10 correct;
   decision 12 correct; decision 14 correct].

(** Eight words "w" separated by spaces, marked as
    [fiveWrongThreeRight] records them, the pointer past the last
    word, the buffer holding those records. *)
Definition sixteenTokens : list Token :=
  List.map (fun i =>
      if Z.even i
      then mkToken i (lit "w") (lit "w") true
             (if i <? 10 then (if i =? 4 then skipped else incorrect) else correct)
             (Some ([], []))
      else space i)
    (List.map Z.of_nat (seq 0 16)).

Definition sixteenTokensState : App.State :=
  App.mkState sixteenTokens 15 (Some 15)
    (fold_left (fun b d => DecisionBuffer.push d b) fiveWrongThreeRight
       (DecisionBuffer.new 20))
    2 8.

(** A fresh aligner on "x y" that has heard "x y" (both words are
    committed and the pointer is 3, the length of the token array), and
    the same after it has also heard "z". *)
Definition afterXY : Aligner.Aligner :=
  Aligner.stateOf (@Aligner.advanceWithPhrase Latin1 (lit "x y") (Aligner.new tokensXY)).

Definition exhausted : Aligner.Aligner :=
  Aligner.stateOf (@Aligner.advanceWithPhrase Latin1 (lit "z") afterXY).

(** A fresh aligner on "abcdefgh y z" with the match threshold set to
    0.9, after the reader has jumped to the word "z" (token 4). *)
Definition jumpedAhead : Aligner.Aligner :=
  Aligner.stateOf (Aligner.setPointer 4
    (Aligner.stateOf (Aligner.setConfig None (Some (9 # 10)%Q) None None
       (Aligner.new tokensLong)))).

(** What a fresh aligner on the text of the words [ws] returns for a
    phrase, and the statuses it leaves on the words. *)
Definition heard (ws : list string) (phrase : string) : option (nat * list Status) :=
  match @Aligner.advanceWithPhrase Latin1 (lit phrase) (Aligner.new (tokensOfWords ws)) with
  | Aligner.Returned n a => Some (n, wordStatuses (Aligner.tokens a))
  | Aligner.Threw _ _ => None
  end.

(** The decision recorded for token [i], marked correct. *)
Definition recordAt (i : Z) : Decision.t := decision i correct.

(** U+00E0 U+002D U+0063 U+00F4 U+0074 U+00E9, the word "a-cote" with
    its accents: grave on the a, circumflex on the o, acute on the e. *)
Definition aCote : JSString := [224; 45; 99; 244; 116; 233]%N.

End Samples.

(** ** The statements of the specification, for comparison *)

Module Spec.

Definition sumQ (l : list Q) : Q := fold_right Qplus 0%Q l.

(** "[correct] contributes 0.1, [skipped] contributes 0.5, [incorrect]
    contributes 1.0". *)
Definition contribution (s : Status) : Q :=
  match s with
  | correct => 1 # 10
  | skipped => 5 # 10
  | incorrect => 1
  | _ => 0
  end.

Definition closeRun (cur : nat) : list nat :=
  match cur with O => [] | _ => [cur] end.

(** The lengths of the maximal runs of consecutive non-correct
    decisions, in order; [cur] is the length of the run that is open
    on entry. *)
Fixpoint errorRunsFrom (cur : nat) (ds : list Decision.t) : list nat :=
  match ds with
  | [] => closeRun cur
  | d :: ds' =>
      match Decision.status d with
      | correct => closeRun cur ++ errorRunsFrom 0 ds'
      | _ => errorRunsFrom (S cur) ds'
      end
  end.

Definition errorRuns (ds : list Decision.t) : list nat := errorRunsFrom 0 ds.

(** The drift cost as claimed: one penalty of [0.5 * L] for each
    maximal run of length [L >= 3]. *)
Definition claimedRunPenalty (L : nat) : Q :=
  (if (3 <=? L)%nat then (5 # 10) * Scorer.ofNat L else 0)%Q.

Definition claimedDriftCost (ds : list Decision.t) : Q :=
  sumQ (List.map (fun d => contribution (Decision.status d)) ds)
  + sumQ (List.map claimedRunPenalty (errorRuns ds)).

(** The drift cost as computed: within a run, [0.5 * k] is added at
    the [k]-th decision for every [k >= 3], so that a run of length
    [L] pays [0.5 * (3 + 4 + ... + L)]. *)
Definition runPenalty (L : nat) : Q :=
  sumQ (List.map (fun k => ((5 # 10) * Scorer.ofNat k)%Q) (seq 3 (L - 2))).

Definition driftCost (ds : list Decision.t) : Q :=
  sumQ (List.map (fun d => contribution (Decision.status d)) ds)
  + sumQ (List.map runPenalty (errorRuns ds)).

(** The terms the loop adds to the cost: the contribution of a record,
    and the penalty [0.5 * k] paid at the [k]-th decision of a run. *)
Inductive Addend : Type :=
| contributionOf (s : Status)
| penaltyAt (k : nat).

(** The terms of a window in the order of its records: each record's
    contribution, followed, at the [k]-th decision of a run of
    consecutive non-correct decisions with [k >= 3], by the penalty of
    that decision; [cur] is the length of the run that is open on
    entry. *)
Fixpoint addendsFrom (cur : nat) (ds : list Decision.t) : list Addend :=
  match ds with
  | [] => []
  | d :: ds' =>
      match Decision.status d with
      | correct => contributionOf correct :: addendsFrom 0 ds'
      | s =>
          contributionOf s
          :: (if (3 <=? S cur)%nat then [penaltyAt (S cur)] else [])
          ++ addendsFrom (S cur) ds'
      end
  end.

Definition addends (ds : list Decision.t) : list Addend := addendsFrom 0 ds.

(** A term as the real number the specification names. *)
Definition exact (a : Addend) : Q :=
  match a with
  | contributionOf s => contribution s
  | penaltyAt k => (5 # 10) * Scorer.ofNat k
  end.

(** A term as the binary64 number the code adds. *)
Definition binary64 (a : Addend) : Binary64.float :=
  match a with
  | contributionOf correct => Binary64.tenth
  | contributionOf skipped => Binary64.half
  | contributionOf incorrect => Binary64.one
  | contributionOf _ => Binary64.zero
  | penaltyAt k => Binary64.mul (Binary64.ofZ (Z.of_nat k)) Binary64.half
  end.

(** "a known filler (closed set: uh, um, er, ah, eh, mm, hmm)". *)
Definition fillerWords : list JSString :=
  [lit "uh"; lit "um"; lit "er"; lit "ah"; lit "eh"; lit "mm"; lit "hmm"].

(** "cost 0.1 if the word is a known filler, else 0.3". *)
Definition insertionCost (w : JSString) : Q :=
  if bool_decide (w ∈ fillerWords) then 1 # 10 else 3 # 10.

(** The insertion successor for a candidate token at index [textPos_]. *)
Definition insertState (state : Aligner.AlignmentState) (textPos_ : Z)
    (spokenWord : JSString) : Aligner.AlignmentState :=
  Aligner.mkState textPos_ (Aligner.spokenPos state + 1)
    (Aligner.cost state + insertionCost spokenWord)%Q
    (Aligner.path state ++ [Aligner.insertion spokenWord (insertionCost spokenWord)]).

Definition endsWithInsertion (s : Aligner.AlignmentState) : Prop :=
  exists w c, last (Aligner.path s) = Some (Aligner.insertion w c).

(** "the last min(k, count) records in chronological order", for a
    buffer of capacity [n] into which [ds] were pushed, oldest first:
    it stores the last [n] of them. *)
Definition lastN {A} (k : nat) (l : list A) : list A := drop (length l - k) l.

Definition recentRecords (n : nat) (k : nat) (ds : list Decision.t) : list Decision.t :=
  lastN k (lastN n ds).

(** What a reset of the indices from [s] up to, not including,
    [s + n] leaves at index [i] of an array that held [t] there. *)
Definition afterReset (s : Z) (n : nat) (i : nat) (t : Token) : Token :=
  if isWord t && (s <=? Z.of_nat i) && (Z.of_nat i <? s + Z.of_nat n)
  then setStatus pending t else t.

(** "the most recent [correct] record within the inspected window ...
    its token index"; "if none exists, the oldest record's token
    index", for the records [ds] of the window listed oldest first;
    [None] when the window holds no record. *)
Definition isCorrect (d : Decision.t) : bool :=
  bool_decide (Decision.status d = correct).

Definition rollbackTarget (ds : list Decision.t) : option Z :=
  match last (List.filter isCorrect ds) with
  | Some d => Some (Decision.index d)
  | None => option_map Decision.index (head ds)
  end.

(** A buffer of capacity [n] after pushing [ds], oldest first. *)
Definition pushAll (n : Z) (ds : list Decision.t) : DecisionBuffer.t :=
  fold_left (fun b d => DecisionBuffer.push d b) ds (DecisionBuffer.new n).

(** The calls a caller makes on an aligner between its construction
    and its disposal, and the state they leave (a caller that catches
    an exception goes on with the object as the throw left it). *)
Inductive Call : Type :=
| hear (phrase : JSString)
| jump (idx : Z).

Definition runCall {U : Unicode} (c : Call) (a : Aligner.Aligner) : Aligner.Aligner :=
  match c with
  | hear phrase => Aligner.stateOf (Aligner.advanceWithPhrase phrase a)
  | jump idx => Aligner.stateOf (Aligner.setPointer idx a)
  end.

Definition runCalls {U : Unicode} (cs : list Call) (a : Aligner.Aligner) : Aligner.Aligner :=
  fold_left (fun a c => runCall c a) cs a.

(** A decision as the sources push it: its status is one of the three
    outcomes. *)
Definition isOutcome (d : Decision.t) : Prop :=
  Decision.status d = correct \/ Decision.status d = incorrect
  \/ Decision.status d = skipped.

End Spec.

(** ** Invariants used in the proofs *)

Module Invariants.
Import Spec.

Section Table.
Variables a b : JSString.

(** Entry [(i, j)] of the table: the distance between the first [i]
    characters of [a] and the first [j] of [b]. *)
Definition entry (i j : nat) : nat := Scorer.editRev (rev (take i a)) (rev (take j b)).

(** The state of the inner loop after the passes [j = 1 .. k] of row
    [i + 1]: the row holds the new entries up to [k], the old ones
    beyond, and [prev] the old entry at [k]. *)
Definition innerInv (i k : nat) (st : list nat * nat) : Prop :=
  length (fst st) = S (length b)
  /\ (forall j, (j <= k)%nat -> fst st !! j = Some (entry (S i) j))
  /\ (forall j, (k < j <= length b)%nat -> fst st !! j = Some (entry i j))
  /\ snd st = entry i k.

(** Row [i] of the table. *)
Definition rowInv (i : nat) (dp : list nat) : Prop :=
  length dp = S (length b)
  /\ forall j, (j <= length b)%nat -> dp !! j = Some (entry i j).

End Table.

Section Pushes.
Variable cap : nat.

(** The state of a buffer of capacity [cap] into which [ds] were
    pushed, oldest first: while filling, the array is [ds]; once full,
    the last [cap] records sit in a circle that starts at [head]. *)
Inductive holds (ds : list Decision.t) (b : DecisionBuffer.t) : Prop :=
| filling :
    DecisionBuffer.size b = Z.of_nat cap -> (length ds < cap)%nat ->
    DecisionBuffer.count b = Z.of_nat (length ds) -> DecisionBuffer.head b = 0 ->
    DecisionBuffer.buffer b = Some <$> ds -> holds ds b
| full (h : nat) :
    DecisionBuffer.size b = Z.of_nat cap -> (cap <= length ds)%nat ->
    DecisionBuffer.count b = Z.of_nat cap -> DecisionBuffer.head b = Z.of_nat h ->
    h = (length ds mod cap)%nat ->
    length (DecisionBuffer.buffer b) = cap ->
    (forall t d, lastN cap ds !! t = Some d ->
                 DecisionBuffer.buffer b !! ((h + t) mod cap)%nat = Some (Some d)) ->
    holds ds b.

End Pushes.

(** Every hypothesis of the beam is at or ahead of [p]. *)
Definition beamFrom (p : Z) (states : list Aligner.AlignmentState) : Prop :=
  Forall (fun s => p <= Aligner.textPos s) states.

(** The aligner's invariant between rounds, and what one call may do
    to it: the pointer does not move back and the beam stays ahead. *)
Definition beamAhead (a : Aligner.Aligner) : Prop := beamFrom (Aligner.pointer a) (Aligner.beam a).

Definition forward (a a' : Aligner.Aligner) : Prop :=
  Aligner.pointer a <= Aligner.pointer a' /\ beamAhead a'.

Definition keepsForward {A} (m : Aligner.Method A) : Prop :=
  forall a, beamAhead a -> forward a (Aligner.stateOf (m a)).

End Invariants.

(** ** Operations on a buffer, in sequence *)

Module Ops.

(** A call on a [DecisionBuffer]. *)
Inductive Op : Type :=
| opPush (d : Decision.t)
| opClear.

Definition runOp (b : DecisionBuffer.t) (o : Op) : DecisionBuffer.t :=
  match o with
  | opPush d => DecisionBuffer.push d b
  | opClear => DecisionBuffer.clear b
  end.

Definition runOps (os : list Op) (b : DecisionBuffer.t) : DecisionBuffer.t :=
  fold_left runOp os b.

(** The records pushed since the last [clear], oldest first. *)
Definition sinceClear (os : list Op) : list Decision.t :=
  fold_left (fun ds o => match o with opPush d => ds ++ [d] | opClear => [] end) os [].


End Ops.

(** ** tokenize.js: finding words *)

Module Words.

(** [tokens.findIndex(t => t.isWord)], counting from [i]. *)
Fixpoint findWordFrom (ts : list Token) (i : Z) : Z :=
  match ts with
  | [] => -1
  | t :: ts' => if isWord t then i else findWordFrom ts' (i + 1)
  end.

(** [firstWordIndex(tokens)]. *)
Definition firstWordIndex (ts : list Token) : Z := findWordFrom ts 0.

(** [nextWordIndex(tokens, fromIndex)] for an integer [fromIndex]: the
    loop starts at [fromIndex + 1]; a negative start passes the test
    [i < tokens.length], and reading [.isWord] of [tokens[i]] then
    throws ([None]). *)
Definition nextWordIndex (ts : list Token) (fromIndex : Z) : option Z :=
  if fromIndex + 1 <? 0 then None
  else Some (findWordFrom (drop (Z.to_nat (fromIndex + 1)) ts) (fromIndex + 1)).

(** [resetWordStatuses(tokens)]. *)
Definition resetWordStatuses (ts : list Token) : list Token :=
  List.map (fun t => if isWord t then setStatus pending t else t) ts.

End Words.

(** ** metrics.js *)

Module Metrics.

(** The object returned by [computeMetrics]; [wpm] and [accuracy] are
    [None] where the code yields [NaN]. *)
Record t : Type := mk {
  total : nat;
  completed : nat;
  correct_ : nat;
  incorrect_ : nat;
  skipped_ : nat;
  wpm : option Q;
  accuracy : option Q;
  elapsedSec : Q
}.

Definition countStatus (st : Status) (ts : list Token) : nat :=
  length (List.filter (fun t => isWord t && bool_decide (status t = st)) ts).

(** [computeMetrics(tokens, startedAtMs)]; [now] is the value of
    [Date.now()], and [startedAtMs] is [None] for [null]. *)
Definition computeMetrics (now : Z) (ts : list Token) (startedAtMs : option Z) : t :=
  let total := length (List.filter isWord ts) in
  let correct := countStatus correct ts in
  let incorrect := countStatus incorrect ts in
  let skipped := countStatus skipped ts in
  let completed := (correct + incorrect + skipped)%nat in
  let elapsedSec :=
    match startedAtMs with
    | Some s => if s =? 0 then 0%Q else (inject_Z (now - s) / 1000)%Q
    | None => 0%Q
    end in
  let elapsedMin := (elapsedSec / 60)%Q in
  let wpm :=
    if Aligner.Qltb 0 elapsedMin then Some (Scorer.ofNat correct / elapsedMin)%Q
    else None in
  let accuracy :=
    if (0 <? completed)%nat then Some (Scorer.ofNat correct / Scorer.ofNat completed)%Q
    else None in
  mk total completed correct incorrect skipped wpm accuracy elapsedSec.

End Metrics.

(** ** app.js: manual marking and the drift banner *)

Module Manual.
Import App.

Definition withTokens (ts : list Token) (state : State) : State :=
  mkState ts (pointer state) (alignerPointer state) (decisionBuffer state)
    (backtrackThreshold state) (backtrackWindow state).

Definition withBuffer (b : DecisionBuffer.t) (state : State) : State :=
  mkState (tokens state) (pointer state) (alignerPointer state) b
    (backtrackThreshold state) (backtrackWindow state).

(** [markAndAdvance(status)]; [now] is the value of [Date.now()], and
    [None] stands for a thrown [TypeError]. *)
Definition markAndAdvance (now : Z) (st : Status) (state : State) : option State :=
  if pointer state <? 0 then Some state
  else
    let idx := pointer state in
    match at_ (tokens state) idx with
    | None => Some state
    | Some t =>
        if negb (isWord t) then Some state
        else
          let decision :=
            Decision.mk idx st now (norm t)
              (if bool_decide (st = correct) then norm t else []) false in
          let state1 := withBuffer (DecisionBuffer.push decision (decisionBuffer state)) state in
          let state2 := withTokens (<[Z.to_nat idx := setStatus st t]> (tokens state1)) state1 in
          match Words.nextWordIndex (tokens state2) idx with
          | None => None
          | Some next =>
              let state3 := if 0 <=? next then setPointer next state2
                            else setPointer (-1) state2 in
              match refreshMetrics state3 with
              | None => None
              | Some state4 => checkAutoBacktrack state4
              end
          end
    end.

(** The keys [c], [x] and [s] pressed one after the other: a call of
    [markAndAdvance] for each status of [sts]. *)
Definition markAll (now : Z) (sts : list Status) (state : State) : option State :=
  fold_left
    (fun acc st => match acc with
                   | Some state' => markAndAdvance now st state'
                   | None => None
                   end)
    sts (Some state).

End Manual.

(** ** Sample sessions *)

Module Sessions.
Import App Manual.

(** The state [loadTokensFromText] leaves for a text of [n] words "w"
    separated by single spaces, with the threshold and the window the
    page holds. *)
Definition loaded (n : nat) (thr : Q) (win : Z) : State :=
  mkState (Samples.tokensOfWords (repeat "w"%string n)) 0 (Some 0)
    (DecisionBuffer.new 20) thr win.

(** The record [markAndAdvance] pushes for the word at token [i] of
    such a text, and the records of a reader who marks the words from
    the first one on with the statuses [sts]: the [k]-th word is token
    [2 * k]. *)
Definition keyRecord (i : Z) (st : Status) : Decision.t :=
  Decision.mk i st 0 (lit "w") (if bool_decide (st = correct) then lit "w" else []) false.

Definition recordsOf (sts : list Status) : list Decision.t :=
  imap (fun k st => keyRecord (2 * Z.of_nat k) st) sts.

(** Twenty-one words read right and three read wrong; twenty-one
    words skipped; nine words read right. *)
Definition rightThenWrong : list Status := repeat correct 21 ++ repeat incorrect 3.
Definition allSkipped : list Status := repeat skipped 21.
Definition nineRight : list Status := repeat correct 9.

End Sessions.

(** ** tokenize.js: the tokenizer *)

Module Tokenizer.
Import Tokenize.

(** [[a-zA-Z]] and the class of hyphens of [preprocessHyphenatedWords]:
    hyphen-minus, en dash, em dash, minus sign. *)
Definition isAsciiLetter (c : N) : bool :=
  ((65 <=? c) && (c <=? 90) || (97 <=? c) && (c <=? 122))%N.

Definition isLineHyphen (c : N) : bool :=
  ((c =? 45) || (c =? 8211) || (c =? 8212) || (c =? 8722))%N.

(** Where the scan of [text.replace(/([a-zA-Z])[-...]\s*\n\s*([a-zA-Z])/g, '$1$2')]
    stands: nowhere in a match; just after a letter that may open one;
    or after such a letter and a hyphen, holding back the hyphen and
    the white space read since ([sawNewline]: a line feed was among
    it).  After a replacement the scan goes on behind the second
    letter, which therefore cannot open the next match. *)
Inductive JoinState : Type :=
| idle
| afterLetter
| afterHyphen (held : JSString) (sawNewline : bool).

Fixpoint joinGo (s : JSString) (st : JoinState) : JSString :=
  match s with
  | [] => match st with afterHyphen held _ => held | _ => [] end
  | c :: s' =>
      match st with
      | afterHyphen held nl =>
          if isWhiteSpace c then joinGo s' (afterHyphen (held ++ [c]) (nl || (c =? 10)%N))
          else if isAsciiLetter c && nl then c :: joinGo s' idle
          else held ++ c :: joinGo s' (if isAsciiLetter c then afterLetter else idle)
      | afterLetter =>
          if isLineHyphen c then joinGo s' (afterHyphen [c] false)
          else c :: joinGo s' (if isAsciiLetter c then afterLetter else idle)
      | idle => c :: joinGo s' (if isAsciiLetter c then afterLetter else idle)
      end
  end.

(** [preprocessHyphenatedWords(text)]. *)
Definition preprocessHyphenatedWords (text : JSString) : JSString := joinGo text idle.

Section WithUnicode.
Context {U : Unicode}.

(** [import { doubleMetaphone } from "double-metaphone"]: a package
    outside the repository.  [None] stands for a call that throws or
    does not return an array; otherwise the two codes, each [""] when
    missing. *)
Variable doubleMetaphone : JSString -> option (JSString * JSString).

(** The classes of the token pattern, on code points (the pattern has
    the [u] flag): [\p{L}], [\d], and the class between the runs of
    letters of a word, which the engine reads as
    {U+0027, U+0060} + [U+00B4, U+2013] + {U+2014, U+2212}. *)
Definition isLetterPoint (u : list N) : bool := isLetter (codePointValue u).

Definition isDigitPoint (u : list N) : bool :=
  ((48 <=? codePointValue u) && (codePointValue u <=? 57))%N.

Definition inJoinerClass (u : list N) : bool :=
  let c := codePointValue u in
  ((c =? 39) || (c =? 96) || (180 <=? c) && (c <=? 8211)
   || (c =? 8212) || (c =? 8722))%N.

(** The alternative of the pattern that a match is made by: letters
    with inner joiners, digits, or anything else. *)
Inductive Kind : Type :=
| kLetters
| kDigits
| kSep.

(** The alternative that matches at a code point: they are tried in
    this order. *)
Definition startKind (u : list N) : Kind :=
  if isLetterPoint u then kLetters
  else if isDigitPoint u then kDigits
  else kSep.

(** Whether the match under way takes the code point [u], followed by
    [rest]: a run of letters goes on with a letter, or with a joiner
    that a letter follows. *)
Definition continues (kind : Kind) (u : list N) (rest : list (list N)) : bool :=
  match kind with
  | kLetters =>
      isLetterPoint u
      || (inJoinerClass u
          && match rest with v :: _ => isLetterPoint v | [] => false end)
  | kDigits => isDigitPoint u
  | kSep => negb (isLetterPoint u || isDigitPoint u)
  end.

(** The successive matches of [re.exec]: [cur] is the text of the
    match under way. *)
Fixpoint lexGo (cps : list (list N)) (kind : Kind) (cur : JSString)
    : list (Kind * JSString) :=
  match cps with
  | [] => [(kind, cur)]
  | u :: rest =>
      if continues kind u rest then lexGo rest kind (cur ++ u)
      else (kind, cur) :: lexGo rest (startKind u) u
  end.

Definition lex (s : JSString) : list (Kind * JSString) :=
  match codePoints s with
  | [] => []
  | u :: rest => lexGo rest (startKind u) u
  end.

(** The token pushed for a match. *)
Definition tokenOf (id_ : Z) (m : Kind * JSString) : Token :=
  match fst m with
  | kSep => mkToken id_ (snd m) [] false sep None
  | _ =>
      let norm_ := normalizeWord (snd m) in
      mkToken id_ (snd m) norm_ true pending
        (Some (match doubleMetaphone norm_ with Some codes => codes | None => ([], []) end))
  end.

(** The loop of [tokenize], [id_] being the variable [id]. *)
Fixpoint pushTokens (id_ : Z) (ms : list (Kind * JSString)) : list Token :=
  match ms with
  | [] => []
  | m :: ms' => tokenOf id_ m :: pushTokens (id_ + 1) ms'
  end.

(** [tokenize(text)]. *)
Definition tokenize (text : JSString) : list Token :=
  if negb (truthy text) then []
  else pushTokens 0 (lex (preprocessHyphenatedWords text)).

End WithUnicode.

End Tokenizer.

(** ** tokenize.js: sentences *)

Module Sentences.

(** An element of the array returned by [computeSentences]. *)
Record t : Type := mk {
  id : nat;
  startIndex : Z;
  endIndex : Z;
  preview : JSString
}.

(** [/\n\s*\n/.test(text)]: two line feeds with only white space
    between them; [seenNl] tells that the white space read last holds
    a line feed. *)
Fixpoint hasBlankLine (s : JSString) (seenNl : bool) : bool :=
  match s with
  | [] => false
  | c :: s' =>
      if (c =? 10)%N then (if seenNl then true else hasBlankLine s' true)
      else if isWhiteSpace c then hasBlankLine s' seenNl
      else hasBlankLine s' false
  end.

(** [isEndSep(text)]: the text holds one of [.!?], or a blank line. *)
Definition isEndSep (text_ : JSString) : bool :=
  existsb (fun c => (c =? 46) || (c =? 33) || (c =? 63))%N text_
  || hasBlankLine text_ false.

(** [arr.join(' ')]. *)
Fixpoint join (l : list JSString) : JSString :=
  match l with
  | [] => []
  | [x] => x
  | x :: l' => x ++ [32%N] ++ join l'
  end.

(** The [preview] of a sentence. *)
Definition previewOf (tokens : list Token) (currentStart lastWordIdx : Z) : JSString :=
  let hi := Z.min (Z.of_nat (length tokens)) (lastWordIdx + 6) in
  let slice := take (Z.to_nat hi - Z.to_nat currentStart) (drop (Z.to_nat currentStart) tokens) in
  join (List.map text (take 8 (List.filter isWord slice))).

(** Where the loops of [computeSentences] stand at token [pos]:
    looking for the first word of a sentence ([firstWordFrom]), or
    inside the sentence that starts at [currentStart]; [lastWordIdx]
    is the variable of that name. *)
Inductive Scan : Type :=
| seeking (lastWordIdx : Z)
| inSentence (currentStart lastWordIdx : Z).

(** "Close sentence if we have words": what is pushed when the
    sentence from [currentStart] to [lastWordIdx] is closed, [n]
    sentences having been pushed before. *)
Definition closeSentence (tokens : list Token) (n : nat) (currentStart lastWordIdx : Z)
    : list t :=
  if (0 <=? currentStart) && (currentStart <=? lastWordIdx)
  then [mk n currentStart lastWordIdx (previewOf tokens currentStart lastWordIdx)]
  else [].

(** The loops of [computeSentences] from token [pos] on, [rest] being
    the tokens from there and [n] the number of sentences pushed: the
    sentences pushed from here on, and the values of [currentStart]
    and [lastWordIdx] when the loop is left. *)
Fixpoint scan (tokens : list Token) (rest : list Token) (pos : Z) (st : Scan) (n : nat)
    : list t * (Z * Z) :=
  match rest with
  | [] =>
      match st with
      | seeking l => ([], (-1, l))
      | inSentence s l => (closeSentence tokens n s l, (s, l))
      end
  | tok :: rest' =>
      match st with
      | seeking l =>
          if isWord tok then scan tokens rest' (pos + 1) (inSentence pos pos) n
          else scan tokens rest' (pos + 1) (seeking l) n
      | inSentence s l =>
          if negb (isWord tok) && isEndSep (text tok)
          then
            let pushed := closeSentence tokens n s l in
            let '(more, final) :=
              scan tokens rest' (pos + 1) (seeking l) (n + length pushed) in
            (pushed ++ more, final)
          else scan tokens rest' (pos + 1) (inSentence s (if isWord tok then pos else l)) n
      end
  end.

(** [computeSentences(tokens)], with the block after the loop. *)
Definition computeSentences (tokens : list Token) : list t :=
  let '(sentences, (currentStart, lastWordIdx)) := scan tokens tokens 0 (seeking (-1)) 0 in
  if (length sentences =? 0)%nat && (0 <=? currentStart) && (currentStart <=? lastWordIdx)
  then sentences ++ [mk 0 currentStart lastWordIdx (previewOf tokens currentStart lastWordIdx)]
  else sentences.

End Sentences.

(** ** aligner.js: the legacy entry point, and calls in sequence *)

Module AlignerCalls.
Import Aligner.

(** [advanceWithWord(wNorm)]. *)
Definition advanceWithWord (wNorm : JSString) : Method bool :=
  if negb (truthy wNorm) then ret false
  else if FILLERS_has wNorm then ret false
  else
    update (withSpokenBuffer [wNorm]) ;;;
    _processBeamSearch ;;;
    ret true.

(** A call of a public method of an aligner. *)
Inductive Call : Type :=
| callSetConfig (beamWidth_ threshold_ margin_ windowSize_ : option Q)
| callSetPointer (idx : Z)
| callAdvanceWithPhrase (phrase : JSString)
| callAdvanceWithWord (wNorm : JSString).

(** The state a call leaves (a caller that catches an exception goes
    on with the object as the throw left it). *)
Definition runCall {U : Unicode} (c : Call) (a : Aligner) : Aligner :=
  match c with
  | callSetConfig b t m w => stateOf (setConfig b t m w a)
  | callSetPointer idx => stateOf (setPointer idx a)
  | callAdvanceWithPhrase phrase => stateOf (advanceWithPhrase phrase a)
  | callAdvanceWithWord wNorm => stateOf (advanceWithWord wNorm a)
  end.

Definition runCalls {U : Unicode} (cs : list Call) (a : Aligner) : Aligner :=
  fold_left (fun a c => runCall c a) cs a.

(** A property of the aligner that a method keeps. *)
Definition keeps {A} (P : Aligner -> Prop) (m : Method A) : Prop :=
  forall a, P a -> P (stateOf (m a)).

End AlignerCalls.

(** ** Notions the further properties are stated with *)

Module Views.

(** A separator token. *)
Definition notWord (t : Token) : Prop := isWord t = false.

(** A word that carries a mark, and a word marked as an error. *)
Definition marked (t : Token) : bool :=
  isWord t && negb (bool_decide (status t = pending)).

Definition isError (t : Token) : bool :=
  bool_decide (status t = incorrect) || bool_decide (status t = skipped).

(** The marked words before index [p], nearest first, at most [room]
    of them. *)
Definition recentMarked (ts : list Token) (p : nat) (room : nat) : list Token :=
  take room (List.filter marked (rev (take p ts))).

(** The fields of a token that no function of the program writes. *)
Definition sameWord (t u : Token) : Prop :=
  id t = id u /\ text t = text u /\ norm t = norm u
  /\ isWord t = isWord u /\ phonetic t = phonetic u.

(** Two hypotheses in the order of [_pruneBeam]. *)
Definition byCost (s1 s2 : Aligner.AlignmentState) : Prop :=
  (Aligner.cost s1 <= Aligner.cost s2)%Q.

(** The tokens [ts] with their indices, the first one at [pos]. *)
Fixpoint indexedFrom (pos : Z) (ts : list Token) : list (Z * Token) :=
  match ts with
  | [] => []
  | t :: ts' => (pos, t) :: indexedFrom (pos + 1) ts'
  end.

(** The cost recorded in a step of a path, whether the step consumes a
    spoken word, and the token it marks. *)
Definition stepCost (s : Aligner.Step) : Q :=
  match s with
  | Aligner.match_ _ _ c => c
  | Aligner.substitution _ _ _ c => c
  | Aligner.deletion _ _ c => c
  | Aligner.insertion _ c => c
  end.

Definition consumes (s : Aligner.Step) : bool :=
  match s with Aligner.deletion _ _ _ => false | _ => true end.

Definition marks (s : Aligner.Step) : option Z :=
  match s with
  | Aligner.match_ tp _ _ => Some tp
  | Aligner.substitution tp _ _ _ => Some tp
  | Aligner.deletion tp _ _ => Some tp
  | Aligner.insertion _ _ => None
  end.

(** A hypothesis whose bookkeeping is consistent: its cost is the sum
    of the costs of its steps, each between 0 and 1, and its spoken
    position counts the steps that consume a word. *)
Definition wellFormed (s : Aligner.AlignmentState) : Prop :=
  (Aligner.cost s == Spec.sumQ (List.map stepCost (Aligner.path s)))%Q
  /\ Forall (fun st => (0 <= stepCost st <= 1)%Q) (Aligner.path s)
  /\ Aligner.spokenPos s = Z.of_nat (length (List.filter consumes (Aligner.path s))).

(** The configuration within the bounds of [setConfig]. *)
Definition configOk (a : Aligner.Aligner) : Prop :=
  (2 <= Aligner.beamWidth a <= 10)%nat
  /\ (0 <= Aligner.threshold a <= 1)%Q
  /\ (0 <= Aligner.margin a <= 1)%Q
  /\ (5 <= Aligner.windowSize a <= 20)%nat.

(** A token after the aligner may have marked it: the same word, a
    separator untouched, and a status either kept or set to one of the
    three outcomes. *)
Definition markedFrom (t t' : Token) : Prop :=
  sameWord t t'
  /\ (isWord t = false -> t' = t)
  /\ (status t' = status t \/ status t' = correct
      \/ status t' = incorrect \/ status t' = skipped).

Definition sameText (ts ts' : list Token) : Prop := Forall2 markedFrom ts ts'.

(** A hypothesis that lies at or after index [p] and whose path marks
    only tokens from [p] up to, not including, its own position. *)
Definition aheadOf (p : Z) (s : Aligner.AlignmentState) : Prop :=
  p <= Aligner.textPos s
  /\ forall step tp, step ∈ Aligner.path s -> marks step = Some tp ->
                     p <= tp < Aligner.textPos s.

(** Every hypothesis of the beam is ahead of the pointer in this sense. *)
Definition ahead (a : Aligner.Aligner) : Prop :=
  Forall (aheadOf (Aligner.pointer a)) (Aligner.beam a).

(** No hypothesis of the beam lies before the array. *)
Definition nonNegative (a : Aligner.Aligner) : Prop :=
  Forall (fun s => 0 <= Aligner.textPos s) (Aligner.beam a).

(** An aligner on the tokens [ts] whose beam is the single fresh
    hypothesis at -1. *)
Definition stuck (ts : list Token) (a : Aligner.Aligner) : Prop :=
  Aligner.beam a = [Aligner.mkState (-1) 0 0 []] /\ Aligner.tokens a = ts /\ configOk a.

(** A word token, and a separator that ends a sentence, at index [i]. *)
Definition wordAt (tokens : list Token) (i : Z) : Prop :=
  exists t, at_ tokens i = Some t /\ isWord t = true.

Definition endSepAt (tokens : list Token) (i : Z) : Prop :=
  exists t, at_ tokens i = Some t /\ isWord t = false
            /\ Sentences.isEndSep (text t) = true.

(** A sentence that starts and ends at a word and holds no separator
    that ends a sentence; two sentences with such a separator between
    them; and sentences numbered from [n]. *)
Definition sentenceOk (tokens : list Token) (x : Sentences.t) : Prop :=
  0 <= Sentences.startIndex x <= Sentences.endIndex x
  /\ Sentences.endIndex x < Z.of_nat (length tokens)
  /\ wordAt tokens (Sentences.startIndex x)
  /\ wordAt tokens (Sentences.endIndex x)
  /\ (forall j, Sentences.startIndex x <= j <= Sentences.endIndex x -> ~ endSepAt tokens j)
  /\ Sentences.preview x
     = Sentences.previewOf tokens (Sentences.startIndex x) (Sentences.endIndex x).

Definition sentenceBefore (tokens : list Token) (x y : Sentences.t) : Prop :=
  exists j, Sentences.endIndex x < j < Sentences.startIndex y /\ endSepAt tokens j.

Definition numberedFrom (n : nat) (out : list Sentences.t) : Prop :=
  forall k x, out !! k = Some x -> Sentences.id x = (n + k)%nat.

(** The sentences pushed from a point of the scan on: well formed, in
    order, numbered from [n], none starting before [b]. *)
Definition sentencesFrom (tokens : list Token) (b : Z) (n : nat)
    (out : list Sentences.t) : Prop :=
  Forall (sentenceOk tokens) out
  /\ numberedFrom n out
  /\ StronglySorted (sentenceBefore tokens) out
  /\ Forall (fun x => b <= Sentences.startIndex x) out.

(** What [preprocessHyphenatedWords] may remove: hyphens and white
    space. *)
Definition keptByJoin (c : N) : bool :=
  negb (Tokenizer.isLineHyphen c || isWhiteSpace c).

(** The units held back by the scan of [preprocessHyphenatedWords]. *)
Definition heldBack (st : Tokenizer.JoinState) : JSString :=
  match st with Tokenizer.afterHyphen held _ => held | _ => [] end.

(** A call other than [setPointer]. *)
(** The hypothesis a commit follows: a cheapest one of the beam and,
    among equally cheap ones, the first. *)
Definition cheapestFirst (best : Aligner.AlignmentState)
    (b : list Aligner.AlignmentState) : Prop :=
  exists i : nat,
    b !! i = Some best
    /\ (forall s, s ∈ b -> (Aligner.cost best <= Aligner.cost s)%Q)
    /\ (forall j s, (j < i)%nat -> b !! j = Some s -> (Aligner.cost best < Aligner.cost s)%Q).

(** The aligner at the commit check of a round: the words of the
    phrase have joined the buffer and the beam has been expanded with
    every buffered word. *)
Definition beforeCheck {U : Unicode} (phrase : JSString) (a : Aligner.Aligner)
    : Aligner.Aligner :=
  let a1 := Aligner.withSpokenBuffer (Aligner.spokenBuffer a ++ Aligner.wordsOf phrase) a in
  Aligner.stateOf (Aligner.forEach (Aligner.spokenBuffer a1) Aligner._expandBeam a1).

Definition notSetPointer (c : AlignerCalls.Call) : Prop :=
  match c with AlignerCalls.callSetPointer _ => False | _ => True end.

End Views.

(* ================================================================== *)
(** * Part II: the properties                                          *)
(* ================================================================== *)

(** ** The drift cost (app.js, [calculateAlignmentCost]) *)

Module DriftCost.
Import Spec App Samples.

Lemma sumQ_app (l1 l2 : list Q) : (sumQ (l1 ++ l2) == sumQ l1 + sumQ l2)%Q.
Proof.
  induction l1 as [|x l1 IH]; simpl.
  - ring.
  - rewrite IH. ring.
Qed.

Lemma sumQ_cons (x : Q) (l : list Q) : sumQ (x :: l) = (x + sumQ l)%Q.
Proof. reflexivity. Qed.

Lemma sumQ_nil : sumQ [] = 0%Q.
Proof. reflexivity. Qed.

Lemma runPenalty_small (L : nat) : (L < 3)%nat -> runPenalty L = 0%Q.
Proof.
  intros H. unfold runPenalty.
  replace (L - 2)%nat with 0%nat by lia. reflexivity.
Qed.

Lemma runPenalty_succ (L : nat) :
  (2 <= L)%nat ->
  (runPenalty (S L) == runPenalty L + (5 # 10) * Scorer.ofNat (S L))%Q.
Proof.
  intros H. unfold runPenalty.
  replace (S L - 2)%nat with (S (L - 2)) by lia.
  rewrite seq_S, List.map_app, sumQ_app.
  replace (3 + (L - 2))%nat with (S L) by lia.
  cbn [List.map]. rewrite sumQ_cons, sumQ_nil. ring.
Qed.

Lemma sum_closeRun (cur : nat) :
  (sumQ (List.map runPenalty (closeRun cur)) == runPenalty cur)%Q.
Proof.
  destruct cur; simpl.
  - reflexivity.
  - ring.
Qed.

Lemma costStep_correct (c : Binary64.float) (n : Z) (d : Decision.t) :
  Decision.status d = correct ->
  costStep (c, n) d = (Binary64.add c Binary64.tenth, 0).
Proof. intros E. unfold costStep. rewrite E. reflexivity. Qed.

Lemma costStep_error (c : Binary64.float) (n : Z) (d : Decision.t) :
  Decision.status d = incorrect \/ Decision.status d = skipped ->
  costStep (c, n) d =
  let c' := Binary64.add c (binary64 (contributionOf (Decision.status d))) in
  if 3 <=? n + 1
  then (Binary64.add c' (Binary64.mul (Binary64.ofZ (n + 1)) Binary64.half), n + 1)
  else (c', n + 1).
Proof. intros [E|E]; unfold costStep; rewrite E; reflexivity. Qed.

Lemma errorRunsFrom_error (cur : nat) (d : Decision.t) (ds : list Decision.t) :
  Decision.status d = incorrect \/ Decision.status d = skipped ->
  errorRunsFrom cur (d :: ds) = errorRunsFrom (S cur) ds.
Proof. intros [E|E]; simpl; rewrite E; reflexivity. Qed.

Lemma addendsFrom_correct (cur : nat) (d : Decision.t) (ds : list Decision.t) :
  Decision.status d = correct ->
  addendsFrom cur (d :: ds) = contributionOf correct :: addendsFrom 0 ds.
Proof. intros E. simpl. rewrite E. reflexivity. Qed.

Lemma addendsFrom_error (cur : nat) (d : Decision.t) (ds : list Decision.t) :
  Decision.status d = incorrect \/ Decision.status d = skipped ->
  addendsFrom cur (d :: ds) =
  contributionOf (Decision.status d)
  :: (if (3 <=? S cur)%nat then [penaltyAt (S cur)] else [])
  ++ addendsFrom (S cur) ds.
Proof. intros [E|E]; simpl; rewrite E; reflexivity. Qed.

(** The loop invariant: with a run of length [cur] open and cost [c]
    accumulated, the rest of the window adds its terms to [c] one
    after the other. *)
Lemma costLoop (ds : list Decision.t) :
  Forall isOutcome ds ->
  forall (c : Binary64.float) (cur : nat),
    fst (fold_left costStep ds (c, Z.of_nat cur))
    = fold_left Binary64.add (List.map binary64 (addendsFrom cur ds)) c.
Proof.
  induction 1 as [|d ds Hd _ IH]; intros c cur.
  - reflexivity.
  - cbn [fold_left]. destruct Hd as [E|E].
    + rewrite (costStep_correct _ _ _ E), (addendsFrom_correct _ _ _ E).
      rewrite (IH _ 0%nat). reflexivity.
    + rewrite (costStep_error _ _ _ E), (addendsFrom_error _ _ _ E). cbv zeta.
      replace (Z.of_nat cur + 1) with (Z.of_nat (S cur)) by lia.
      replace (3 <=? Z.of_nat (S cur)) with (3 <=? S cur)%nat
        by (destruct (Nat.leb_spec 3 (S cur)); symmetry;
            [apply Z.leb_le | apply Z.leb_gt]; lia).
      destruct (3 <=? S cur)%nat; rewrite IH; reflexivity.
Qed.

(** In exact arithmetic the terms of a window add up to its
    contributions and the penalties of its runs, less what the open
    run has paid already. *)
Lemma addends_exact (ds : list Decision.t) :
  Forall isOutcome ds ->
  forall cur : nat,
    (sumQ (List.map exact (addendsFrom cur ds))
     == sumQ (List.map (fun d => contribution (Decision.status d)) ds)
        + sumQ (List.map runPenalty (errorRunsFrom cur ds)) - runPenalty cur)%Q.
Proof.
  induction 1 as [|d ds Hd _ IH]; intros cur.
  - cbn [addendsFrom List.map errorRunsFrom]. rewrite sum_closeRun, sumQ_nil. ring.
  - cbn [List.map]. rewrite sumQ_cons.
    destruct Hd as [E|E].
    + rewrite (addendsFrom_correct _ _ _ E). cbn [List.map]. rewrite sumQ_cons.
      rewrite (IH 0%nat). cbn [errorRunsFrom]. rewrite E.
      rewrite List.map_app, sumQ_app, sum_closeRun.
      rewrite (runPenalty_small 0) by lia. cbn [exact contribution]. ring.
    + rewrite (addendsFrom_error _ _ _ E), (errorRunsFrom_error _ _ _ E).
      cbn [List.map]. rewrite sumQ_cons, List.map_app, sumQ_app, IH.
      destruct (Nat.leb_spec 3 (S cur)) as [H3|H3].
      * cbn [List.map exact]. rewrite sumQ_cons, sumQ_nil.
        rewrite (runPenalty_succ cur) by lia. ring.
      * cbn [List.map exact]. rewrite sumQ_nil.
        rewrite (runPenalty_small (S cur)), (runPenalty_small cur) by lia. ring.
Qed.

(** The binary64 terms against the exact ones: 0.5, 1.0 and the
    penalties of a window of at most twenty records are exact; 0.1 is
    the binary64 number nearest to one tenth, a little above it. *)
Lemma terms_exact_but_tenth :
  Binary64.value (binary64 (contributionOf skipped))
  = Some (Qred (exact (contributionOf skipped)))
  /\ Binary64.value (binary64 (contributionOf incorrect))
     = Some (Qred (exact (contributionOf incorrect)))
  /\ Binary64.value (binary64 (contributionOf correct))
     = Some (3602879701896397 # 36028797018963968)
  /\ forall k : nat, (k <= 20)%nat ->
       Binary64.value (binary64 (penaltyAt k)) = Some (Qred (exact (penaltyAt k))).
Proof.
  split; [vm_compute; reflexivity|]. split; [vm_compute; reflexivity|].
  split; [vm_compute; reflexivity|].
  intros k Hk. do 21 (destruct k as [|k]; [vm_compute; reflexivity|]). lia.
Qed.

(** C1, as the code has it.  For every window of decisions (each one
    correct, incorrect or skipped), the computed drift cost is the
    binary64 sum, added up in the order of the records, of these
    terms: the contribution of each record (0.1, 0.5, 1.0) and, at the
    k-th decision of a maximal run of consecutive non-correct
    decisions for every k >= 3, the penalty 0.5 * k (a correct
    decision resets the counter).  In exact arithmetic the terms add
    up to the sum of the contributions plus, for each maximal run of
    length L, 0.5 * (3 + 4 + ... + L). *)
Theorem calculateAlignmentCost_runs (ds : list Decision.t) :
  Forall isOutcome ds ->
  calculateAlignmentCost ds = Binary64.sum (List.map binary64 (addends ds))
  /\ (sumQ (List.map exact (addends ds)) == driftCost ds)%Q.
Proof.
  intros H. split.
  - unfold calculateAlignmentCost, Binary64.sum, addends.
    exact (costLoop ds H Binary64.zero 0%nat).
  - unfold addends, driftCost, errorRuns.
    rewrite (addends_exact ds H 0%nat).
    rewrite (runPenalty_small 0) by lia. ring.
Qed.

Lemma calculateAlignmentCost_runs_witness :
  Forall isOutcome fiveWrongThreeRight
  /\ calculateAlignmentCost fiveWrongThreeRight
     = Binary64.sum (List.map binary64 (addends fiveWrongThreeRight))
  /\ (sumQ (List.map exact (addends fiveWrongThreeRight))
      == driftCost fiveWrongThreeRight)%Q.
Proof.
  assert (H : Forall isOutcome fiveWrongThreeRight).
  { unfold fiveWrongThreeRight.
    repeat (constructor; [unfold isOutcome; simpl; tauto|]). constructor. }
  split; [exact H | apply (calculateAlignmentCost_runs _ H)].
Defined.

(** C1 as stated fails: four incorrect decisions in a row cost
    4 * 1.0 + 0.5 * 3 + 0.5 * 4 = 7.5, not 4 * 1.0 + 0.5 * 4 = 6; no
    addition rounds here. *)
Lemma calculateAlignmentCost_not_one_penalty_per_run :
  Binary64.value (calculateAlignmentCost fourWrong) = Some (15 # 2)
  /\ (claimedDriftCost fourWrong == 6)%Q
  /\ ~ (15 # 2 == claimedDriftCost fourWrong)%Q.
Proof.
  split; [vm_compute; reflexivity|]. split; [reflexivity|].
  intros H. vm_compute in H. discriminate H.
Qed.

(** The sum is rounded at every addition.  On five wrong and three
    right decisions the exact sum is 10.8 and the code returns
    10.799999999999999; on three skipped and five right decisions the
    exact sum is 2 and the code returns 2.0000000000000004, which is
    above the default threshold 2.0. *)
Example calculateAlignmentCost_rounds :
  (driftCost fiveWrongThreeRight == 54 # 5)%Q
  /\ Binary64.value (calculateAlignmentCost fiveWrongThreeRight)
     = Some (6079859496950169 # 562949953421312)
  /\ (driftCost threeSkippedFiveRight == 2)%Q
  /\ Binary64.value (calculateAlignmentCost threeSkippedFiveRight)
     = Some (4503599627370497 # 2251799813685248)
  /\ Binary64.greater (calculateAlignmentCost threeSkippedFiveRight) 2 = true.
Proof.
  split; [reflexivity|]. split; [vm_compute; reflexivity|].
  split; [reflexivity|]. split; vm_compute; reflexivity.
Qed.

End DriftCost.

(** ** The phonetic blend (phonetic variant, [_combinedSimilarity]) *)

Module Blend.
Import PhoneticAligner.

(** C8.  For every spoken word, every pair of spoken phonetic codes and
    every reference token, the combined similarity is at least the raw
    textual similarity of the pair: with phonetic matching enabled it
    is the maximum of the textual similarity and the weighted blend of
    phonetic and textual similarity, and with it disabled it is the
    textual similarity itself.  This holds for any distance function
    in the place of the imported [levenshtein]. *)
Theorem combinedSimilarity_ge_textual
    (levenshtein : JSString -> JSString -> nat) (this : Scoring)
    (spokenWord : JSString) (spokenPhonetic : JSString * JSString)
    (textToken : Token) :
  let textSim := similarity levenshtein spokenWord (norm textToken) in
  let combined := _combinedSimilarity levenshtein this spokenWord spokenPhonetic textToken in
  (textSim <= combined)%Q
  /\ combined =
     (if phoneticEnabled this
      then Qmax textSim
             (phoneticWeight this * phonSimOf levenshtein spokenPhonetic textToken
              + (1 - phoneticWeight this) * textSim)%Q
      else textSim).
Proof.
  intros textSim combined. subst combined. unfold _combinedSimilarity.
  fold textSim. destruct (phoneticEnabled this); cbn [negb].
  - split; [apply Q.le_max_l | reflexivity].
  - split; [apply Qle_refl | reflexivity].
Qed.

End Blend.

(** ** Successors of a hypothesis ([_generateTransitions]) *)

Module Transitions.
Import Spec Aligner Samples.

Lemma FILLERS_has_spec (w : JSString) :
  FILLERS_has w = bool_decide (w ∈ fillerWords).
Proof.
  unfold FILLERS_has, FILLERS, fillerWords.
  apply bool_decide_ext.
  rewrite !elem_of_union, !elem_of_singleton, !elem_of_cons, elem_of_nil. tauto.
Qed.

Lemma last_snoc_step (p : list Step) (x : Step) : last (p ++ [x]) = Some x.
Proof. apply last_snoc. Qed.

Lemma successor_not_insertion (state : AlignmentState) (tp sp : Z) (c : Q) (step : Step) :
  (forall w q, step <> insertion w q) ->
  ~ endsWithInsertion (successor state tp sp c step).
Proof.
  intros Hne (w & q & Hl). unfold successor in Hl. cbn [path] in Hl.
  rewrite last_snoc_step in Hl. injection Hl as Hl. exact (Hne _ _ Hl).
Qed.

(** C4, as the code has it.  In both versions of the aligner, for every
    hypothesis, every candidate reference token (at index [textPos_])
    and every spoken word, the last successor generated is the
    insertion successor, and it is the only one whose path ends in an
    insertion step: its cost is the hypothesis's cost plus 0.1 if the
    spoken word is one of uh, um, er, ah, eh, mm, hmm and plus 0.3
    otherwise, its spoken position is the hypothesis's plus one, and
    its text position is the index of the candidate token. *)
Theorem insertion_successor
    (this : Aligner) (levenshtein : JSString -> JSString -> nat)
    (scoring : PhoneticAligner.Scoring) (spokenPhonetic : JSString * JSString)
    (state : AlignmentState) (textPos_ : Z) (textToken : Token) (spokenWord : JSString) :
  let ins := insertState state textPos_ spokenWord in
  let plain := _generateTransitions this state textPos_ textToken spokenWord in
  let phon := PhoneticAligner._generateTransitions levenshtein scoring state
                textPos_ textToken spokenWord spokenPhonetic in
  (last plain = Some ins /\ forall s, In s plain -> endsWithInsertion s -> s = ins)
  /\ (last phon = Some ins /\ forall s, In s phon -> endsWithInsertion s -> s = ins)
  /\ textPos ins = textPos_
  /\ spokenPos ins = spokenPos state + 1
  /\ (cost ins == cost state + (if bool_decide (spokenWord ∈ fillerWords)
                                then 1 # 10 else 3 # 10))%Q.
Proof.
  intros ins plain phon.
  split; [|split; [|split; [reflexivity|split; [reflexivity|]]]].
  - subst plain ins. unfold _generateTransitions, insertState, insertionCost.
    rewrite <- FILLERS_has_spec. split.
    + rewrite last_app. reflexivity.
    + intros s Hs He. apply in_app_or in Hs. destruct Hs as [Hs|Hs].
      * destruct (_canMatch this spokenWord textToken); [|destruct Hs].
        destruct Hs as [<-|[]]. exfalso. revert He.
        apply successor_not_insertion. discriminate.
      * destruct Hs as [<-|[<-|[<-|[]]]].
        -- exfalso. revert He. apply successor_not_insertion. discriminate.
        -- exfalso. revert He. apply successor_not_insertion. discriminate.
        -- reflexivity.
  - subst phon ins. unfold PhoneticAligner._generateTransitions, insertState, insertionCost.
    rewrite <- FILLERS_has_spec. split.
    + rewrite last_app. reflexivity.
    + intros s Hs He. apply in_app_or in Hs. destruct Hs as [Hs|Hs].
      * destruct (PhoneticAligner._canMatch levenshtein scoring spokenWord
                    spokenPhonetic textToken); [|destruct Hs].
        destruct Hs as [<-|[]]. exfalso. revert He.
        apply successor_not_insertion. discriminate.
      * destruct Hs as [<-|[<-|[<-|[]]]].
        -- exfalso. revert He. apply successor_not_insertion. discriminate.
        -- exfalso. revert He. apply successor_not_insertion. discriminate.
        -- reflexivity.
  - subst ins. unfold insertState, insertionCost. cbn [cost]. reflexivity.
Qed.

(** C4 as stated fails on the text position.  On the text "x y" a
    fresh aligner holds the hypothesis at text position 0; the token
    "y" at index 2 is a candidate in its window; the insertion
    successor generated for that candidate has text position 2, not 0,
    and expanding with "um" keeps it in the beam. *)
Lemma insertion_moves_text_position :
  let this := new tokensXY in
  let state := mkState 0 0 0 [] in
  let ins := insertState state 2 (lit "um") in
  beam this = [state]
  /\ _getTextTokensInWindow this (textPos state)
     = inr [(0, word "x" 0); (2, word "y" 2)]
  /\ last (_generateTransitions this state 2 (word "y" 2) (lit "um")) = Some ins
  /\ textPos ins = 2
  /\ textPos ins <> textPos state
  /\ beam (stateOf (_expandBeam (lit "um") this)) !! 1%nat = Some ins.
Proof.
  cbv zeta. repeat split; try (vm_compute; reflexivity).
  vm_compute. discriminate.
Qed.

End Transitions.

(** ** The decision ring buffer (decisionBuffer.js, [backOne]) *)

Module Ring.
Import Spec Samples Invariants.
Import DecisionBuffer.

(** *** Where [getRecent] is right *)

Lemma rem_of_nat (x y : nat) :
  (0 < y)%nat -> Z.rem (Z.of_nat x) (Z.of_nat y) = Z.of_nat (x mod y).
Proof.
  intros H. rewrite Z.rem_mod_nonneg by lia. rewrite Nat2Z.inj_mod. reflexivity.
Qed.

Lemma mod_shift_ne (h s cap : nat) :
  (h < cap)%nat -> (1 <= s < cap)%nat -> ((h + s) mod cap)%nat <> h.
Proof.
  intros Hh Hs E.
  pose proof (Nat.div_mod_eq (h + s) cap) as H. rewrite E in H.
  destruct ((h + s) / cap)%nat; nia.
Qed.

Lemma mod_full_turn (h cap : nat) : (h < cap)%nat -> ((h + cap) mod cap)%nat = h.
Proof.
  intros H. rewrite <- (Nat.mul_1_l cap) at 1.
  rewrite Nat.Div0.mod_add. apply Nat.mod_small. lia.
Qed.

Lemma at_of_nat {A} (l : list A) (i : nat) : at_ l (Z.of_nat i) = l !! i.
Proof.
  unfold at_. replace (Z.of_nat i <? 0) with false by (symmetry; apply Z.ltb_ge; lia).
  rewrite Nat2Z.id. reflexivity.
Qed.

Lemma lastN_lookup {A} (k : nat) (l : list A) (i : nat) :
  lastN k l !! i = l !! (length l - k + i)%nat.
Proof. unfold lastN. apply lookup_drop. Qed.

Lemma lastN_length {A} (k : nat) (l : list A) :
  (k <= length l)%nat -> length (lastN k l) = k.
Proof. intros H. unfold lastN. rewrite length_drop. lia. Qed.

Lemma lastN_all {A} (k : nat) (l : list A) : (length l <= k)%nat -> lastN k l = l.
Proof. intros H. unfold lastN. replace (length l - k)%nat with 0%nat by lia. reflexivity. Qed.

Section Pushes.
Variable cap : nat.
Hypothesis cap_pos : (0 < cap)%nat.

Lemma holds_new : holds cap [] (new (Z.of_nat cap)).
Proof. apply filling; cbn; auto. Qed.

Lemma holds_push (ds : list Decision.t) (b : t) (d : Decision.t) :
  holds cap ds b -> holds cap (ds ++ [d]) (push d b).
Proof.
  intros [Hsize Hlen Hcount Hhead Hbuf | h Hsize Hlen Hcount Hhead Hh Hblen Hslots];
    unfold push; rewrite Hsize, Hcount.
  - replace (Z.of_nat (length ds) <? Z.of_nat cap) with true
      by (symmetry; apply Z.ltb_lt; lia).
    destruct (decide (S (length ds) < cap)%nat) as [Hlt|Hge].
    + apply filling; cbn [size count head buffer]; rewrite ?length_app; cbn [length];
        try lia.
      rewrite Hbuf, fmap_app. reflexivity.
    + apply (full cap _ _ 0%nat); cbn [size count head buffer]; rewrite ?length_app;
        cbn [length]; try lia.
      * replace (length ds + 1)%nat with cap by lia.
        symmetry. apply Nat.Div0.mod_same.
      * rewrite Hbuf, length_fmap. lia.
      * intros t e Ht. rewrite lastN_all in Ht by (rewrite length_app; cbn; lia).
        pose proof (lookup_lt_Some _ _ _ Ht) as Hlt. rewrite length_app in Hlt.
        cbn [length] in Hlt. cbn [Nat.add]. rewrite Nat.mod_small by lia.
        rewrite Hbuf, <- fmap_snoc. apply list_lookup_fmap_Some_2, Ht.
  - replace (Z.of_nat cap <? Z.of_nat cap) with false
      by (symmetry; apply Z.ltb_ge; lia).
    assert (Hhlt : (h < cap)%nat) by (subst h; apply Nat.mod_upper_bound; lia).
    assert (Hset : arraySet (buffer b) (head b) d = <[h := Some d]> (buffer b)).
    { unfold arraySet. rewrite Hhead, Hblen.
      replace (Z.of_nat h <? 0) with false by (symmetry; apply Z.ltb_ge; lia).
      replace (Z.of_nat h <? Z.of_nat cap) with true by (symmetry; apply Z.ltb_lt; lia).
      rewrite Nat2Z.id. reflexivity. }
    rewrite Hset, Hhead.
    replace (Z.of_nat h + 1) with (Z.of_nat (h + 1)) by lia. rewrite rem_of_nat by lia.
    apply (full cap _ _ ((h + 1) mod cap)%nat); cbn [size count head buffer];
      rewrite ?length_app; cbn [length]; try lia.
    + subst h. rewrite Nat.Div0.add_mod_idemp_l. reflexivity.
    + rewrite length_insert. exact Hblen.
    + intros t e Ht. rewrite lastN_lookup, length_app in Ht. cbn [length] in Ht.
      rewrite Nat.Div0.add_mod_idemp_l.
      pose proof (lookup_lt_Some _ _ _ Ht) as Hlt. rewrite length_app in Hlt.
      cbn [length] in Hlt.
      destruct (decide (t = cap - 1)%nat) as [->|Hne].
      * rewrite lookup_app_r in Ht by lia.
        replace (length ds + 1 - cap + (cap - 1) - length ds)%nat with 0%nat in Ht by lia.
        injection Ht as <-.
        replace (h + 1 + (cap - 1))%nat with (h + cap)%nat by lia.
        rewrite mod_full_turn by lia. apply list_lookup_insert_eq. lia.
      * rewrite lookup_app_l in Ht by lia.
        replace (h + 1 + t)%nat with (h + (t + 1))%nat by lia.
        rewrite list_lookup_insert_ne by (apply not_eq_sym, mod_shift_ne; lia).
        apply Hslots. rewrite lastN_lookup. rewrite <- Ht. f_equal. lia.
Qed.

Lemma holds_pushAll (ds : list Decision.t) : holds cap ds (pushAll (Z.of_nat cap) ds).
Proof.
  induction ds as [|d ds IH] using rev_ind; [apply holds_new|].
  unfold pushAll in *. rewrite fold_left_app. cbn [fold_left].
  apply holds_push, IH.
Qed.

(** The loop of [getRecent] when every slot it reads holds cap the record
    expected there. *)
Lemma getRecent_loop (read : Z -> option (option Decision.t)) (out : list Decision.t) :
  (forall i d, out !! i = Some d -> read (Z.of_nat i) = Some (Some d)) ->
  fold_left
    (fun result i =>
       match read i with
       | Some (Some d) => result ++ [Some d]
       | _ => result
       end)
    (List.map Z.of_nat (seq 0 (length out))) []
  = Some <$> out.
Proof.
  induction out as [|d out IH] using rev_ind; intros Hread; [reflexivity|].
  rewrite length_app. cbn [length]. rewrite Nat.add_1_r, seq_S, List.map_app, fold_left_app.
  cbn [List.map fold_left Nat.add].
  rewrite IH by (intros i e Hi; apply Hread, lookup_app_l_Some, Hi).
  rewrite (Hread (length out) d) by (apply list_lookup_middle; reflexivity).
  rewrite fmap_snoc. reflexivity.
Qed.

(** Where the code agrees with C2: on a buffer that has been filled
    (at least [cap] records pushed), [getRecent(k)] for [k] below the
    capacity returns the last [k] records, oldest first; and on a
    buffer that has not wrapped, [getRecent(k)] for [k] at least the
    number of records returns them all in order. *)
Lemma getRecent_right_cases (ds : list Decision.t) (k : nat) :
  ((cap <= length ds)%nat -> (k < cap)%nat ->
   getRecent (Z.of_nat k) (pushAll (Z.of_nat cap) ds) = Some <$> recentRecords cap k ds)
  /\ ((length ds <= cap)%nat -> (length ds <= k)%nat ->
      getRecent (Z.of_nat k) (pushAll (Z.of_nat cap) ds) = Some <$> recentRecords cap k ds).
Proof.
  pose proof (holds_pushAll ds) as H. set (b := pushAll (Z.of_nat cap) ds) in *.
  split.
  - intros Hfull Hk.
    destruct H as [_ Hlen _ _ _ | h Hsize _ Hcount Hhead Hh Hblen Hslots]; [lia|].
    assert (Hhlt : (h < cap)%nat) by (subst h; apply Nat.mod_upper_bound; lia).
    unfold getRecent. rewrite Hcount, Hsize, Hhead.
    replace (Z.of_nat cap <=? Z.of_nat k) with false by (symmetry; apply Z.leb_gt; lia).
    rewrite Nat2Z.id.
    assert (Hlk : length (recentRecords cap k ds) = k).
    { unfold recentRecords. rewrite lastN_length; [reflexivity|].
      rewrite lastN_length by lia. lia. }
    pose proof (getRecent_loop
             (fun i => at_ (buffer b)
                         (Z.rem (Z.of_nat h - Z.of_nat k + i + Z.of_nat cap) (Z.of_nat cap)))
             (recentRecords cap k ds)) as Hloop.
    rewrite Hlk in Hloop. apply Hloop. clear Hloop.
    intros i d Hi. pose proof (lookup_lt_Some _ _ _ Hi) as Hlt. rewrite Hlk in Hlt.
    replace (Z.of_nat h - Z.of_nat k + Z.of_nat i + Z.of_nat cap)
      with (Z.of_nat (h + (cap - k + i))) by lia.
    rewrite rem_of_nat by lia. rewrite at_of_nat. apply Hslots.
    unfold recentRecords in Hi. rewrite lastN_lookup in Hi.
    rewrite lastN_length in Hi by lia. exact Hi.
  - intros Hfit Hk. unfold recentRecords. rewrite (lastN_all cap) by lia.
    rewrite lastN_all by lia.
    destruct H as [_ Hlen Hcount _ Hbuf | h _ Hlen Hcount _ Hh Hblen Hslots];
      unfold getRecent; rewrite Hcount.
    + replace (Z.of_nat (length ds) <=? Z.of_nat k) with true
        by (symmetry; apply Z.leb_le; lia).
      exact Hbuf.
    + replace (Z.of_nat cap <=? Z.of_nat k) with true by (symmetry; apply Z.leb_le; lia).
      assert (En : length ds = cap) by lia.
      assert (Eh : h = 0%nat) by (subst h; rewrite En; apply Nat.Div0.mod_same).
      subst h. rewrite Eh in Hslots. clear Eh.
      apply list_eq. intros i. rewrite list_lookup_fmap.
      destruct (ds !! i) as [d|] eqn:Ei.
      * pose proof (lookup_lt_Some _ _ _ Ei) as Hlt.
        rewrite <- (Nat.mod_small i cap) at 1 by lia.
        apply (Hslots i d). rewrite lastN_all by lia. exact Ei.
      * apply lookup_ge_None. apply lookup_ge_None in Ei. lia.
Qed.

End Pushes.

(** [clear()] gives back the state of a new buffer of the same
    capacity. *)
Lemma clear_new (b : t) : clear b = new (size b).
Proof. reflexivity. Qed.

(** C2, where the code departs from it.
    - Capacity 4, three records pushed, none overwritten:
      [getRecent(2)] returns the third record alone, not the second
      and third; the slots read are 2 and 3, as if the buffer were
      full.
    - Capacity 20 as in app.js, nine records pushed: [getRecent(8)]
      returns nothing at all.
    - Capacity 4, five records pushed (wrapped): [getRecent(4)]
      returns the slots in storage order, the newest record first. *)
Theorem getRecent_on_samples :
  getRecent 2 (pushAll 4 [recordAt 0; recordAt 1; recordAt 2]) = [Some (recordAt 2)]
  /\ recentRecords 4 2 [recordAt 0; recordAt 1; recordAt 2] = [recordAt 1; recordAt 2]
  /\ getRecent 8 (pushAll 20 (List.map (fun i => recordAt (Z.of_nat i)) (seq 0 9))) = []
  /\ getRecent 4 (pushAll 4 [recordAt 0; recordAt 1; recordAt 2; recordAt 3; recordAt 4])
     = [Some (recordAt 4); Some (recordAt 1); Some (recordAt 2); Some (recordAt 3)]
  /\ recentRecords 4 4 [recordAt 0; recordAt 1; recordAt 2; recordAt 3; recordAt 4]
     = [recordAt 1; recordAt 2; recordAt 3; recordAt 4].
Proof. repeat split; vm_compute; reflexivity. Qed.

(** What the undo of [backOne] does after a push, in general: the
    array keeps what the push wrote; below capacity the count comes
    back, at capacity it ends one short. *)
Lemma undo_after_push (d : Decision.t) (b : t) :
  0 <= count b ->
  buffer (App.removeLastDecision (push d b)) = buffer (push d b)
  /\ (count b < size b ->
      buffer (push d b) = buffer b ++ [Some d]
      /\ count (App.removeLastDecision (push d b)) = count b)
  /\ (0 < count b -> count b = size b ->
      count (App.removeLastDecision (push d b)) = count b - 1).
Proof.
  intros H0. split; [|split].
  - unfold App.removeLastDecision.
    destruct (0 <? count (push d b)); [|reflexivity].
    destruct (count (push d b) - 1 =? 0); reflexivity.
  - intros Hlt. unfold push.
    replace (count b <? size b) with true by (symmetry; apply Z.ltb_lt; lia).
    split; [reflexivity|]. unfold App.removeLastDecision. cbn [count].
    replace (0 <? count b + 1) with true by (symmetry; apply Z.ltb_lt; lia).
    destruct (count b + 1 - 1 =? 0); cbn [count]; lia.
  - intros Hpos Hfull. unfold push.
    replace (count b <? size b) with false by (symmetry; apply Z.ltb_ge; lia).
    unfold App.removeLastDecision. cbn [count].
    replace (0 <? count b) with true by (symmetry; apply Z.ltb_lt; lia).
    destruct (count b - 1 =? 0); reflexivity.
Qed.

(** C3, where the code departs from it.  The undo of [backOne] leaves
    the array untouched and always moves both [count] and [head].
    - Capacity 4, empty: after a push and the undo, [count] is 0 again
      but [getRecent(1)] still returns the pushed record.
    - Capacity 4, full: after a push and the undo, [count] is 3, and
      [getRecent(4)] returns the pushed record in the slot of the
      record it overwrote.
    - [backOne] itself performs exactly this undo on the buffer. *)
Theorem push_then_undo_on_samples :
  let empty := new 4 in
  let full := pushAll 4 [recordAt 0; recordAt 1; recordAt 2; recordAt 3] in
  count (App.removeLastDecision (push (recordAt 0) empty)) = count empty
  /\ getRecent 1 empty = []
  /\ getRecent 1 (App.removeLastDecision (push (recordAt 0) empty)) = [Some (recordAt 0)]
  /\ count full = 4
  /\ count (App.removeLastDecision (push (recordAt 4) full)) = 3
  /\ getRecent 4 full = [Some (recordAt 0); Some (recordAt 1); Some (recordAt 2); Some (recordAt 3)]
  /\ getRecent 4 (App.removeLastDecision (push (recordAt 4) full))
     = [Some (recordAt 4); Some (recordAt 1); Some (recordAt 2); Some (recordAt 3)]
  /\ option_map App.decisionBuffer
       (App.backOne (App.mkState tokensXY 2 (Some 2) (push (recordAt 0) empty) 2 8))
     = Some (App.removeLastDecision (push (recordAt 0) empty)).
Proof. cbv zeta. repeat split; vm_compute; reflexivity. Qed.

End Ring.

(** ** Word normalization (tokenize.js, [normalizeWord]) *)

Module Normalize.
Import Tokenize Samples.

(** C10, where the code departs from it.  The class of the second
    replacement contains the range U+00B4..U+2013 and so removes
    accented letters: the word "a-cote" written with its accents loses
    its first letter and keeps the hyphen-minus in front, which a
    second application then strips.  The documented example
    "co-operate" keeps its hyphen-minus. *)
Theorem normalizeWord_on_samples :
  @normalizeWord Latin1 aCote = lit "-ct"
  /\ @normalizeWord Latin1 (@normalizeWord Latin1 aCote) = lit "ct"
  /\ @normalizeWord Latin1 (@normalizeWord Latin1 aCote) <> @normalizeWord Latin1 aCote
  /\ @normalizeWord Latin1 (lit "co-operate") = lit "co-operate".
Proof.
  repeat split; try (vm_compute; reflexivity).
  vm_compute. discriminate.
Qed.

End Normalize.

(** ** The rollback (app.js, [performAutoBacktrack]) *)

Module Rollback.
Import Spec Samples.
Import App Manual Sessions.

Lemma at_Some {A} (l : list A) (i : Z) (x : A) :
  at_ l i = Some x <-> 0 <= i /\ l !! Z.to_nat i = Some x.
Proof.
  unfold at_. destruct (i <? 0) eqn:E.
  - apply Z.ltb_lt in E. split; [discriminate | lia].
  - apply Z.ltb_ge in E. tauto.
Qed.

Lemma at_in_range {A} (l : list A) (i : Z) :
  0 <= i < Z.of_nat (length l) -> exists x, at_ l i = Some x.
Proof.
  intros H. destruct (lookup_lt_is_Some_2 l (Z.to_nat i)) as [x Hx]; [lia|].
  exists x. apply at_Some. split; [lia | exact Hx].
Qed.

Lemma resetLoop (n : nat) :
  forall (s : Z) (ts : list Token),
    0 <= s -> s + Z.of_nat n <= Z.of_nat (length ts) ->
    exists ts',
      fold_left resetBody
        (List.map (fun k => s + Z.of_nat k) (seq 0 n)) (Some ts) = Some ts'
      /\ length ts' = length ts
      /\ forall i, ts' !! i = afterReset s n i <$> ts !! i.
Proof.
  induction n as [|n IH]; intros s ts Hs Hn.
  - exists ts. split; [reflexivity|]. split; [reflexivity|].
    intros i. unfold afterReset.
    destruct (ts !! i) as [t|]; [|reflexivity]. cbn [fmap option_fmap option_map].
    destruct (isWord t && (s <=? Z.of_nat i) && (Z.of_nat i <? s + Z.of_nat 0)) eqn:E;
      [|reflexivity].
    apply andb_true_iff in E. destruct E as [E1 E2].
    apply andb_true_iff in E1. destruct E1 as [_ E1].
    apply Z.leb_le in E1. apply Z.ltb_lt in E2. lia.
  - cbn [seq List.map fold_left]. rewrite <- seq_shift, List.map_map.
    destruct (at_in_range ts s) as [t Ht]; [lia|].
    replace (s + Z.of_nat 0) with s by lia.
    cbn [resetBody]. rewrite Ht.
    pose proof (proj1 (at_Some _ _ _) Ht) as [_ Hl].
    set (ts1 := if isWord t then <[Z.to_nat s := setStatus pending t]> ts else ts).
    assert (Hlen1 : length ts1 = length ts).
    { subst ts1. destruct (isWord t); [apply length_insert | reflexivity]. }
    destruct (IH (s + 1) ts1) as (ts' & Hf & Hlen & Hget); [lia | lia |].
    exists ts'. split.
    + rewrite <- Hf. subst ts1.
      replace (List.map (fun x => s + Z.of_nat (S x)) (seq 0 n))
        with (List.map (fun k => s + 1 + Z.of_nat k) (seq 0 n)).
      * destruct (isWord t); reflexivity.
      * apply List.map_ext. intros k. lia.
    + split; [lia|]. intros i. rewrite Hget. subst ts1.
      destruct (decide (i = Z.to_nat s)) as [->|Hne].
      * rewrite Hl. cbn [fmap option_fmap option_map].
        destruct (isWord t) eqn:Ew.
        -- rewrite list_lookup_insert_eq by (apply lookup_lt_Some in Hl; exact Hl).
           cbn [fmap option_fmap option_map]. f_equal.
           unfold afterReset. cbn [setStatus isWord]. rewrite Ew.
           rewrite Z2Nat.id by lia.
           replace (s + 1 <=? s) with false by (symmetry; apply Z.leb_gt; lia).
           replace (s <=? s) with true by (symmetry; apply Z.leb_le; lia).
           replace (s <? s + Z.of_nat (S n)) with true by (symmetry; apply Z.ltb_lt; lia).
           reflexivity.
        -- rewrite Hl. cbn [fmap option_fmap option_map]. f_equal.
           unfold afterReset. rewrite Ew. reflexivity.
      * assert (Hsame : (if isWord t then <[Z.to_nat s := setStatus pending t]> ts else ts) !! i
                        = ts !! i).
        { destruct (isWord t); [apply list_lookup_insert_ne; congruence | reflexivity]. }
        rewrite Hsame. destruct (ts !! i) as [u|]; [|reflexivity].
        cbn [fmap option_fmap option_map]. f_equal. unfold afterReset.
        replace (s + 1 + Z.of_nat n) with (s + Z.of_nat (S n)) by lia.
        destruct (Z.of_nat i <? s + Z.of_nat (S n)) eqn:E2; [|rewrite !andb_false_r; reflexivity].
        rewrite !andb_true_r.
        assert (Z.of_nat i <> s) by lia.
        replace (s + 1 <=? Z.of_nat i) with (s <=? Z.of_nat i); [reflexivity|].
        destruct (s <=? Z.of_nat i) eqn:E1.
        -- apply Z.leb_le in E1. symmetry. apply Z.leb_le. lia.
        -- apply Z.leb_gt in E1. symmetry. apply Z.leb_gt. lia.
Qed.

Lemma find_last (ds : list Decision.t) :
  List.find isCorrect (rev ds) = last (List.filter isCorrect ds).
Proof.
  induction ds as [|x l IH] using rev_ind; [reflexivity|].
  rewrite rev_app_distr, List.filter_app. cbn [rev List.app List.find List.filter].
  destruct (isCorrect x).
  - rewrite last_snoc. reflexivity.
  - rewrite app_nil_r. exact IH.
Qed.

Lemma rev_objects (ds : list Decision.t) : rev (Some <$> ds) = Some <$> rev ds.
Proof.
  induction ds as [|d ds IH]; [reflexivity|].
  cbn [rev fmap list_fmap]. rewrite fmap_app. cbn [fmap list_fmap].
  f_equal. exact IH.
Qed.

Lemma lastCorrectLoop_objects (ds : list Decision.t) :
  lastCorrectLoop (Some <$> ds)
  = Some match List.find isCorrect ds with
         | Some d => Decision.index d
         | None => -1
         end.
Proof.
  induction ds as [|d ds IH]; [reflexivity|].
  cbn [fmap list_fmap lastCorrectLoop List.find].
  change (bool_decide (Decision.status d = correct)) with (isCorrect d).
  destruct (isCorrect d); [reflexivity | exact IH].
Qed.

Lemma filter_isCorrect_index (ds : list Decision.t) (d : Decision.t) :
  Forall (fun d => 0 <= Decision.index d) ds ->
  last (List.filter isCorrect ds) = Some d -> 0 <= Decision.index d.
Proof.
  intros Hidx Hl. apply last_Some in Hl as [l' Hl].
  assert (Hin : In d (List.filter isCorrect ds)) by (rewrite Hl; apply in_elt).
  apply List.filter_In in Hin as [Hin _].
  rewrite List.Forall_forall in Hidx. auto.
Qed.

Lemma getRecent_clear (k : Z) (b : DecisionBuffer.t) :
  DecisionBuffer.getRecent k (DecisionBuffer.clear b) = [].
Proof.
  unfold DecisionBuffer.getRecent, DecisionBuffer.clear.
  cbn [DecisionBuffer.count DecisionBuffer.buffer].
  destruct (0 <=? k) eqn:E; [reflexivity|].
  apply Z.leb_gt in E. replace (Z.to_nat k) with 0%nat by lia. reflexivity.
Qed.

(** The loop of [checkDrift] completes when it starts inside the
    array, and throws at its first read when it starts past the end. *)
Lemma driftLoop_inside (ts : list Token) (n : nat) :
  (n <= length ts)%nat ->
  forall count errors, is_Some (driftLoop ts n count errors).
Proof.
  induction n as [|i IH]; intros Hn count errors; cbn [driftLoop].
  - eexists. reflexivity.
  - destruct (count <? 8)%nat; [|eexists; reflexivity].
    destruct (lookup_lt_is_Some_2 ts i) as [t ->]; [lia|].
    destruct (negb (isWord t)); apply IH; lia.
Qed.

Lemma driftLoop_outside (ts : list Token) (n : nat) :
  (length ts < n)%nat -> driftLoop ts n 0 0 = None.
Proof.
  intros Hn. destruct n as [|i]; [lia|]. cbn [driftLoop Nat.ltb Nat.leb].
  rewrite (proj2 (lookup_ge_None ts i)) by lia. reflexivity.
Qed.

Lemma refreshMetrics_cases (state : State) :
  0 <= pointer state ->
  refreshMetrics state
  = if pointer state <=? Z.of_nat (length (tokens state)) then Some state else None.
Proof.
  intros Hp. unfold refreshMetrics, checkDrift.
  replace (pointer state <? 0) with false by (symmetry; apply Z.ltb_ge; exact Hp).
  destruct (pointer state <=? Z.of_nat (length (tokens state))) eqn:E.
  - apply Z.leb_le in E.
    destruct (driftLoop_inside (tokens state) (Z.to_nat (pointer state))) with (count := 0%nat)
      (errors := 0%nat) as [[c e] ->]; [lia | reflexivity].
  - apply Z.leb_gt in E. rewrite driftLoop_outside by lia. reflexivity.
Qed.

(** What [performAutoBacktrack] does with the array it is given, on
    any state, when the array has no hole and its records carry token
    indices >= 0 (as the arrays that [getRecent] returns for a buffer
    filled by [push] do).  It reads the array as a window listed
    oldest first.  On an empty array it throws at
    [decisions[0].index].  Otherwise its target is the index of the
    last correct record of the array, or of the first record when none
    is correct; every word token at an index from max(0, target - 2)
    through the committed pointer is made pending and every other
    token is left as it is, the committed pointer (and with it the
    aligner's) becomes the target and the decision buffer is emptied;
    then [refreshMetrics] runs [checkDrift], which throws when the
    target is past the end of the token array. *)
Theorem performAutoBacktrack_on_window (decisions : list Decision.t) (state : State) :
  Forall (fun d => 0 <= Decision.index d) decisions ->
  match rollbackTarget decisions with
  | None => decisions = [] /\ performAutoBacktrack (Some <$> decisions) state = None
  | Some rb =>
      if rb <=? Z.of_nat (length (tokens state)) then
        exists state',
          performAutoBacktrack (Some <$> decisions) state = Some state'
          /\ pointer state' = rb
          /\ alignerPointer state' = option_map (fun _ => rb) (alignerPointer state)
          /\ decisionBuffer state' = DecisionBuffer.clear (decisionBuffer state)
          /\ (forall k, DecisionBuffer.getRecent k (decisionBuffer state') = [])
          /\ length (tokens state') = length (tokens state)
          /\ forall (i : nat) (t : Token),
               tokens state !! i = Some t ->
               tokens state' !! i
               = Some (if isWord t && (Z.max 0 (rb - 2) <=? Z.of_nat i)
                            && (Z.of_nat i <=? pointer state)
                       then setStatus pending t else t)
      else performAutoBacktrack (Some <$> decisions) state = None
  end.
Proof.
  intros Hidx. unfold performAutoBacktrack.
  assert (Htarget :
    match lastCorrectLoop (rev (Some <$> decisions)) with
    | None => None
    | Some rollbackIndex =>
        if rollbackIndex =? -1
        then match (Some <$> decisions) !! 0%nat with
             | Some (Some d) => Some (Decision.index d)
             | _ => None
             end
        else Some rollbackIndex
    end = rollbackTarget decisions
    /\ forall rb, rollbackTarget decisions = Some rb -> 0 <= rb).
  { rewrite rev_objects, lastCorrectLoop_objects. unfold rollbackTarget.
    rewrite find_last.
    destruct (last (List.filter isCorrect decisions)) as [d|] eqn:El.
    - pose proof (filter_isCorrect_index _ _ Hidx El).
      replace (Decision.index d =? -1) with false by (symmetry; apply Z.eqb_neq; lia).
      split; [reflexivity|]. intros rb [= <-]. assumption.
    - cbn [Z.eqb]. destruct decisions as [|d0 rest]; [split; [reflexivity | discriminate]|].
      split; [reflexivity|]. intros rb [= <-]. apply (List.Forall_inv Hidx). }
  destruct Htarget as [-> Hpos].
  destruct (rollbackTarget decisions) as [rb|] eqn:Erb.
  2:{ split; [|reflexivity]. unfold rollbackTarget in Erb.
      destruct (last (List.filter isCorrect decisions)); [discriminate|].
      destruct decisions; [reflexivity | discriminate]. }
  specialize (Hpos rb eq_refl).
  set (s := Z.max 0 (rb - 2)).
  set (e := Z.min (Z.of_nat (length (tokens state)) - 1) (pointer state)).
  assert (Hreset : exists ts',
    resetRange (tokens state) s e = Some ts'
    /\ length ts' = length (tokens state)
    /\ forall i, ts' !! i = afterReset s (Z.to_nat (e - s + 1)) i <$> tokens state !! i).
  { unfold resetRange. destruct (Z.to_nat (e - s + 1)) as [|n] eqn:En.
    - exists (tokens state). split; [reflexivity|]. split; [reflexivity|].
      intros i. destruct (tokens state !! i) as [t|]; [|reflexivity].
      cbn [fmap option_fmap option_map]. f_equal. unfold afterReset.
      destruct (s <=? Z.of_nat i) eqn:E1; [|rewrite andb_false_r; reflexivity].
      apply Z.leb_le in E1.
      replace (Z.of_nat i <? s + Z.of_nat 0) with false; [rewrite andb_false_r; reflexivity|].
      symmetry. apply Z.ltb_ge. lia.
    - apply resetLoop; subst s e; lia. }
  destruct Hreset as (ts' & -> & Hlen & Hget).
  rewrite refreshMetrics_cases by exact Hpos.
  cbn [setPointer pointer alignerPointer decisionBuffer tokens]. rewrite Hlen.
  destruct (rb <=? Z.of_nat (length (tokens state))); [|reflexivity].
  eexists. split; [reflexivity|].
  cbn [setPointer pointer alignerPointer decisionBuffer tokens].
  split; [reflexivity|].
  split; [destruct (alignerPointer state); reflexivity|].
  split; [reflexivity|].
  split; [intros k; apply getRecent_clear|]. split; [exact Hlen|].
  intros i t Ht. rewrite Hget, Ht. cbn [fmap option_fmap option_map]. f_equal.
  unfold afterReset. apply lookup_lt_Some in Ht. change (Z.max 0 (rb - 2)) with s.
  destruct (isWord t); [|reflexivity]. cbn [andb].
  destruct (s <=? Z.of_nat i) eqn:E1; [|reflexivity]. cbn [andb].
  apply Z.leb_le in E1.
  destruct (Z.of_nat i <=? pointer state) eqn:E2.
  - apply Z.leb_le in E2.
    replace (Z.of_nat i <? s + Z.of_nat (Z.to_nat (e - s + 1))) with true; [reflexivity|].
    symmetry. apply Z.ltb_lt. subst e. lia.
  - apply Z.leb_gt in E2.
    replace (Z.of_nat i <? s + Z.of_nat (Z.to_nat (e - s + 1))) with false; [reflexivity|].
    symmetry. apply Z.ltb_ge. subst e. lia.
Qed.

(** The scenario of the specification: five incorrect or skipped
    decisions followed by three correct ones, on a text of sixteen
    tokens with the pointer past the last word. *)
Lemma performAutoBacktrack_on_window_witness :
  Forall (fun d => 0 <= Decision.index d) fiveWrongThreeRight
  /\ exists state',
       performAutoBacktrack (Some <$> fiveWrongThreeRight) sixteenTokensState = Some state'
       /\ pointer state' = 14
       /\ alignerPointer state' = option_map (fun _ => 14) (alignerPointer sixteenTokensState)
       /\ decisionBuffer state' = DecisionBuffer.clear (decisionBuffer sixteenTokensState)
       /\ (forall k, DecisionBuffer.getRecent k (decisionBuffer state') = [])
       /\ length (tokens state') = length (tokens sixteenTokensState)
       /\ forall (i : nat) (t : Token),
            tokens sixteenTokensState !! i = Some t ->
            tokens state' !! i
            = Some (if isWord t && (Z.max 0 (14 - 2) <=? Z.of_nat i)
                         && (Z.of_nat i <=? pointer sixteenTokensState)
                    then setStatus pending t else t).
Proof.
  assert (H : Forall (fun d => 0 <= Decision.index d) fiveWrongThreeRight).
  { unfold fiveWrongThreeRight. repeat (constructor; [simpl; lia|]). constructor. }
  split; [exact H|].
  exact (performAutoBacktrack_on_window fiveWrongThreeRight sixteenTokensState H).
Defined.

(** C6, where the code departs from it.  [performAutoBacktrack] takes
    the last correct record of the array it is given as the most
    recent one, and the first record as the oldest; [getRecent]
    returns the array of the buffer as it is stored when asked for
    [count] records or more, and nothing when asked for fewer records
    than an unfilled buffer holds.
    - On a buffer that has not wrapped, the rollback goes where the
      specification says: five wrong and three right decisions on
      tokens 0, 2, ..., 14 roll the pointer back to 14.
    - Window 20, threshold 5: a reader marks 21 words right and 3
      wrong.  The buffer has wrapped, the array passed starts with the
      four newest records, and the rollback goes to token 38, the
      20th word, although the 21st word (token 40) is the most recent
      one marked right.
    - Window 20, threshold 200: a reader skips 21 words and presses
      [b].  No record is correct; the rollback goes to token 40, the
      newest record, and not to token 2, the oldest record of the
      window: the pointer moves from 42 to 40.
    - Window 8 and threshold 2.0 as in app.js: a reader marks nine
      words right and presses [b].  The array passed is empty and the
      rollback throws at [decisions[0].index]. *)
Theorem performAutoBacktrack_on_samples :
  (option_map pointer (checkAutoBacktrack sixteenTokensState) = Some 14
   /\ rollbackTarget
        (recentRecords 20 8 fiveWrongThreeRight) = Some 14)
  /\ (option_map decisionBuffer (markAll 0 (take 23 rightThenWrong) (loaded 26 5 20))
      = Some (pushAll 20 (recordsOf (take 23 rightThenWrong)))
      /\ DecisionBuffer.getRecent 20 (pushAll 20 (recordsOf rightThenWrong))
         = Some <$> (drop 20 (recordsOf rightThenWrong)
                     ++ take 16 (drop 4 (recordsOf rightThenWrong)))
      /\ option_map pointer (markAll 0 rightThenWrong (loaded 26 5 20)) = Some 38
      /\ rollbackTarget (recentRecords 20 20 (recordsOf rightThenWrong)) = Some 40)
  /\ (exists state,
        markAll 0 allSkipped (loaded 26 200 20) = Some state
        /\ decisionBuffer state = pushAll 20 (recordsOf allSkipped)
        /\ pointer state = 42
        /\ option_map pointer (triggerManualBacktrack state) = Some 40
        /\ rollbackTarget (recentRecords 20 20 (recordsOf allSkipped)) = Some 2)
  /\ (exists state,
        markAll 0 nineRight (loaded 26 2 8) = Some state
        /\ decisionBuffer state = pushAll 20 (recordsOf nineRight)
        /\ DecisionBuffer.getRecent 8 (decisionBuffer state) = []
        /\ triggerManualBacktrack state = None).
Proof.
  split; [split; vm_compute; reflexivity|].
  split; [repeat split; vm_compute; reflexivity|].
  split; eexists; (split; [vm_compute; reflexivity|]); repeat split.
Qed.

(** With window 20 and the threshold 2.0 of app.js, twenty words
    marked right roll the reader back: the sum of twenty times 0.1 is
    2.0000000000000004 in binary64, so the pointer, at token 38
    before the twentieth mark, is at 38 again after it and not at
    40. *)
Example twenty_right_roll_back :
  option_map pointer (markAll 0 (repeat correct 19) (loaded 26 2 20)) = Some 38
  /\ option_map pointer (markAll 0 (repeat correct 20) (loaded 26 2 20)) = Some 38.
Proof. split; vm_compute; reflexivity. Qed.

End Rollback.

(** ** Rounds of the beam search (aligner.js, [advanceWithPhrase]) *)

Module Rounds.
Import Spec Samples Invariants.
Import Tokenize Scorer Aligner.

(** *** Frame facts: what each method leaves alone *)

Lemma bind_returned {A B} (m : Method A) (k : A -> Method B) (a a1 : Aligner) (v : A) :
  m a = Returned v a1 -> bind m k a = k v a1.
Proof. intros H. unfold bind. rewrite H. reflexivity. Qed.

Lemma bind_threw {A B} (m : Method A) (k : A -> Method B) (a a1 : Aligner) (e : Error) :
  m a = Threw e a1 -> bind m k a = Threw e a1.
Proof. intros H. unfold bind. rewrite H. reflexivity. Qed.

Lemma _mark_frame (idx : Z) (st : Status) (heard : JSString) (a : Aligner) :
  exists a1, _mark idx st heard a = Returned tt a1
             /\ pointer a1 = pointer a /\ beam a1 = beam a
             /\ spokenBuffer a1 = spokenBuffer a.
Proof.
  unfold _mark. destruct (at_ (tokens a) idx) as [t|]; [|eauto].
  destruct (isWord t); cbn [negb]; [|eauto].
  eexists. split; [reflexivity|]. destruct st; auto.
Qed.

Lemma _applyPath_frame (p : list Step) :
  forall a, exists a1, _applyPath p a = Returned tt a1
                       /\ pointer a1 = pointer a /\ beam a1 = beam a
                       /\ spokenBuffer a1 = spokenBuffer a.
Proof.
  unfold _applyPath. induction p as [|step p IH]; intros a.
  - exists a. auto.
  - cbn [forEach].
    assert (Hstep : exists a1,
      match step with
      | match_ tp w _ => _mark tp correct w
      | substitution tp w _ _ => _mark tp incorrect w
      | deletion tp _ _ => _mark tp skipped []
      | insertion _ _ => ret tt
      end a = Returned tt a1
      /\ pointer a1 = pointer a /\ beam a1 = beam a /\ spokenBuffer a1 = spokenBuffer a).
    { destruct step; try apply _mark_frame. exists a. auto. }
    destruct Hstep as (a1 & H1 & Hp1 & Hb1 & Hs1).
    rewrite (bind_returned _ _ _ _ _ H1).
    destruct (IH a1) as (a2 & H2 & Hp2 & Hb2 & Hs2).
    exists a2. split; [exact H2|]. repeat split; congruence.
Qed.

(** *** An exhausted beam *)

Lemma window_past_end (a : Aligner) (startPos : Z) :
  Z.of_nat (length (tokens a)) <= startPos ->
  _getTextTokensInWindow a startPos = inr [].
Proof.
  intros H. unfold _getTextTokensInWindow.
  replace (startPos <? 0) with false by (symmetry; apply Z.ltb_ge; lia).
  rewrite drop_ge by lia. reflexivity.
Qed.

Lemma expandStates_past_end (a : Aligner) (w : JSString) (states : list AlignmentState) :
  Forall (fun s => Z.of_nat (length (tokens a)) <= textPos s) states ->
  expandStates a w states = inr [].
Proof.
  induction 1 as [|s states Hs _ IH]; [reflexivity|].
  cbn [expandStates]. unfold expandState. rewrite (window_past_end _ _ Hs).
  cbn [List.map concat]. rewrite IH. reflexivity.
Qed.

Lemma _expandBeam_past_end (a : Aligner) (w : JSString) :
  Forall (fun s => Z.of_nat (length (tokens a)) <= textPos s) (beam a) ->
  _expandBeam w a = Returned tt (withBeam [] a).
Proof.
  intros H. unfold _expandBeam. rewrite (expandStates_past_end _ _ _ H).
  unfold _pruneBeam. cbn [sortByCost foldr]. rewrite take_nil. reflexivity.
Qed.

Lemma withBeam_same (a : Aligner) : withBeam (beam a) a = a.
Proof. destruct a. reflexivity. Qed.

Lemma forEach_expand_empty (ws : list JSString) (a : Aligner) :
  beam a = [] -> forEach ws _expandBeam a = Returned tt a.
Proof.
  induction ws as [|w ws IH]; intros Hb; [reflexivity|].
  cbn [forEach].
  rewrite (bind_returned _ _ a a tt).
  - apply IH, Hb.
  - rewrite _expandBeam_past_end by (rewrite Hb; constructor).
    rewrite <- Hb. rewrite withBeam_same. reflexivity.
Qed.

Lemma _processBeamSearch_empty (a : Aligner) :
  beam a = [] ->
  _processBeamSearch a = Returned tt (withSpokenBuffer [] a).
Proof.
  intros Hb. unfold _processBeamSearch.
  destruct (spokenBuffer a) as [|w ws] eqn:Es.
  - f_equal. destruct a. cbn in *. subst. reflexivity.
  - rewrite (bind_returned _ _ a a tt) by (apply forEach_expand_empty, Hb).
    rewrite (bind_returned _ _ a a tt).
    + reflexivity.
    + unfold _checkAdvancement. rewrite Hb. reflexivity.
Qed.

Section WithUnicode.
Context {U : Unicode}.

Lemma wordsOf_empty : wordsOf [] = [].
Proof. reflexivity. Qed.

Lemma advance_on_empty_beam (a : Aligner) (phrase : JSString) :
  beam a = [] ->
  exists a',
    advanceWithPhrase phrase a = Returned (length (wordsOf phrase)) a'
    /\ tokens a' = tokens a /\ pointer a' = pointer a
    /\ uiTrace a' = uiTrace a /\ beam a' = [].
Proof.
  intros Hb. unfold advanceWithPhrase.
  destruct phrase as [|c phrase]; cbn [truthy negb].
  - exists a. rewrite wordsOf_empty. auto.
  - set (words := wordsOf (c :: phrase)).
    set (a1 := withSpokenBuffer (spokenBuffer a ++ words) a).
    exists (withSpokenBuffer [] a1).
    split; [|destruct a; cbn; auto].
    rewrite (bind_returned _ _ a a1 tt) by reflexivity.
    rewrite (bind_returned _ _ a1 (withSpokenBuffer [] a1) tt); [reflexivity|].
    apply _processBeamSearch_empty. exact Hb.
Qed.

(** The exhausted beam.
    - If every hypothesis of the beam has its text position at or past
      the end of the token array, expanding with any spoken word
      leaves the beam empty.
    - With the beam empty, [advanceWithPhrase] returns the number of
      normalized words of the phrase, calls no hook, changes no token
      and does not move the committed pointer, and the beam is empty
      again afterwards.
    - [setPointer] moves the pointer and leaves the beam as it is: it
      does not reseed an empty beam. *)
Theorem exhausted_beam_stays_empty (a : Aligner) :
  (forall w,
     Forall (fun s => Z.of_nat (length (tokens a)) <= textPos s) (beam a) ->
     _expandBeam w a = Returned tt (withBeam [] a))
  /\ (beam a = [] ->
      forall phrase, exists a',
        advanceWithPhrase phrase a = Returned (length (wordsOf phrase)) a'
        /\ tokens a' = tokens a /\ pointer a' = pointer a
        /\ uiTrace a' = uiTrace a /\ beam a' = [])
  /\ (forall idx, exists a',
        setPointer idx a = Returned tt a'
        /\ pointer a' = idx /\ beam a' = beam a /\ tokens a' = tokens a).
Proof.
  split; [intros w; apply _expandBeam_past_end|]. split.
  - intros Hb phrase. apply advance_on_empty_beam, Hb.
  - intros idx. eexists. split; [reflexivity|]. auto.
Qed.

(** Whatever is heard and wherever the pointer is set afterwards, an
    empty beam stays empty and the tokens stay as they are. *)
Lemma empty_beam_for_good (cs : list Call) :
  forall a, beam a = [] ->
    beam (runCalls cs a) = [] /\ tokens (runCalls cs a) = tokens a.
Proof.
  induction cs as [|c cs IH]; intros a Hb; [auto|].
  unfold runCalls in *. cbn [fold_left].
  assert (Hc : beam (runCall c a) = [] /\ tokens (runCall c a) = tokens a).
  { destruct c as [phrase|idx]; cbn [runCall].
    - destruct (advance_on_empty_beam a phrase Hb) as (a' & -> & Ht & _ & _ & Hb').
      auto.
    - split; [exact Hb | reflexivity]. }
  destruct Hc as [Hb1 Ht1]. destruct (IH _ Hb1) as [Hb2 Ht2].
  split; [exact Hb2 | congruence].
Qed.

End WithUnicode.

Lemma exhausted_beam_stays_empty_witness :
  _expandBeam (lit "z") afterXY = Returned tt (withBeam [] afterXY)
  /\ exists a',
       @advanceWithPhrase Latin1 (lit "the end") exhausted
       = Returned (length (@wordsOf Latin1 (lit "the end"))) a'
       /\ tokens a' = tokens exhausted /\ pointer a' = pointer exhausted
       /\ uiTrace a' = uiTrace exhausted /\ beam a' = [].
Proof.
  split.
  - apply (proj1 (@exhausted_beam_stays_empty Latin1 afterXY)).
    vm_compute. repeat constructor. discriminate.
  - apply (proj1 (proj2 (@exhausted_beam_stays_empty Latin1 exhausted))).
    vm_compute. reflexivity.
Defined.

(** C9, where the code departs from it.  The constructor and a commit
    follow the assignment of the pointer by [_resetBeam()], which
    seeds the beam with the fresh hypothesis at the pointer;
    [setPointer] assigns the pointer and leaves the beam as it is.  On
    the text "x y", hearing "x y" commits both words and hearing "z"
    then empties the beam.  [setPointer(0)] moves the pointer to 0 and
    leaves the beam empty rather than holding the fresh hypothesis at
    0; hearing "x" afterwards still marks nothing and leaves the beam
    empty. *)
Theorem setPointer_does_not_reseed :
  let a1 := stateOf (setPointer 0 exhausted) in
  beam exhausted = []
  /\ pointer a1 = 0
  /\ beam a1 = []
  /\ beam a1 <> [mkState (pointer a1) 0 0 []]
  /\ (exists a2,
        @advanceWithPhrase Latin1 (lit "x") a1 = Returned 1%nat a2
        /\ tokens a2 = tokens a1 /\ pointer a2 = 0 /\ beam a2 = [])
  /\ beam (new tokensXY) = [mkState (pointer (new tokensXY)) 0 0 []]
  /\ beam afterXY = [mkState (pointer afterXY) 0 0 []].
Proof.
  cbv zeta. split; [vm_compute; reflexivity|]. split; [reflexivity|].
  split; [vm_compute; reflexivity|]. split; [vm_compute; discriminate|].
  split; [|split; vm_compute; reflexivity].
  eexists. split; [vm_compute; reflexivity|]. repeat split.
Qed.

(** *** Commits move the pointer forward *)

Lemma windowLoop_from (ws : nat) (rest : list Token) :
  forall (pos : Z) (count : nat) (i : Z) (t : Token),
    In (i, t) (windowLoop ws rest pos count) -> pos <= i.
Proof.
  induction rest as [|t0 rest IH]; intros pos count i t Hin; [destruct Hin|].
  cbn [windowLoop] in Hin. destruct (count <? ws)%nat; [|destruct Hin].
  destruct (isWord t0).
  - destruct Hin as [Heq|Hin].
    + injection Heq as <- _. lia.
    + apply IH in Hin. lia.
  - apply IH in Hin. lia.
Qed.

Lemma window_from (a : Aligner) (startPos : Z) (l : list (Z * Token)) :
  _getTextTokensInWindow a startPos = inr l ->
  forall i t, In (i, t) l -> startPos <= i.
Proof.
  unfold _getTextTokensInWindow. intros H i t Hin.
  destruct (startPos <? 0).
  - destruct (0 <? windowSize a)%nat; [discriminate|].
    injection H as <-. destruct Hin.
  - injection H as <-. eapply windowLoop_from, Hin.
Qed.

Lemma _generateTransitions_from (a : Aligner) (state : AlignmentState)
    (tp : Z) (tok : Token) (w : JSString) :
  beamFrom tp (_generateTransitions a state tp tok w).
Proof.
  unfold _generateTransitions, beamFrom. apply Forall_app. split.
  - destruct (_canMatch a w tok); repeat constructor. cbn. lia.
  - repeat constructor; cbn; lia.
Qed.

Lemma beamFrom_weaken (p q : Z) (states : list AlignmentState) :
  p <= q -> beamFrom q states -> beamFrom p states.
Proof.
  intros Hpq H. unfold beamFrom in *.
  eapply List.Forall_impl; [|exact H]. intros s Hs. cbn in Hs. lia.
Qed.

Lemma expandState_from (a : Aligner) (w : JSString) (state : AlignmentState)
    (out : list AlignmentState) :
  expandState a w state = inr out -> beamFrom (textPos state) out.
Proof.
  unfold expandState.
  destruct (_getTextTokensInWindow a (textPos state)) as [e|l] eqn:Ew; [discriminate|].
  intros H. injection H as <-.
  pose proof (window_from _ _ _ Ew) as Hfrom. clear Ew.
  induction l as [|[i t] l IH]; [constructor|].
  cbn [List.map concat]. apply Forall_app. split.
  - apply (beamFrom_weaken _ i); [apply (Hfrom i t); left; reflexivity|].
    apply _generateTransitions_from.
  - apply IH. intros j u Hin. apply (Hfrom j u). right. exact Hin.
Qed.

Lemma expandStates_from (a : Aligner) (w : JSString) (p : Z) (states : list AlignmentState) :
  beamFrom p states ->
  forall out, expandStates a w states = inr out -> beamFrom p out.
Proof.
  induction 1 as [|s states Hs _ IH]; intros out H.
  - injection H as <-. constructor.
  - cbn [expandStates] in H.
    destruct (expandState a w s) as [e|o1] eqn:E1; [discriminate|].
    destruct (expandStates a w states) as [e|o2]; [discriminate|].
    injection H as <-. apply Forall_app. split.
    + apply (beamFrom_weaken _ (textPos s)); [exact Hs|].
      eapply expandState_from, E1.
    + apply IH. reflexivity.
Qed.

Lemma insertByCost_from (p : Z) (s : AlignmentState) (l : list AlignmentState) :
  p <= textPos s -> beamFrom p l -> beamFrom p (insertByCost s l).
Proof.
  intros Hs. induction 1 as [|h t Hh Ht IH]; cbn [insertByCost].
  - repeat constructor. exact Hs.
  - destruct (Qle_bool (cost s) (cost h)).
    + constructor; [exact Hs|]. constructor; assumption.
    + constructor; assumption.
Qed.

Lemma _pruneBeam_from (a : Aligner) (p : Z) (states : list AlignmentState) :
  beamFrom p states -> beamFrom p (_pruneBeam a states).
Proof.
  intros H. unfold _pruneBeam. apply Forall_take.
  induction H as [|s l Hs _ IH]; [constructor|].
  cbn [sortByCost foldr]. apply insertByCost_from; assumption.
Qed.

Lemma keepsForward_bind {A B} (m : Method A) (k : A -> Method B) :
  keepsForward m -> (forall v, keepsForward (k v)) -> keepsForward (bind m k).
Proof.
  intros Hm Hk a Ha. unfold bind. specialize (Hm a Ha).
  destruct (m a) as [v a1|e a1]; cbn [stateOf] in *.
  - destruct Hm as [Hp Hb]. destruct (Hk v a1 Hb) as [Hp' Hb'].
    split; [lia | exact Hb'].
  - exact Hm.
Qed.

Lemma keepsForward_forEach {A} (xs : list A) (body : A -> Method unit) :
  (forall x, keepsForward (body x)) -> keepsForward (forEach xs body).
Proof.
  intros Hbody. induction xs as [|x xs IH]; cbn [forEach].
  - intros a Ha. split; [cbn; lia | exact Ha].
  - apply keepsForward_bind; [apply Hbody | intros _; exact IH].
Qed.

Lemma keepsForward_expand (w : JSString) : keepsForward (_expandBeam w).
Proof.
  intros a Ha. unfold _expandBeam.
  destruct (expandStates a w (beam a)) as [e|out] eqn:E; cbn [stateOf].
  - split; [lia | exact Ha].
  - split; [cbn; lia|]. unfold beamAhead. cbn [pointer beam withBeam].
    apply _pruneBeam_from. eapply expandStates_from; [exact Ha | exact E].
Qed.

Lemma bestOf_in (others : list AlignmentState) :
  forall first, In (bestOf first others) (first :: others).
Proof.
  unfold bestOf. induction others as [|o others IH]; intros first; cbn [fold_left].
  - left. reflexivity.
  - destruct (Qltb (cost o) (cost first)).
    + right. apply IH.
    + destruct (IH first) as [H|H]; [left; exact H | right; right; exact H].
Qed.

Lemma keepsForward_check : keepsForward _checkAdvancement.
Proof.
  intros a Ha. unfold _checkAdvancement.
  destruct (beam a) as [|first others] eqn:Eb; [split; [cbn; lia | exact Ha]|].
  match goal with |- context [if ?c then _ else _] => destruct c end;
    [|split; [cbn; lia | exact Ha]].
  destruct (_applyPath_frame (path (bestOf first others)) a) as (a1 & H1 & Hp1 & _).
  rewrite (bind_returned _ _ _ _ _ H1).
  unfold bind, setPointer, _resetBeam, update. cbn [stateOf].
  split.
  - cbn [pointer withBeam uiCall withPointer].
    pose proof (bestOf_in others first) as Hin.
    unfold beamAhead, beamFrom in Ha. rewrite Eb in Ha.
    rewrite List.Forall_forall in Ha. apply Ha. exact Hin.
  - unfold beamAhead, beamFrom. cbn [pointer beam withBeam uiCall withPointer].
    repeat constructor. cbn. lia.
Qed.

Lemma keepsForward_update (f : Aligner -> Aligner) :
  (forall a, pointer (f a) = pointer a /\ beam (f a) = beam a) ->
  keepsForward (update f).
Proof.
  intros Hf a Ha. unfold update. cbn [stateOf]. destruct (Hf a) as [Hp Hb].
  unfold forward, beamAhead. rewrite Hp, Hb. split; [lia | exact Ha].
Qed.

Lemma keepsForward_process : keepsForward _processBeamSearch.
Proof.
  intros a Ha. unfold _processBeamSearch.
  destruct (spokenBuffer a) as [|w ws]; [split; [cbn; lia | exact Ha]|].
  revert a Ha. change (keepsForward
    (forEach (w :: ws) _expandBeam;;; _checkAdvancement;;; update (withSpokenBuffer []))).
  apply keepsForward_bind; [apply keepsForward_forEach, keepsForward_expand|].
  intros _. apply keepsForward_bind; [apply keepsForward_check|].
  intros _. apply keepsForward_update. intros a. split; reflexivity.
Qed.

Lemma new_beamAhead (ts : list Token) : beamAhead (new ts).
Proof.
  unfold beamAhead, beamFrom. cbn.
  constructor; [cbn; lia | constructor].
Qed.

Section Monotone.
Context {U : Unicode}.

Lemma keepsForward_advance (phrase : JSString) : keepsForward (advanceWithPhrase phrase).
Proof.
  unfold advanceWithPhrase. destruct (negb (truthy phrase)).
  - intros a Ha. split; [cbn; lia | exact Ha].
  - apply keepsForward_bind.
    + apply keepsForward_update. intros a. split; reflexivity.
    + intros _. apply keepsForward_bind; [apply keepsForward_process|].
      intros _ a Ha. split; [cbn; lia | exact Ha].
Qed.

(** A round started with every hypothesis of the beam at or ahead of
    the committed pointer ends, whether it returns or throws, with the
    committed pointer at or ahead of where it was, and again with
    every hypothesis at or ahead of it.  The condition holds for a new
    aligner and after every round. *)
Theorem round_moves_pointer_forward (a : Aligner) (phrase : JSString) :
  beamAhead a ->
  pointer a <= pointer (stateOf (advanceWithPhrase phrase a))
  /\ beamAhead (stateOf (advanceWithPhrase phrase a)).
Proof. apply keepsForward_advance. Qed.

(** Over any number of rounds, with no call of [setPointer] in
    between, the pointer never moves back. *)
Lemma rounds_move_pointer_forward (phrases : list JSString) :
  forall a, beamAhead a ->
    pointer a <= pointer (runCalls (List.map hear phrases) a)
    /\ beamAhead (runCalls (List.map hear phrases) a).
Proof.
  induction phrases as [|p ps IH]; intros a Ha.
  - split; [cbn; lia | exact Ha].
  - unfold runCalls in *. cbn [List.map fold_left runCall].
    destruct (keepsForward_advance p a Ha) as [Hp Hb].
    destruct (IH _ Hb) as [Hp' Hb']. split; [lia | exact Hb'].
Qed.

End Monotone.

Lemma round_moves_pointer_forward_witness :
  pointer (new tokensXY)
  <= pointer (stateOf (@advanceWithPhrase Latin1 (lit "x y") (new tokensXY)))
  /\ beamAhead (stateOf (@advanceWithPhrase Latin1 (lit "x y") (new tokensXY))).
Proof.
  apply (@round_moves_pointer_forward Latin1 (new tokensXY) (lit "x y")).
  unfold beamAhead, beamFrom. cbn. constructor; [cbn; lia | constructor].
Defined.

(** C5, where the code departs from it.  The constructor and a commit
    follow the assignment of the pointer by [_resetBeam()], so that
    the beam holds the fresh hypothesis at the pointer; [setPointer]
    (and app.js, which assigns [state.aligner.pointer]) moves the
    pointer and leaves the beam as it is.  On the text "abcdefgh y z"
    with the match threshold at 0.9, the reader jumps to "z"
    ([setPointer(4)]); the beam still holds the hypothesis at 0.
    Hearing "abcdefgx" then commits the substitution on token 0 and
    sets the committed pointer to 1: the round moved it back from 4. *)
Theorem round_after_jump_moves_pointer_back :
  pointer jumpedAhead = 4
  /\ beam jumpedAhead = [mkState 0 0 0 []]
  /\ (exists a',
        @advanceWithPhrase Latin1 (lit "abcdefgx") jumpedAhead = Returned 1%nat a'
        /\ pointer a' = 1
        /\ option_map status (tokens a' !! 0%nat) = Some incorrect
        /\ ~ (pointer jumpedAhead <= pointer a')
        /\ beam a' = [mkState (pointer a') 0 0 []])
  /\ beam (new tokensLong) = [mkState (pointer (new tokensLong)) 0 0 []].
Proof.
  split; [reflexivity|]. split; [vm_compute; reflexivity|].
  split; [|vm_compute; reflexivity].
  eexists. split; [vm_compute; reflexivity|].
  split; [reflexivity|]. split; [reflexivity|].
  split; [|reflexivity].
  vm_compute. intros H. apply H. reflexivity.
Qed.

(** The same with the default configuration: on the one-word text
    "x", with the pointer set to 1 (the end of the text), hearing "um"
    commits the insertion at token 0 and sets the pointer to 0. *)
Example round_after_jump_default_configuration :
  exists a',
    @advanceWithPhrase Latin1 (lit "um")
      (stateOf (setPointer 1 (new (tokensOfWords ["x"%string]))))
    = Returned 1%nat a'
    /\ pointer a' = 0.
Proof. eexists. split; [vm_compute; reflexivity | reflexivity]. Qed.

(** *** The scenarios of the specification, run on the embedding *)

Example the_quick_brown_fox :
  heard ["the"; "quick"; "brown"; "fox"]%string "the quick brown fox"
  = Some (4%nat, [correct; correct; correct; correct]).
Proof. vm_compute. reflexivity. Qed.

Example um_the_cat_sat :
  heard ["the"; "cat"; "sat"]%string "um the cat sat"
  = Some (4%nat, [correct; correct; correct]).
Proof. vm_compute. reflexivity. Qed.

(** Hearing "red" for "brown": the cheapest path inserts "red" and
    then matches "fox" two candidates ahead, so "brown" is passed over
    and stays pending. *)
Example the_quick_red_fox :
  heard ["the"; "quick"; "brown"; "fox"]%string "the quick red fox"
  = Some (4%nat, [correct; correct; pending; correct]).
Proof. vm_compute. reflexivity. Qed.

End Rounds.

(** ** The similarity scorer (aligner.js, [levenshtein], [similarity]) *)

Module Distance.
Import Scorer Invariants.

(** *** The recurrence *)

Lemma editRev_nil_l (y : list N) : editRev [] y = length y.
Proof. destruct y; reflexivity. Qed.

Lemma editRev_nil_r (x : list N) : editRev x [] = length x.
Proof. destruct x; reflexivity. Qed.

Lemma editRev_cons (c d : N) (x y : list N) :
  editRev (c :: x) (d :: y)
  = Nat.min (S (editRev x (d :: y)))
      (Nat.min (S (editRev (c :: x) y))
         (editRev x y + (if bool_decide (c = d) then 0 else 1))).
Proof. reflexivity. Qed.

Global Opaque editRev.

Lemma editRev_sym (x : list N) : forall y, editRev x y = editRev y x.
Proof.
  induction x as [|c x IHx]; intros y.
  - rewrite editRev_nil_l, editRev_nil_r. reflexivity.
  - induction y as [|d y IHy].
    + rewrite editRev_nil_l, editRev_nil_r. reflexivity.
    + rewrite !editRev_cons, IHy, (IHx (d :: y)), (IHx y).
      rewrite (bool_decide_ext (c = d) (d = c)) by (split; congruence). lia.
Qed.

Lemma editRev_refl (x : list N) : editRev x x = 0%nat.
Proof.
  induction x as [|c x IH]; [reflexivity|].
  rewrite editRev_cons, IH, bool_decide_true by reflexivity. lia.
Qed.

Lemma editRev_le_max (x : list N) :
  forall y, (editRev x y <= Nat.max (length x) (length y))%nat.
Proof.
  induction x as [|c x IHx]; intros y.
  - rewrite editRev_nil_l. cbn [length]. lia.
  - destruct y as [|d y].
    + rewrite editRev_nil_r. lia.
    + rewrite editRev_cons. specialize (IHx y). cbn [length].
      destruct (bool_decide (c = d)); lia.
Qed.

(** The distance is at least the difference of the lengths. *)
Lemma editRev_ge_diff (x : list N) :
  forall y, (length y <= editRev x y + length x)%nat
            /\ (length x <= editRev x y + length y)%nat.
Proof.
  induction x as [|c x IHx]; intros y.
  - rewrite editRev_nil_l. cbn [length]. lia.
  - induction y as [|d y IHy].
    + rewrite editRev_nil_r. cbn [length]. lia.
    + rewrite editRev_cons. cbn [length] in *.
      pose proof (IHx (d :: y)) as H1. pose proof (IHx y) as H2. cbn [length] in *.
      destruct (bool_decide (c = d)); lia.
Qed.

(** One more character on either side changes the distance by at most
    one. *)
Lemma editRev_step (x : list N) :
  forall y c, (editRev x y <= S (editRev x (c :: y)))%nat
              /\ (editRev x y <= S (editRev (c :: x) y))%nat.
Proof.
  induction x as [|a x IHx]; intros y.
  - intros c. rewrite !editRev_nil_l. cbn [length].
    pose proof (editRev_ge_diff [c] y) as H. cbn [length] in H. lia.
  - induction y as [|b y IHy]; intros c.
    + rewrite !editRev_nil_r. cbn [length].
      pose proof (editRev_ge_diff (a :: x) [c]) as H. cbn [length] in H. lia.
    + split.
      * rewrite (editRev_cons a c x (b :: y)).
        pose proof (proj1 (IHx (b :: y) c)) as H1.
        rewrite (editRev_cons a b x y).
        destruct (bool_decide (a = c)), (bool_decide (a = b)); lia.
      * rewrite (editRev_cons c b (a :: x) y).
        pose proof (proj2 (IHy c)) as H1.
        rewrite (editRev_cons a b x y).
        destruct (bool_decide (c = b)), (bool_decide (a = b)); lia.
Qed.

(** Equal last characters cost nothing: the shortcut of the code. *)
Lemma editRev_same (c : N) (x y : list N) :
  editRev (c :: x) (c :: y) = editRev x y.
Proof.
  rewrite editRev_cons, bool_decide_true by reflexivity.
  pose proof (proj1 (editRev_step x y c)) as H1.
  pose proof (proj2 (editRev_step x y c)) as H2. lia.
Qed.

Lemma editRev_diff (c d : N) (x y : list N) :
  c <> d ->
  editRev (c :: x) (d :: y)
  = Nat.min (editRev x y + 1)
      (Nat.min (editRev x (d :: y) + 1) (editRev (c :: x) y + 1)).
Proof.
  intros H. rewrite editRev_cons, bool_decide_false by exact H. lia.
Qed.

(** *** The rows of the table *)

Section Rows.
Variables a b : JSString.

Lemma rev_take_S (s : JSString) (k : nat) (c : N) :
  s !! k = Some c -> rev (take (S k) s) = c :: rev (take k s).
Proof.
  intros H. rewrite (take_S_r _ _ _ H), rev_app_distr. reflexivity.
Qed.

Lemma entry_0_r (i : nat) : (i <= length a)%nat -> entry a b i 0 = i.
Proof.
  intros H. unfold entry. rewrite take_0. cbn [rev].
  rewrite editRev_nil_r, length_rev, length_take. lia.
Qed.

Lemma entry_0_l (j : nat) : (j <= length b)%nat -> entry a b 0 j = j.
Proof.
  intros H. unfold entry. rewrite take_0. cbn [rev].
  rewrite editRev_nil_l, length_rev, length_take. lia.
Qed.

(** The value the inner loop stores at [dp[j]]. *)
Lemma entry_step (i j : nat) :
  (i < length a)%nat -> (j < length b)%nat ->
  entry a b (S i) (S j)
  = if bool_decide (a !! i = b !! j) then entry a b i j
    else Nat.min (entry a b i j + 1) (Nat.min (entry a b i (S j) + 1) (entry a b (S i) j + 1)).
Proof.
  intros Hi Hj.
  destruct (lookup_lt_is_Some_2 a i Hi) as [c Hc].
  destruct (lookup_lt_is_Some_2 b j Hj) as [d Hd].
  unfold entry. rewrite (rev_take_S a i c Hc), (rev_take_S b j d Hd), Hc, Hd.
  destruct (decide (c = d)) as [->|Hne].
  - rewrite bool_decide_true by reflexivity. apply editRev_same.
  - rewrite bool_decide_false by congruence. apply editRev_diff, Hne.
Qed.

Lemma levInner_step (i k : nat) (st : list nat * nat) :
  (i < length a)%nat -> (k < length b)%nat ->
  innerInv a b i k st -> innerInv a b i (S k) (levInner a b (S i) st (S k)).
Proof.
  intros Hi Hk (Hlen & Hnew & Hold & Hprev). destruct st as [dp prev].
  cbn [fst snd] in *. unfold levInner.
  replace (S i - 1)%nat with i by lia. replace (S k - 1)%nat with k by lia.
  assert (Hk1 : dp !!! S k = entry a b i (S k)).
  { apply list_lookup_total_correct, Hold. lia. }
  assert (Hk0 : dp !!! k = entry a b (S i) k).
  { apply list_lookup_total_correct, Hnew. lia. }
  rewrite Hk1, Hk0, Hprev.
  set (v := if bool_decide (a !! i = b !! k) then entry a b i k
            else Nat.min (entry a b i k + 1) (Nat.min (entry a b i (S k) + 1) (entry a b (S i) k + 1))).
  assert (Hv : v = entry a b (S i) (S k)) by (symmetry; apply entry_step; assumption).
  assert (Hdp : (if bool_decide (a !! i = b !! k) then <[S k := entry a b i k]> dp
                 else <[S k := Nat.min (entry a b i k + 1)
                                 (Nat.min (entry a b i (S k) + 1) (entry a b (S i) k + 1))]> dp)
                = <[S k := v]> dp).
  { subst v. destruct (bool_decide (a !! i = b !! k)); reflexivity. }
  rewrite Hdp, Hv. unfold innerInv. cbn [fst snd].
  split; [rewrite length_insert; exact Hlen|]. split; [|split; [|reflexivity]].
  - intros j Hj. destruct (decide (j = S k)) as [->|Hne].
    + apply list_lookup_insert_eq. lia.
    + rewrite list_lookup_insert_ne by congruence. apply Hnew. lia.
  - intros j Hj. rewrite list_lookup_insert_ne by lia. apply Hold. lia.
Qed.

Lemma levInner_loop (i : nat) (st : list nat * nat) :
  (i < length a)%nat -> innerInv a b i 0 st ->
  forall k, (k <= length b)%nat ->
    innerInv a b i k (fold_left (levInner a b (S i)) (seq 1 k) st).
Proof.
  intros Hi H0 k. induction k as [|k IH]; intros Hk; [exact H0|].
  rewrite seq_S, fold_left_app. cbn [fold_left Nat.add].
  apply levInner_step; [exact Hi | lia | apply IH; lia].
Qed.

Lemma levOuter_step (i : nat) (dp : list nat) :
  (i < length a)%nat -> rowInv a b i dp -> rowInv a b (S i) (levOuter a b dp (S i)).
Proof.
  intros Hi (Hlen & Hrow). unfold levOuter.
  assert (H0 : innerInv a b i 0 (<[0%nat := S i]> dp, dp !!! 0%nat)).
  { unfold innerInv. cbn [fst snd]. split; [rewrite length_insert; exact Hlen|].
    split; [|split].
    - intros j Hj. replace j with 0%nat by lia.
      rewrite list_lookup_insert_eq by lia. rewrite entry_0_r by lia. reflexivity.
    - intros j Hj. rewrite list_lookup_insert_ne by lia. apply Hrow. lia.
    - apply list_lookup_total_correct, Hrow. lia. }
  destruct (levInner_loop i _ Hi H0 (length b) (le_n _)) as (Hl & Hnew & _ & _).
  split; [exact Hl | exact Hnew].
Qed.

Lemma levOuter_loop (dp : list nat) :
  rowInv a b 0 dp ->
  forall i, (i <= length a)%nat -> rowInv a b i (fold_left (levOuter a b) (seq 1 i) dp).
Proof.
  intros H0 i. induction i as [|i IH]; intros Hi; [exact H0|].
  rewrite seq_S, fold_left_app. cbn [fold_left Nat.add].
  apply levOuter_step; [lia | apply IH; lia].
Qed.

Lemma first_row : rowInv a b 0 (seq 0 (length b + 1)).
Proof.
  split; [rewrite length_seq; lia|].
  intros j Hj. rewrite lookup_seq_lt by lia. rewrite entry_0_l by lia. reflexivity.
Qed.

End Rows.

(** The table computes the distance of the recurrence. *)
Lemma levenshtein_editDistance (a b : JSString) :
  levenshtein a b = editDistance a b.
Proof.
  unfold levenshtein, editDistance.
  destruct (length a =? 0)%nat eqn:Ea.
  - apply Nat.eqb_eq in Ea. destruct a; [|discriminate].
    cbn [rev]. rewrite editRev_nil_l, length_rev. reflexivity.
  - destruct (length b =? 0)%nat eqn:Eb.
    + apply Nat.eqb_eq in Eb. destruct b; [|discriminate].
      cbn [rev]. rewrite editRev_nil_r, length_rev. reflexivity.
    + destruct (levOuter_loop a b _ (first_row a b) (length a) (le_n _)) as [_ Hrow].
      rewrite (list_lookup_total_correct _ _ _ (Hrow (length b) (le_n _))).
      unfold entry. rewrite !take_ge by lia. reflexivity.
Qed.

(** *** The similarity *)

Lemma ofNat_le (n m : nat) : (n <= m)%nat -> (ofNat n <= ofNat m)%Q.
Proof. intros H. unfold ofNat. rewrite <- Zle_Qle. lia. Qed.

Lemma ofNat_pos (n : nat) : (0 < n)%nat -> (0 < ofNat n)%Q.
Proof. intros H. unfold ofNat. change 0%Q with (inject_Z 0). rewrite <- Zlt_Qlt. lia. Qed.

Lemma orOne_pos (n : nat) : (0 < orOne n)%nat /\ (n <= orOne n)%nat.
Proof. destruct n; cbn; lia. Qed.

Lemma ratio_bounds (d m : nat) :
  (d <= m)%nat -> (0 < m)%nat -> (0 <= 1 - ofNat d / ofNat m <= 1)%Q.
Proof.
  intros Hd Hm.
  pose proof (ofNat_pos m Hm) as Hpos.
  pose proof (ofNat_le d m Hd) as Hle.
  pose proof (ofNat_le 0 d (Nat.le_0_l d)) as H0. change (ofNat 0) with 0%Q in H0.
  assert (Hup : (ofNat d / ofNat m <= 1)%Q).
  { apply Qle_shift_div_r; [exact Hpos | lra]. }
  assert (Hlow : (0 <= ofNat d / ofNat m)%Q).
  { apply Qle_shift_div_l; [exact Hpos | lra]. }
  lra.
Qed.


End Distance.

(* ================================================================== *)
(** * Part III: further properties of the code                         *)
(* ================================================================== *)

(** ** The decision buffer under [push] and [clear] *)

Module RingMore.
Import Spec Samples Invariants Ops.
Import DecisionBuffer Ring.

Lemma pushAll_size (cap : Z) (ds : list Decision.t) : size (pushAll cap ds) = cap.
Proof.
  induction ds as [|d ds IH] using rev_ind; [reflexivity|].
  unfold pushAll in *. rewrite fold_left_app. cbn [fold_left].
  unfold push. destruct (_ <? _); cbn [size]; exact IH.
Qed.

Lemma runOps_pushAll (cap : Z) (os : list Op) :
  runOps os (new cap) = pushAll cap (sinceClear os).
Proof.
  induction os as [|o os IH] using rev_ind; [reflexivity|].
  unfold runOps, sinceClear in *. rewrite !fold_left_app. cbn [fold_left].
  rewrite IH. destruct o as [d|]; cbn [runOp].
  - unfold pushAll. rewrite fold_left_app. reflexivity.
  - unfold clear. rewrite pushAll_size. reflexivity.
Qed.

(** X1.  Whatever is pushed and cleared, a buffer of capacity at least 1
    keeps [0 <= count <= size], holds exactly [count] slots, all of
    them filled, keeps [head] inside the array, and keeps [head] at 0
    until it is full. *)
Theorem buffer_invariant (cap : nat) (os : list Op) :
  (0 < cap)%nat ->
  let b := runOps os (new (Z.of_nat cap)) in
  size b = Z.of_nat cap
  /\ 0 <= count b <= size b
  /\ Z.of_nat (length (buffer b)) = count b
  /\ 0 <= head b < size b
  /\ (count b < size b -> head b = 0)
  /\ Forall is_Some (buffer b)
  /\ count b = Z.min (Z.of_nat (length (sinceClear os))) (Z.of_nat cap).
Proof.
  intros Hcap b. subst b. rewrite runOps_pushAll.
  pose proof (holds_pushAll cap Hcap (sinceClear os)) as H.
  set (ds := sinceClear os) in *. set (b := pushAll (Z.of_nat cap) ds) in *.
  destruct H as [Hsize Hlen Hcount Hhead Hbuf | h Hsize Hlen Hcount Hhead Hh Hblen Hslots].
  - rewrite Hsize, Hcount, Hhead, Hbuf, length_fmap.
    repeat split; try lia.
    apply Forall_fmap. apply Forall_true. intros d. cbn. eauto.
  - assert (Hhlt : (h < cap)%nat) by (subst h; apply Nat.mod_upper_bound; lia).
    rewrite Hsize, Hcount, Hhead, Hblen. repeat split; try lia.
    apply Forall_lookup. intros i x Hi.
    pose proof (lookup_lt_Some _ _ _ Hi) as Hlt. rewrite Hblen in Hlt.
    set (t := ((i + cap - h) mod cap)%nat).
    assert (Ht : (t < cap)%nat) by (apply Nat.mod_upper_bound; lia).
    destruct (lookup_lt_is_Some_2 (lastN cap ds) t) as [d Hd].
    { rewrite lastN_length by lia. exact Ht. }
    pose proof (Hslots t d Hd) as Hs.
    replace ((h + t) mod cap)%nat with i in Hs.
    + rewrite Hi in Hs. injection Hs as ->. eauto.
    + subst t. rewrite Nat.Div0.add_mod_idemp_r.
      replace (h + (i + cap - h))%nat with (i + 1 * cap)%nat by lia.
      rewrite Nat.Div0.mod_add. symmetry. apply Nat.mod_small. lia.
Qed.

Lemma buffer_invariant_witness :
  let b := runOps [opPush (recordAt 0); opClear; opPush (recordAt 1); opPush (recordAt 2)]
             (new (Z.of_nat 2)) in
  size b = Z.of_nat 2
  /\ 0 <= count b <= size b
  /\ Z.of_nat (length (buffer b)) = count b
  /\ 0 <= head b < size b
  /\ (count b < size b -> head b = 0)
  /\ Forall is_Some (buffer b)
  /\ count b = Z.min (Z.of_nat (length (sinceClear
        [opPush (recordAt 0); opClear; opPush (recordAt 1); opPush (recordAt 2)])))
        (Z.of_nat 2).
Proof. apply (buffer_invariant 2). lia. Defined.

(** X2.  Where [getRecent] is right.  On a buffer that has been filled (at
    least [cap] records pushed), [getRecent(k)] for [k] below the
    capacity returns the last [k] records, oldest first; and on a
    buffer that has not wrapped, [getRecent(k)] for [k] at least the
    number of records returns them all in order. *)
Theorem getRecent_last_records (cap : nat) (ds : list Decision.t) (k : nat) :
  (0 < cap)%nat ->
  ((cap <= length ds)%nat -> (k < cap)%nat ->
   getRecent (Z.of_nat k) (pushAll (Z.of_nat cap) ds) = Some <$> recentRecords cap k ds)
  /\ ((length ds <= cap)%nat -> (length ds <= k)%nat ->
      getRecent (Z.of_nat k) (pushAll (Z.of_nat cap) ds) = Some <$> recentRecords cap k ds).
Proof. intros Hcap. apply getRecent_right_cases. exact Hcap. Qed.

Lemma getRecent_last_records_witness :
  getRecent (Z.of_nat 1) (pushAll (Z.of_nat 2) [recordAt 0; recordAt 1; recordAt 2])
  = Some <$> recentRecords 2 1 [recordAt 0; recordAt 1; recordAt 2]
  /\ getRecent (Z.of_nat 5) (pushAll (Z.of_nat 4) [recordAt 0; recordAt 1])
     = Some <$> recentRecords 4 5 [recordAt 0; recordAt 1].
Proof.
  split.
  - apply (proj1 (getRecent_last_records 2 [recordAt 0; recordAt 1; recordAt 2] 1
                    ltac:(lia))); cbn; lia.
  - apply (proj2 (getRecent_last_records 4 [recordAt 0; recordAt 1] 5 ltac:(lia)));
      cbn; lia.
Defined.

(** The loop of [getRecent] reading the slots [off], [off + 1], ... of
    an array without holes: slots past the end are skipped. *)
Lemma getRecent_loop_from (read : Z -> option (option Decision.t))
    (ds : list Decision.t) (off : nat) (k : nat) :
  (forall i, (i < k)%nat -> read (Z.of_nat i) = (Some <$> ds) !! (off + i)%nat) ->
  fold_left
    (fun result i =>
       match read i with
       | Some (Some d) => result ++ [Some d]
       | _ => result
       end)
    (List.map Z.of_nat (seq 0 k)) []
  = Some <$> take k (drop off ds).
Proof.
  induction k as [|k IH]; intros Hread.
  - rewrite take_0. reflexivity.
  - rewrite seq_S, List.map_app, fold_left_app. cbn [List.map fold_left Nat.add].
    rewrite IH by (intros i Hi; apply Hread; lia).
    rewrite (Hread k) by lia. rewrite list_lookup_fmap.
    destruct (ds !! (off + k)%nat) as [d|] eqn:Ed; cbn [fmap option_fmap option_map].
    + rewrite (take_S_r _ _ d) by (rewrite lookup_drop; exact Ed).
      rewrite fmap_snoc. reflexivity.
    + apply lookup_ge_None in Ed.
      rewrite !take_ge by (rewrite length_drop; lia). reflexivity.
Qed.

Lemma getRecent_filling (cap : nat) (ds : list Decision.t) (k : nat) :
  (k < length ds)%nat -> (length ds < cap)%nat ->
  getRecent (Z.of_nat k) (pushAll (Z.of_nat cap) ds) = Some <$> drop (cap - k) ds.
Proof.
  intros Hk Hn.
  pose proof (holds_pushAll cap ltac:(lia) ds) as H.
  set (b := pushAll (Z.of_nat cap) ds) in *.
  destruct H as [Hsize _ Hcount Hhead Hbuf | h _ Hlen _ _ _ _ _]; [|lia].
  unfold getRecent. rewrite Hcount, Hsize, Hhead, Hbuf.
  replace (Z.of_nat (length ds) <=? Z.of_nat k) with false
    by (symmetry; apply Z.leb_gt; lia).
  rewrite Nat2Z.id.
  rewrite (getRecent_loop_from _ ds (cap - k) k).
  - rewrite take_ge by (rewrite length_drop; lia). reflexivity.
  - intros i Hi.
    replace (0 - Z.of_nat k + Z.of_nat i + Z.of_nat cap)
      with (Z.of_nat (cap - k + i)) by lia.
    rewrite rem_of_nat by lia. rewrite Nat.mod_small by lia.
    apply at_of_nat.
Qed.

(** X3.  On a buffer that is still filling, [getRecent(k)] for [k] below
    the number of records reads the last [k] slots of the whole array
    instead of the last [k] records: it returns the records stored at
    the slots from [size - k] on, and so nothing at all while no more
    than [size - k] records are stored. *)
Theorem getRecent_while_filling (cap : nat) (ds : list Decision.t) (k : nat) :
  (k < length ds)%nat -> (length ds < cap)%nat ->
  getRecent (Z.of_nat k) (pushAll (Z.of_nat cap) ds) = Some <$> drop (cap - k) ds
  /\ ((length ds <= cap - k)%nat ->
      getRecent (Z.of_nat k) (pushAll (Z.of_nat cap) ds) = []).
Proof.
  intros Hk Hn. split; [apply getRecent_filling; assumption|].
  intros Hfew. rewrite getRecent_filling by assumption.
  rewrite drop_ge by lia. reflexivity.
Qed.

Lemma getRecent_while_filling_witness :
  getRecent (Z.of_nat 8)
    (pushAll (Z.of_nat 20) (List.map (fun i => recordAt (Z.of_nat i)) (seq 0 10)))
  = Some <$> drop (20 - 8) (List.map (fun i => recordAt (Z.of_nat i)) (seq 0 10))
  /\ getRecent (Z.of_nat 8)
       (pushAll (Z.of_nat 20) (List.map (fun i => recordAt (Z.of_nat i)) (seq 0 10)))
     = [].
Proof.
  destruct (getRecent_while_filling 20
              (List.map (fun i => recordAt (Z.of_nat i)) (seq 0 10)) 8) as [H1 H2];
    [vm_compute; lia | vm_compute; lia |].
  split; [exact H1 | apply H2; vm_compute; lia].
Defined.




(** X5.  The undo of [backOne] after a push.  The array keeps what the
    push wrote; below capacity the count comes back to what it was, at
    capacity it ends one short of it. *)
Theorem undo_keeps_the_record (d : Decision.t) (b : t) :
  0 <= count b ->
  buffer (App.removeLastDecision (push d b)) = buffer (push d b)
  /\ (count b < size b ->
      buffer (push d b) = buffer b ++ [Some d]
      /\ count (App.removeLastDecision (push d b)) = count b)
  /\ (0 < count b -> count b = size b ->
      count (App.removeLastDecision (push d b)) = count b - 1).
Proof. apply undo_after_push. Qed.

Lemma undo_keeps_the_record_witness :
  (buffer (App.removeLastDecision (push (recordAt 1) (pushAll 4 [recordAt 0])))
   = buffer (push (recordAt 1) (pushAll 4 [recordAt 0]))
   /\ buffer (push (recordAt 1) (pushAll 4 [recordAt 0]))
      = buffer (pushAll 4 [recordAt 0]) ++ [Some (recordAt 1)]
   /\ count (App.removeLastDecision (push (recordAt 1) (pushAll 4 [recordAt 0])))
      = count (pushAll 4 [recordAt 0]))
  /\ count (App.removeLastDecision (push (recordAt 1) (pushAll 1 [recordAt 0])))
     = count (pushAll 1 [recordAt 0]) - 1.
Proof.
  split.
  - destruct (undo_keeps_the_record (recordAt 1) (pushAll 4 [recordAt 0])) as (H1 & H2 & _);
      [vm_compute; discriminate|].
    destruct H2 as [H2 H3]; [vm_compute; reflexivity|]. auto.
  - apply (undo_keeps_the_record (recordAt 1) (pushAll 1 [recordAt 0]));
      vm_compute; congruence.
Defined.

End RingMore.

(** ** Finding words (tokenize.js) *)

Module WordIndex.
Import Words Views.

(** What the search finds in [ts], counting from [i]. *)
Lemma findWordFrom_spec (ts : list Token) :
  forall i, 0 <= i ->
    (findWordFrom ts i = -1 /\ Forall notWord ts)
    \/ (exists (k : nat) (t : Token),
          findWordFrom ts i = i + Z.of_nat k
          /\ ts !! k = Some t /\ isWord t = true
          /\ forall j u, (j < k)%nat -> ts !! j = Some u -> notWord u).
Proof.
  induction ts as [|t ts IH]; intros i Hi.
  - left. split; [reflexivity | constructor].
  - cbn [findWordFrom]. destruct (isWord t) eqn:Ew.
    + right. exists 0%nat, t. split; [lia|]. split; [reflexivity|].
      split; [exact Ew|]. intros j u Hj. lia.
    + destruct (IH (i + 1) ltac:(lia)) as [[Hr Hall]|(k & u & Hr & Hk & Hw & Hbefore)].
      * left. split; [exact Hr|]. constructor; [exact Ew | exact Hall].
      * right. exists (S k), u. split; [lia|]. split; [exact Hk|]. split; [exact Hw|].
        intros j v Hj Hv. destruct j as [|j].
        -- injection Hv as <-. exact Ew.
        -- apply (Hbefore j v); [lia | exact Hv].
Qed.

(** X6.  [firstWordIndex] returns -1 exactly when no token is a word;
    otherwise it returns the index of a word token with only
    separators before it.  The aligner's own [_firstWordIndex] returns
    the same. *)
Theorem firstWordIndex_finds_first (ts : list Token) :
  ((firstWordIndex ts = -1 /\ Forall notWord ts)
   \/ (exists (k : nat) (t : Token),
         firstWordIndex ts = Z.of_nat k
         /\ ts !! k = Some t /\ isWord t = true
         /\ forall j u, (j < k)%nat -> ts !! j = Some u -> notWord u))
  /\ Aligner._firstWordIndex ts = firstWordIndex ts.
Proof.
  split.
  - unfold firstWordIndex.
    destruct (findWordFrom_spec ts 0 ltac:(lia)) as [H|(k & t & Hr & H)].
    + left. exact H.
    + right. exists k, t. split; [lia | exact H].
  - unfold Aligner._firstWordIndex, firstWordIndex. generalize 0.
    induction ts as [|t ts IH]; intros i; [reflexivity|].
    cbn [Aligner.firstWordFrom findWordFrom]. destruct (isWord t); [reflexivity | apply IH].
Qed.

Lemma nextWordIndex_spec (ts : list Token) (fromIndex : Z) :
  -1 <= fromIndex ->
  exists r, nextWordIndex ts fromIndex = Some r
    /\ ((r = -1 /\ forall j u, fromIndex < Z.of_nat j -> ts !! j = Some u -> notWord u)
        \/ (exists (k : nat) (t : Token),
              r = Z.of_nat k /\ fromIndex < r
              /\ ts !! k = Some t /\ isWord t = true
              /\ forall j u, fromIndex < Z.of_nat j -> (j < k)%nat ->
                             ts !! j = Some u -> notWord u)).
Proof.
  intros Hfrom. unfold nextWordIndex.
  replace (fromIndex + 1 <? 0) with false by (symmetry; apply Z.ltb_ge; lia).
  eexists. split; [reflexivity|].
  set (s := Z.to_nat (fromIndex + 1)).
  destruct (findWordFrom_spec (drop s ts) (fromIndex + 1) ltac:(lia))
    as [[Hr Hall]|(k & t & Hr & Hk & Hw & Hbefore)].
  - left. split; [exact Hr|]. intros j u Hj Hu.
    rewrite List.Forall_forall in Hall. apply Hall. apply list_elem_of_In.
    apply list_elem_of_lookup. exists (j - s)%nat. rewrite lookup_drop.
    replace (s + (j - s))%nat with j by lia. exact Hu.
  - right. rewrite lookup_drop in Hk. exists (s + k)%nat, t.
    split; [lia|]. split; [lia|]. split; [exact Hk|]. split; [exact Hw|].
    intros j u Hj Hjk Hu. apply (Hbefore (j - s)%nat u); [lia|].
    rewrite lookup_drop. replace (s + (j - s))%nat with j by lia. exact Hu.
Qed.

(** X7.  From an index [fromIndex >= -1], [nextWordIndex] completes; it
    returns -1 when no token after [fromIndex] is a word, and otherwise
    the index of the nearest word token after [fromIndex]. *)
Theorem nextWordIndex_finds_next (ts : list Token) (fromIndex : Z) :
  -1 <= fromIndex ->
  exists r, nextWordIndex ts fromIndex = Some r
    /\ ((r = -1 /\ forall j u, fromIndex < Z.of_nat j -> ts !! j = Some u -> notWord u)
        \/ (exists (k : nat) (t : Token),
              r = Z.of_nat k /\ fromIndex < r
              /\ ts !! k = Some t /\ isWord t = true
              /\ forall j u, fromIndex < Z.of_nat j -> (j < k)%nat ->
                             ts !! j = Some u -> notWord u)).
Proof. apply nextWordIndex_spec. Qed.

Lemma nextWordIndex_finds_next_witness :
  exists r, nextWordIndex Samples.tokensXY 0 = Some r
    /\ ((r = -1 /\ forall j u, 0 < Z.of_nat j -> Samples.tokensXY !! j = Some u -> notWord u)
        \/ (exists (k : nat) (t : Token),
              r = Z.of_nat k /\ 0 < r
              /\ Samples.tokensXY !! k = Some t /\ isWord t = true
              /\ forall j u, 0 < Z.of_nat j -> (j < k)%nat ->
                             Samples.tokensXY !! j = Some u -> notWord u)).
Proof. apply (nextWordIndex_finds_next Samples.tokensXY 0). lia. Defined.

Lemma prevWordLoop_skips (ts : list Token) (k : nat) (t : Token) :
  ts !! k = Some t -> isWord t = true ->
  forall n, (k < n)%nat -> (n <= length ts)%nat ->
    (forall j u, (k < j)%nat -> (j < n)%nat -> ts !! j = Some u -> notWord u) ->
    App.prevWordLoop ts n = Some (Z.of_nat k).
Proof.
  intros Hk Hw n. induction n as [|n IH]; intros Hkn Hlen Hbetween; [lia|].
  cbn [App.prevWordLoop].
  destruct (decide (n = k)) as [->|Hne].
  - rewrite Hk, Hw. reflexivity.
  - destruct (lookup_lt_is_Some_2 ts n ltac:(lia)) as [u Hu]. rewrite Hu.
    rewrite (Hbetween n u ltac:(lia) ltac:(lia) Hu).
    apply IH; [lia | lia |]. intros j v Hj1 Hj2. apply Hbetween; lia.
Qed.

Lemma prev_of_next (ts : list Token) (idx : nat) (t : Token) (next : Z) :
  ts !! idx = Some t -> isWord t = true ->
  nextWordIndex ts (Z.of_nat idx) = Some next -> 0 <= next ->
  App.prevWordIndex ts next = Some (Z.of_nat idx).
Proof.
  intros Hidx Hw Hnext Hpos.
  destruct (nextWordIndex_spec ts (Z.of_nat idx) ltac:(lia))
    as (r & Hr & [[-> _]|(k & u & -> & Hlt & Hk & Hwk & Hbefore)]);
    rewrite Hnext in Hr; injection Hr as ->; [lia|].
  unfold App.prevWordIndex. rewrite Nat2Z.id.
  apply (prevWordLoop_skips ts idx t Hidx Hw); [lia | |].
  - apply lookup_lt_Some in Hk. lia.
  - intros j v Hj1 Hj2. apply Hbefore; lia.
Qed.

(** X8.  Going to the next word and back: from a word token at [idx], if
    [nextWordIndex] finds a word at [next], then [prevWordIndex] from
    [next] returns [idx]. *)
Theorem prevWordIndex_of_nextWordIndex (ts : list Token) (idx : nat) (t : Token) (next : Z) :
  ts !! idx = Some t -> isWord t = true ->
  nextWordIndex ts (Z.of_nat idx) = Some next -> 0 <= next ->
  App.prevWordIndex ts next = Some (Z.of_nat idx).
Proof. apply prev_of_next. Qed.

Lemma prevWordIndex_of_nextWordIndex_witness :
  App.prevWordIndex Samples.tokensXY 2 = Some (Z.of_nat 0).
Proof.
  apply (prevWordIndex_of_nextWordIndex Samples.tokensXY 0 (Samples.word "x" 0) 2);
    [reflexivity | reflexivity | reflexivity | lia].
Defined.

(** [resetWordStatuses] keeps the array's length, sets every word token
    to pending and changes nothing else; applying it twice is applying
    it once. *)
Theorem resetWordStatuses_resets (ts : list Token) :
  length (resetWordStatuses ts) = length ts
  /\ (forall i t, ts !! i = Some t ->
        resetWordStatuses ts !! i
        = Some (if isWord t then setStatus pending t else t))
  /\ resetWordStatuses (resetWordStatuses ts) = resetWordStatuses ts.
Proof.
  unfold resetWordStatuses. split; [apply length_map|]. split.
  - intros i t Hi. change (List.map ?f ?l) with (f <$> l).
    rewrite list_lookup_fmap, Hi. reflexivity.
  - rewrite List.map_map. apply List.map_ext. intros t.
    destruct (isWord t) eqn:E; cbn [isWord setStatus]; rewrite ?E; reflexivity.
Qed.

End WordIndex.

(** ** The drift banner (app.js) *)

Module Drift.
Import App Manual Views.

Lemma rev_take_last (ts : list Token) (i : nat) (t : Token) :
  ts !! i = Some t -> rev (take (S i) ts) = t :: rev (take i ts).
Proof.
  intros H. rewrite (take_S_r _ _ _ H). rewrite rev_app_distr. reflexivity.
Qed.

Lemma driftLoop_closed (ts : list Token) :
  forall n count errors, (n <= length ts)%nat ->
    driftLoop ts n count errors
    = Some ((count + length (recentMarked ts n (8 - count)))%nat,
            (errors + length (List.filter isError (recentMarked ts n (8 - count))))%nat).
Proof.
  induction n as [|i IH]; intros count errors Hn.
  - unfold recentMarked. cbn [driftLoop]. rewrite take_0. cbn [rev List.filter].
    rewrite take_nil. cbn [List.filter length]. f_equal. f_equal; lia.
  - cbn [driftLoop]. destruct (count <? 8)%nat eqn:Ec.
    + apply Nat.ltb_lt in Ec.
      destruct (lookup_lt_is_Some_2 ts i ltac:(lia)) as [t Ht]. rewrite Ht.
      unfold recentMarked. rewrite (rev_take_last ts i t Ht). cbn [List.filter].
      destruct (isWord t) eqn:Ew; cbn [negb].
      * destruct (bool_decide (status t = pending)) eqn:Ep.
        -- replace (marked t) with false by (unfold marked; rewrite Ew, Ep; reflexivity).
           apply bool_decide_eq_true in Ep.
           replace (bool_decide (status t = incorrect) || bool_decide (status t = skipped))
             with false by (rewrite Ep; reflexivity).
           cbv iota. apply IH. lia.
        -- replace (marked t) with true by (unfold marked; rewrite Ew, Ep; reflexivity).
           cbv iota. rewrite IH by lia. unfold recentMarked.
           replace (8 - count)%nat with (S (8 - S count)) by lia.
           rewrite firstn_cons. cbn [List.filter length]. fold (isError t).
           destruct (isError t); cbn [length]; f_equal; f_equal; lia.
      * replace (marked t) with false by (unfold marked; rewrite Ew; reflexivity).
        apply IH. lia.
    + apply Nat.ltb_ge in Ec. unfold recentMarked.
      replace (8 - count)%nat with 0%nat by lia. rewrite take_0.
      cbn [List.filter length]. f_equal. f_equal; lia.
Qed.

(** X9.  [checkDrift] looks at the last eight marked words before the
    pointer, whatever lies between them: the banner is shown exactly
    when at least four are marked and at least three of those are
    incorrect or skipped.  With a negative pointer the banner is
    hidden, and with a pointer beyond the end of the array the call
    throws. *)
Theorem checkDrift_last_eight_marked (state : State) :
  (pointer state < 0 -> checkDrift state = Some false)
  /\ (0 <= pointer state <= Z.of_nat (length (tokens state)) ->
      let l := recentMarked (tokens state) (Z.to_nat (pointer state)) 8 in
      checkDrift state
      = Some ((4 <=? length l)%nat && (3 <=? length (List.filter isError l))%nat))
  /\ (Z.of_nat (length (tokens state)) < pointer state -> checkDrift state = None).
Proof.
  unfold checkDrift. split; [|split].
  - intros H. replace (pointer state <? 0) with true by (symmetry; apply Z.ltb_lt; lia).
    reflexivity.
  - intros H. cbv zeta. replace (pointer state <? 0) with false by (symmetry; apply Z.ltb_ge; lia).
    rewrite driftLoop_closed by lia. reflexivity.
  - intros H. replace (pointer state <? 0) with false by (symmetry; apply Z.ltb_ge; lia).
    destruct (Z.to_nat (pointer state)) as [|i] eqn:Ei; [lia|].
    cbn [driftLoop Nat.ltb Nat.leb].
    rewrite (proj2 (lookup_ge_None _ _)) by lia. reflexivity.
Qed.

Lemma checkDrift_last_eight_marked_witness :
  checkDrift Samples.sixteenTokensState
  = Some ((4 <=? length (recentMarked Samples.sixteenTokens 15 8))%nat
          && (3 <=? length (List.filter isError
                              (recentMarked Samples.sixteenTokens 15 8)))%nat)
  /\ checkDrift (setPointer 17 Samples.sixteenTokensState) = None.
Proof.
  split.
  - apply (proj1 (proj2 (checkDrift_last_eight_marked Samples.sixteenTokensState))).
    vm_compute. split; discriminate.
  - apply (proj2 (proj2 (checkDrift_last_eight_marked
                           (setPointer 17 Samples.sixteenTokensState)))).
    vm_compute. reflexivity.
Defined.

End Drift.

(** ** Marking by hand and taking it back (app.js) *)

Module Marking.
Import App Manual Views.
Import Spec Ops.

Lemma findWordFrom_isWord (ts ts' : list Token) :
  isWord <$> ts = isWord <$> ts' ->
  forall i, Words.findWordFrom ts i = Words.findWordFrom ts' i.
Proof.
  revert ts'. induction ts as [|t ts IH]; intros [|t' ts'] H i; try discriminate.
  - reflexivity.
  - cbn in H. injection H as Hw Hrest. cbn [Words.findWordFrom]. rewrite Hw.
    destruct (isWord t'); [reflexivity | apply IH; exact Hrest].
Qed.

Lemma nextWordIndex_marked (ts : list Token) (k : nat) (t : Token) (st : Status) (i : Z) :
  ts !! k = Some t ->
  Words.nextWordIndex (<[k := setStatus st t]> ts) i = Words.nextWordIndex ts i.
Proof.
  intros Hk. unfold Words.nextWordIndex. destruct (i + 1 <? 0); [reflexivity|].
  f_equal. apply findWordFrom_isWord. rewrite !fmap_drop. f_equal.
  rewrite list_fmap_insert. apply list_insert_id.
  rewrite list_lookup_fmap, Hk. reflexivity.
Qed.

Lemma checkDrift_completes (state : State) :
  pointer state <= Z.of_nat (length (tokens state)) ->
  refreshMetrics state = Some state.
Proof.
  intros H. unfold refreshMetrics, checkDrift.
  destruct (pointer state <? 0) eqn:E; [reflexivity|]. apply Z.ltb_ge in E.
  rewrite Drift.driftLoop_closed by lia. reflexivity.
Qed.

(** The state [markAndAdvance] hands to [checkAutoBacktrack]. *)
Lemma markAndAdvance_on_word (now : Z) (st : Status) (state : State)
    (idx : nat) (t : Token) :
  pointer state = Z.of_nat idx ->
  tokens state !! idx = Some t -> isWord t = true ->
  exists next,
    Words.nextWordIndex (tokens state) (Z.of_nat idx) = Some next
    /\ -1 <= next < Z.of_nat (length (tokens state))
    /\ markAndAdvance now st state
       = checkAutoBacktrack
           (mkState (<[idx := setStatus st t]> (tokens state)) next
              (match alignerPointer state with Some _ => Some next | None => None end)
              (DecisionBuffer.push
                 (Decision.mk (Z.of_nat idx) st now (norm t)
                    (if bool_decide (st = correct) then norm t else []) false)
                 (decisionBuffer state))
              (backtrackThreshold state) (backtrackWindow state)).
Proof.
  intros Hp Ht Hw.
  destruct (WordIndex.nextWordIndex_spec (tokens state) (Z.of_nat idx) ltac:(lia))
    as (next & Hnext & Hcases).
  assert (Hrange : -1 <= next < Z.of_nat (length (tokens state))).
  { destruct Hcases as [[-> _]|(k & u & -> & _ & Hk & _)].
    - pose proof (lookup_lt_Some _ _ _ Ht). lia.
    - apply lookup_lt_Some in Hk. lia. }
  exists next. split; [exact Hnext|]. split; [exact Hrange|].
  unfold markAndAdvance. rewrite Hp.
  replace (Z.of_nat idx <? 0) with false by (symmetry; apply Z.ltb_ge; lia).
  rewrite Ring.at_of_nat, Ht, Hw. cbn [negb]. cbv zeta.
  rewrite Nat2Z.id. cbn [withBuffer withTokens tokens].
  rewrite (nextWordIndex_marked _ _ _ _ _ Ht), Hnext.
  destruct (0 <=? next) eqn:E.
  - rewrite checkDrift_completes; [reflexivity|].
    cbn [setPointer withTokens withBuffer tokens pointer]. rewrite length_insert. lia.
  - apply Z.leb_gt in E. assert (next = -1) as -> by lia.
    rewrite checkDrift_completes; [reflexivity|].
    cbn [setPointer withTokens withBuffer tokens pointer]. lia.
Qed.

Lemma checkAutoBacktrack_below_window (state : State) :
  DecisionBuffer.count (decisionBuffer state) < backtrackWindow state ->
  checkAutoBacktrack state = Some state.
Proof.
  intros H. unfold checkAutoBacktrack.
  replace (_ <? _) with true by (symmetry; apply Z.ltb_lt; exact H). reflexivity.
Qed.

(** X10.  Marking a word by hand and then going back: when a later word
    exists and fewer than [backtrackWindow - 1] decisions are recorded
    in a buffer that is not full, [markAndAdvance] marks the word
    under the pointer and moves the pointer to the next word, and
    [backOne] then brings the pointer back and sets the word to
    pending: the tokens and the pointer are as before the mark when
    the word was pending.  The decision count is as before too, but
    the array of the buffer keeps the record of the mark. *)
Theorem backOne_after_markAndAdvance (now : Z) (st : Status) (state : State)
    (idx : nat) (t : Token) (next : Z) :
  pointer state = Z.of_nat idx ->
  tokens state !! idx = Some t -> isWord t = true ->
  Words.nextWordIndex (tokens state) (Z.of_nat idx) = Some next -> 0 <= next ->
  0 <= DecisionBuffer.count (decisionBuffer state) < DecisionBuffer.size (decisionBuffer state) ->
  DecisionBuffer.count (decisionBuffer state) + 1 < backtrackWindow state ->
  exists s1 s2,
    markAndAdvance now st state = Some s1
    /\ tokens s1 = <[idx := setStatus st t]> (tokens state)
    /\ pointer s1 = next
    /\ backOne s1 = Some s2
    /\ tokens s2 = <[idx := setStatus pending t]> (tokens state)
    /\ (status t = pending -> tokens s2 = tokens state)
    /\ pointer s2 = pointer state
    /\ DecisionBuffer.count (decisionBuffer s2) = DecisionBuffer.count (decisionBuffer state)
    /\ DecisionBuffer.buffer (decisionBuffer s2)
       = DecisionBuffer.buffer (decisionBuffer state)
           ++ [Some (Decision.mk (Z.of_nat idx) st now (norm t)
                       (if bool_decide (st = correct) then norm t else []) false)].
Proof.
  intros Hp Ht Hw Hnext Hpos Hcount Hwin.
  destruct (markAndAdvance_on_word now st state idx t Hp Ht Hw)
    as (next' & Hnext' & Hrange & Hmark).
  rewrite Hnext in Hnext'. injection Hnext' as <-.
  set (d := Decision.mk (Z.of_nat idx) st now (norm t)
              (if bool_decide (st = correct) then norm t else []) false) in *.
  assert (Hpush : DecisionBuffer.push d (decisionBuffer state)
                  = DecisionBuffer.mk (DecisionBuffer.size (decisionBuffer state))
                      (DecisionBuffer.buffer (decisionBuffer state) ++ [Some d])
                      (DecisionBuffer.head (decisionBuffer state))
                      (DecisionBuffer.count (decisionBuffer state) + 1)).
  { unfold DecisionBuffer.push.
    replace (_ <? _) with true by (symmetry; apply Z.ltb_lt; lia). reflexivity. }
  rewrite Hpush in Hmark.
  rewrite checkAutoBacktrack_below_window in Hmark by (cbn; lia).
  eexists. eexists. split; [exact Hmark|].
  split; [reflexivity|]. split; [reflexivity|].
  assert (Hprev : prevWordIndex (<[idx := setStatus st t]> (tokens state)) next
                  = Some (Z.of_nat idx)).
  { apply (WordIndex.prev_of_next _ idx (setStatus st t)).
    - apply list_lookup_insert_eq. apply (lookup_lt_Some _ _ _ Ht).
    - exact Hw.
    - rewrite (nextWordIndex_marked _ _ _ _ _ Ht). exact Hnext.
    - exact Hpos. }
  unfold backOne. cbn [pointer tokens].
  replace (next <? 0) with false by (symmetry; apply Z.ltb_ge; lia).
  rewrite Hprev.
  replace (0 <=? Z.of_nat idx) with true by (symmetry; apply Z.leb_le; lia).
  rewrite Ring.at_of_nat.
  rewrite list_lookup_insert_eq by (apply (lookup_lt_Some _ _ _ Ht)).
  rewrite Nat2Z.id. rewrite list_insert_insert_eq.
  split; [reflexivity|]. cbn [tokens setPointer pointer decisionBuffer].
  split; [reflexivity|]. split.
  { intros Hs. apply list_insert_id. rewrite Ht. f_equal.
    destruct t; cbn in *; subst; reflexivity. }
  split; [symmetry; exact Hp|].
  unfold removeLastDecision. cbn [DecisionBuffer.count].
  replace (0 <? _) with true by (symmetry; apply Z.ltb_lt; lia).
  destruct (_ =? 0); cbn [DecisionBuffer.count DecisionBuffer.buffer]; split;
    solve [lia | reflexivity].
Qed.

Lemma backOne_after_markAndAdvance_witness :
  exists s1 s2,
    markAndAdvance 0 correct
      (mkState Samples.tokensXY 0 (Some 0) (DecisionBuffer.new 20) 2 8) = Some s1
    /\ tokens s1 = <[0%nat := setStatus correct (Samples.word "x" 0)]> Samples.tokensXY
    /\ pointer s1 = 2
    /\ backOne s1 = Some s2
    /\ tokens s2 = <[0%nat := setStatus pending (Samples.word "x" 0)]> Samples.tokensXY
    /\ (status (Samples.word "x" 0) = pending -> tokens s2 = Samples.tokensXY)
    /\ pointer s2 = 0
    /\ DecisionBuffer.count (decisionBuffer s2) = 0
    /\ DecisionBuffer.buffer (decisionBuffer s2)
       = [] ++ [Some (Decision.mk (Z.of_nat 0) correct 0 (norm (Samples.word "x" 0))
                        (if bool_decide (correct = correct)
                         then norm (Samples.word "x" 0) else []) false)].
Proof.
  apply (backOne_after_markAndAdvance 0 correct
           (mkState Samples.tokensXY 0 (Some 0) (DecisionBuffer.new 20) 2 8)
           0 (Samples.word "x" 0) 2);
    try reflexivity; cbn; lia.
Defined.

(** X11.  Marking the last word: when no word follows the marked one, and
    fewer than [backtrackWindow - 1] decisions are recorded,
    [markAndAdvance] marks it and sets the pointer to -1; from there
    [backOne] and a further [markAndAdvance] change nothing, so the
    mark on the last word cannot be taken back by hand. *)
Theorem markAndAdvance_last_word (now : Z) (st : Status) (state : State)
    (idx : nat) (t : Token) :
  pointer state = Z.of_nat idx ->
  tokens state !! idx = Some t -> isWord t = true ->
  Words.nextWordIndex (tokens state) (Z.of_nat idx) = Some (-1) ->
  0 <= DecisionBuffer.count (decisionBuffer state) ->
  DecisionBuffer.count (decisionBuffer state) + 1 < backtrackWindow state ->
  exists s1,
    markAndAdvance now st state = Some s1
    /\ tokens s1 = <[idx := setStatus st t]> (tokens state)
    /\ pointer s1 = -1
    /\ backOne s1 = Some s1
    /\ forall now' st', markAndAdvance now' st' s1 = Some s1.
Proof.
  intros Hp Ht Hw Hnext Hcount Hwin.
  destruct (markAndAdvance_on_word now st state idx t Hp Ht Hw)
    as (next' & Hnext' & Hrange & Hmark).
  rewrite Hnext in Hnext'. injection Hnext' as <-.
  rewrite checkAutoBacktrack_below_window in Hmark.
  - eexists. split; [exact Hmark|]. repeat split.
  - cbn [decisionBuffer backtrackWindow]. unfold DecisionBuffer.push.
    destruct (_ <? _); cbn [DecisionBuffer.count]; lia.
Qed.

Lemma markAndAdvance_last_word_witness :
  exists s1,
    markAndAdvance 0 incorrect
      (mkState Samples.tokensXY 2 (Some 2) (DecisionBuffer.new 20) 2 8) = Some s1
    /\ tokens s1 = <[2%nat := setStatus incorrect (Samples.word "y" 2)]> Samples.tokensXY
    /\ pointer s1 = -1
    /\ backOne s1 = Some s1
    /\ forall now' st', markAndAdvance now' st' s1 = Some s1.
Proof.
  apply (markAndAdvance_last_word 0 incorrect
           (mkState Samples.tokensXY 2 (Some 2) (DecisionBuffer.new 20) 2 8)
           2 (Samples.word "y" 2));
    try reflexivity; cbn; lia.
Defined.

(** X12.  The blind spot of the automatic rollback.  While the buffer holds
    more than [backtrackWindow] records but no more than
    [size - backtrackWindow] (9 to 12 records with the values of
    app.js), [checkAutoBacktrack] gets an empty window from
    [getRecent], computes the cost 0 and does nothing, whatever the
    recorded decisions are and whatever calls of [push] and [clear]
    led there, for any threshold that is not negative. *)
Theorem checkAutoBacktrack_blind_spot (cap k : nat) (os : list Op) (state : State) :
  decisionBuffer state = runOps os (DecisionBuffer.new (Z.of_nat cap)) ->
  backtrackWindow state = Z.of_nat k ->
  (0 < k)%nat ->
  (k < length (sinceClear os))%nat ->
  (length (sinceClear os) + k <= cap)%nat ->
  (0 <= backtrackThreshold state)%Q ->
  checkAutoBacktrack state = Some state.
Proof.
  intros Hb Hwin Hk Hmore Hfew Hthr.
  unfold checkAutoBacktrack. rewrite Hb, Hwin, RingMore.runOps_pushAll.
  set (ds := sinceClear os) in *.
  pose proof (Ring.holds_pushAll cap ltac:(lia) ds) as H.
  destruct H as [_ _ Hcount _ _ | h _ Hlen _ _ _ _ _]; [|lia].
  rewrite Hcount.
  replace (_ <? _) with false by (symmetry; apply Z.ltb_ge; lia).
  rewrite RingMore.getRecent_filling by lia.
  rewrite drop_ge by lia. cbn [fmap list_fmap objects].
  change (Binary64.greater (calculateAlignmentCost []) (backtrackThreshold state))
    with (negb (Qle_bool 0 (backtrackThreshold state))).
  replace (Qle_bool 0 (backtrackThreshold state)) with true
    by (symmetry; apply Qle_bool_iff; exact Hthr).
  reflexivity.
Qed.

Lemma checkAutoBacktrack_blind_spot_witness :
  checkAutoBacktrack
    (mkState Samples.sixteenTokens 15 (Some 15)
       (runOps (List.map (fun i => opPush (Samples.decision (Z.of_nat i) incorrect)) (seq 0 9))
          (DecisionBuffer.new (Z.of_nat 20)))
       2 8)
  = Some (mkState Samples.sixteenTokens 15 (Some 15)
            (runOps (List.map (fun i => opPush (Samples.decision (Z.of_nat i) incorrect))
                       (seq 0 9))
               (DecisionBuffer.new (Z.of_nat 20)))
            2 8).
Proof.
  apply (checkAutoBacktrack_blind_spot 20 8
           (List.map (fun i => opPush (Samples.decision (Z.of_nat i) incorrect)) (seq 0 9)));
    try reflexivity; vm_compute; try lia; discriminate.
Defined.

End Marking.

(** ** The session metrics (metrics.js) *)

Module MetricsFacts.
Import Metrics.

Lemma countStatus_cons (st : Status) (t : Token) (ts : list Token) :
  countStatus st (t :: ts)
  = ((if isWord t && bool_decide (status t = st) then 1 else 0) + countStatus st ts)%nat.
Proof.
  unfold countStatus. cbn [List.filter].
  destruct (isWord t && bool_decide (status t = st)); reflexivity.
Qed.

Lemma counts_le_words (ts : list Token) :
  (countStatus correct ts + countStatus incorrect ts + countStatus skipped ts
   + countStatus pending ts + countStatus sep ts
   = length (List.filter isWord ts))%nat.
Proof.
  induction ts as [|t ts IH]; [reflexivity|].
  rewrite !countStatus_cons. cbn [List.filter].
  destruct (isWord t); cbn [andb length]; [|lia].
  destruct (status t); repeat case_bool_decide; try congruence; lia.
Qed.

Lemma countStatus_reset (st : Status) (ts : list Token) :
  st <> pending -> countStatus st (Words.resetWordStatuses ts) = 0%nat.
Proof.
  intros Hst. induction ts as [|t ts IH]; [reflexivity|].
  unfold Words.resetWordStatuses in *. cbn [List.map]. rewrite countStatus_cons, IH.
  destruct (isWord t) eqn:Ew; cbn [isWord setStatus status]; rewrite ?Ew; cbn [andb].
  - rewrite bool_decide_eq_false_2 by congruence. reflexivity.
  - reflexivity.
Qed.

Lemma elapsed_sign (z : Z) : (inject_Z z / 1000 / 60 <= 0)%Q <-> z <= 0.
Proof. unfold Qle, Qdiv, Qmult, Qinv, inject_Z. cbn. lia. Qed.

(** X13.  What the counters of [computeMetrics] add up to: the completed
    words are the words marked correct, incorrect or skipped, and with
    the pending words they are all the words of the text, so
    [completed <= total]; the accuracy is [NaN] exactly when nothing
    is completed and otherwise lies between 0 and 1; the words per
    minute are [NaN] unless the session started (at a time other than
    0) before [now]; and after [resetWordStatuses] nothing is
    completed. *)
Theorem computeMetrics_counts (now : Z) (ts : list Token) (startedAtMs : option Z) :
  Forall (fun t => isWord t = true -> status t <> sep) ts ->
  let m := computeMetrics now ts startedAtMs in
  (completed m + countStatus pending ts = total m)%nat
  /\ (completed m <= total m <= length ts)%nat
  /\ (accuracy m = None <-> completed m = 0%nat)
  /\ (forall q, accuracy m = Some q -> (0 <= q <= 1)%Q)
  /\ (wpm m = None <->
      match startedAtMs with Some s => s = 0 \/ now <= s | None => True end)
  /\ (forall q, wpm m = Some q -> (0 <= q)%Q)
  /\ completed (computeMetrics now (Words.resetWordStatuses ts) startedAtMs) = 0%nat.
Proof.
  intros Hsep m.
  assert (Hnosep : countStatus sep ts = 0%nat).
  { induction Hsep as [|t ts Ht _ IH]; [reflexivity|].
    rewrite countStatus_cons, IH. destruct (isWord t); cbn [andb]; [|reflexivity].
    rewrite bool_decide_eq_false_2 by auto. reflexivity. }
  pose proof (counts_le_words ts) as Hsum.
  assert (Hlen : (length (List.filter isWord ts) <= length ts)%nat)
    by apply List.filter_length_le.
  subst m. unfold computeMetrics. cbn [completed total accuracy wpm].
  set (c := countStatus correct ts) in *. set (i := countStatus incorrect ts) in *.
  set (s := countStatus skipped ts) in *.
  split; [lia|]. split; [lia|]. split; [|split; [|split; [|split]]].
  - destruct (0 <? c + i + s)%nat eqn:E.
    + apply Nat.ltb_lt in E. split; [discriminate | lia].
    + apply Nat.ltb_ge in E. split; [lia | reflexivity].
  - intros q. destruct (0 <? c + i + s)%nat eqn:E; [|discriminate].
    apply Nat.ltb_lt in E. intros [= <-].
    pose proof (Distance.ofNat_pos _ E) as Hpos.
    pose proof (Distance.ofNat_le c (c + i + s) ltac:(lia)) as Hle.
    pose proof (Distance.ofNat_le 0 c (Nat.le_0_l c)) as H0.
    change (Scorer.ofNat 0) with 0%Q in H0.
    split.
    + apply Qle_shift_div_l; [exact Hpos | lra].
    + apply Qle_shift_div_r; [exact Hpos | lra].
  - unfold Aligner.Qltb.
    destruct startedAtMs as [s0|]; [|split; [tauto | reflexivity]].
    destruct (s0 =? 0) eqn:E0.
    + apply Z.eqb_eq in E0. split; [tauto | reflexivity].
    + apply Z.eqb_neq in E0.
      destruct (Qle_bool (inject_Z (now - s0) / 1000 / 60) 0) eqn:Eq; cbn [negb].
      * apply Qle_bool_iff in Eq. apply (proj1 (elapsed_sign _)) in Eq.
        split; [|reflexivity]. intros _. right. lia.
      * split; [discriminate|]. intros [H|H]; [contradiction|]. exfalso.
        assert (Hq : (inject_Z (now - s0) / 1000 / 60 <= 0)%Q)
          by (apply elapsed_sign; lia).
        apply Qle_bool_iff in Hq. congruence.
  - intros q. unfold Aligner.Qltb.
    set (e := (match startedAtMs with
               | Some s0 => if s0 =? 0 then 0 else inject_Z (now - s0) / 1000
               | None => 0
               end / 60)%Q).
    destruct (Qle_bool e 0) eqn:Eq; cbn [negb]; [discriminate|].
    intros [= <-].
    assert (He : (0 < e)%Q).
    { apply Qnot_le_lt. intros H. apply Qle_bool_iff in H. congruence. }
    pose proof (Distance.ofNat_le 0 c (Nat.le_0_l c)) as H0.
    change (Scorer.ofNat 0) with 0%Q in H0.
    apply Qle_shift_div_l; [exact He | lra].
  - rewrite !countStatus_reset by discriminate. reflexivity.
Qed.

Lemma computeMetrics_counts_witness :
  let m := computeMetrics 60000 Samples.sixteenTokens (Some 1) in
  (completed m + countStatus pending Samples.sixteenTokens = total m)%nat
  /\ (completed m <= total m <= length Samples.sixteenTokens)%nat
  /\ (accuracy m = None <-> completed m = 0%nat)
  /\ (forall q, accuracy m = Some q -> (0 <= q <= 1)%Q)
  /\ (wpm m = None <-> 1 = 0 \/ 60000 <= 1)
  /\ (forall q, wpm m = Some q -> (0 <= q)%Q)
  /\ completed (computeMetrics 60000 (Words.resetWordStatuses Samples.sixteenTokens) (Some 1))
     = 0%nat.
Proof.
  apply (computeMetrics_counts 60000 Samples.sixteenTokens (Some 1)).
  unfold Samples.sixteenTokens. cbn [seq List.map].
  repeat (constructor; [cbn; intros; discriminate|]). constructor.
Defined.

End MetricsFacts.

(** ** The beam: pruning and the window (aligner.js) *)

Module Beam.
Import Aligner Views.

Lemma insertByCost_perm (s : AlignmentState) (l : list AlignmentState) :
  Permutation (insertByCost s l) (s :: l).
Proof.
  induction l as [|h t IH]; [reflexivity|].
  cbn [insertByCost]. destruct (Qle_bool (cost s) (cost h)); [reflexivity|].
  rewrite IH. apply perm_swap.
Qed.

Lemma sortByCost_perm (l : list AlignmentState) : Permutation (sortByCost l) l.
Proof.
  induction l as [|s l IH]; [reflexivity|].
  cbn [sortByCost foldr]. fold (sortByCost l).
  rewrite insertByCost_perm, IH. reflexivity.
Qed.

Lemma insertByCost_sorted (s : AlignmentState) (l : list AlignmentState) :
  StronglySorted byCost l -> StronglySorted byCost (insertByCost s l).
Proof.
  induction 1 as [|h t Ht IH Hall]; cbn [insertByCost].
  - constructor; constructor.
  - destruct (Qle_bool (cost s) (cost h)) eqn:E.
    + apply Qle_bool_iff in E. constructor; [constructor; assumption|].
      constructor; [exact E|].
      eapply List.Forall_impl; [|exact Hall]. intros x Hx. unfold byCost in *. lra.
    + assert (Hlt : (cost h <= cost s)%Q).
      { apply Qlt_le_weak, Qnot_le_lt. intros H. apply Qle_bool_iff in H. congruence. }
      constructor; [exact IH|].
      rewrite insertByCost_perm.
      constructor; [exact Hlt | exact Hall].
Qed.

Lemma sortByCost_sorted (l : list AlignmentState) : StronglySorted byCost (sortByCost l).
Proof.
  induction l as [|s l IH]; [constructor|].
  cbn [sortByCost foldr]. apply insertByCost_sorted. exact IH.
Qed.

Lemma sortByCost_of_sorted (l : list AlignmentState) :
  StronglySorted byCost l -> sortByCost l = l.
Proof.
  induction 1 as [|h t Ht IH Hall]; [reflexivity|].
  cbn [sortByCost foldr]. fold (sortByCost t). rewrite IH.
  destruct t as [|h' t']; [reflexivity|]. cbn [insertByCost].
  apply Forall_cons in Hall as [Hh _].
  replace (Qle_bool (cost h) (cost h')) with true
    by (symmetry; apply Qle_bool_iff; exact Hh).
  reflexivity.
Qed.

Lemma StronglySorted_take {A} (R : A -> A -> Prop) (l : list A) :
  StronglySorted R l -> forall n, StronglySorted R (take n l).
Proof.
  induction 1 as [|h t Ht IH Hall]; intros [|n]; cbn [take]; try constructor.
  - apply IH.
  - apply Forall_take. exact Hall.
Qed.

Lemma StronglySorted_split {A} (R : A -> A -> Prop) (l : list A) :
  StronglySorted R l ->
  forall n x y, x ∈ take n l -> y ∈ drop n l -> R x y.
Proof.
  induction 1 as [|h t Ht IH Hall]; intros [|n] x y Hx Hy; cbn [take drop] in *;
    try (apply elem_of_nil in Hx; contradiction).
  apply elem_of_cons in Hx as [->|Hx].
  - rewrite Forall_forall in Hall. apply Hall.
    apply list_elem_of_lookup in Hy as [i Hi]. rewrite lookup_drop in Hi.
    apply (list_elem_of_lookup_2 _ _ _ Hi).
  - apply (IH n); assumption.
Qed.

(** X14.  [_pruneBeam] keeps the [beamWidth] cheapest hypotheses in order of
    cost and drops the rest: the result has [min(beamWidth, n)]
    elements, is sorted by cost, together with the dropped ones it is
    a rearrangement of the input, and no kept hypothesis costs more
    than a dropped one.  A list that is already in order is only
    cut. *)
Theorem _pruneBeam_keeps_cheapest (this : Aligner) (states : list AlignmentState) :
  length (_pruneBeam this states) = Nat.min (beamWidth this) (length states)
  /\ StronglySorted byCost (_pruneBeam this states)
  /\ (exists dropped,
        Permutation states (_pruneBeam this states ++ dropped)
        /\ forall k d, k ∈ _pruneBeam this states -> d ∈ dropped -> byCost k d)
  /\ (StronglySorted byCost states ->
      _pruneBeam this states = take (beamWidth this) states).
Proof.
  unfold _pruneBeam. split; [|split; [|split]].
  - rewrite length_take. rewrite (Permutation_length (sortByCost_perm states)). reflexivity.
  - apply StronglySorted_take, sortByCost_sorted.
  - exists (drop (beamWidth this) (sortByCost states)). split.
    + rewrite take_drop. symmetry. apply sortByCost_perm.
    + intros k d. apply StronglySorted_split, sortByCost_sorted.
  - intros H. rewrite sortByCost_of_sorted by exact H. reflexivity.
Qed.

Lemma windowLoop_closed (ws : nat) (rest : list Token) :
  forall pos count, (count <= ws)%nat ->
    windowLoop ws rest pos count
    = take (ws - count) (List.filter (fun x => isWord (snd x)) (indexedFrom pos rest)).
Proof.
  induction rest as [|t rest IH]; intros pos count Hc.
  - cbn [windowLoop indexedFrom List.filter]. rewrite take_nil. reflexivity.
  - cbn [windowLoop indexedFrom List.filter snd].
    destruct (count <? ws)%nat eqn:E.
    + apply Nat.ltb_lt in E. destruct (isWord t).
      * rewrite IH by lia.
        replace (ws - count)%nat with (S (ws - (count + 1))) by lia.
        reflexivity.
      * apply IH. lia.
    + apply Nat.ltb_ge in E. replace (ws - count)%nat with 0%nat by lia.
      rewrite take_0. reflexivity.
Qed.

Lemma indexedFrom_lookup (ts : list Token) :
  forall pos i t, indexedFrom pos ts !! i = Some (t.1, t.2) ->
    t.1 = pos + Z.of_nat i /\ ts !! i = Some t.2.
Proof.
  induction ts as [|u ts IH]; intros pos i t H; [discriminate|].
  destruct i as [|i]; cbn [indexedFrom] in H.
  - injection H as <- <-. split; [lia | reflexivity].
  - cbn in H. apply IH in H as [H1 H2]. split; [lia | exact H2].
Qed.

(** X15.  [_getTextTokensInWindow(startPos)] for [startPos >= 0] returns the
    first [windowSize] word tokens at or after [startPos], each with
    its index, in text order; separators do not count towards the
    window.  For a negative [startPos] it throws (when the window is
    not empty). *)
Theorem _getTextTokensInWindow_first_words (this : Aligner) (startPos : Z) :
  (0 <= startPos ->
   exists l,
     _getTextTokensInWindow this startPos = inr l
     /\ l = take (windowSize this)
              (List.filter (fun x => isWord (snd x))
                 (indexedFrom startPos (drop (Z.to_nat startPos) (tokens this))))
     /\ (length l <= windowSize this)%nat
     /\ forall i t, (i, t) ∈ l ->
          startPos <= i /\ at_ (tokens this) i = Some t /\ isWord t = true)
  /\ (startPos < 0 -> (0 < windowSize this)%nat ->
      _getTextTokensInWindow this startPos = inl TypeError).
Proof.
  unfold _getTextTokensInWindow. split.
  - intros Hpos.
    replace (startPos <? 0) with false by (symmetry; apply Z.ltb_ge; lia).
    eexists. split; [reflexivity|].
    rewrite windowLoop_closed by lia. rewrite Nat.sub_0_r.
    split; [reflexivity|]. split; [rewrite length_take; lia|].
    intros i t Hin. apply elem_of_take in Hin as (k & Hk & _).
    apply list_elem_of_lookup_2 in Hk. apply list_elem_of_In in Hk.
    apply List.filter_In in Hk as [Hk Hw]. cbn [snd] in Hw.
    apply list_elem_of_In, list_elem_of_lookup in Hk as [j Hj].
    apply (indexedFrom_lookup _ _ _ (i, t)) in Hj as [Hi Ht]. cbn [fst snd] in *.
    rewrite lookup_drop in Ht.
    split; [lia|]. split; [|exact Hw].
    apply Rollback.at_Some. split; [lia|].
    replace (Z.to_nat i) with (Z.to_nat startPos + j)%nat by lia. exact Ht.
  - intros Hneg Hws.
    replace (startPos <? 0) with true by (symmetry; apply Z.ltb_lt; lia).
    replace (0 <? windowSize this)%nat with true by (symmetry; apply Nat.ltb_lt; lia).
    reflexivity.
Qed.

Lemma _getTextTokensInWindow_first_words_witness :
  (exists l,
     _getTextTokensInWindow (new Samples.tokensLong) 1 = inr l
     /\ l = take (windowSize (new Samples.tokensLong))
              (List.filter (fun x => isWord (snd x))
                 (indexedFrom 1 (drop (Z.to_nat 1) (tokens (new Samples.tokensLong)))))
     /\ (length l <= windowSize (new Samples.tokensLong))%nat
     /\ forall i t, (i, t) ∈ l ->
          1 <= i /\ at_ (tokens (new Samples.tokensLong)) i = Some t /\ isWord t = true)
  /\ _getTextTokensInWindow (new []) (-1) = inl TypeError.
Proof.
  split.
  - apply (proj1 (_getTextTokensInWindow_first_words (new Samples.tokensLong) 1)). lia.
  - apply (proj2 (_getTextTokensInWindow_first_words (new []) (-1))); cbn; lia.
Defined.

End Beam.

(** ** What every call on an aligner keeps (aligner.js) *)

Module AlignerKeeps.
Import Aligner AlignerCalls Views.

Lemma keeps_ret {A} (P : Aligner -> Prop) (v : A) : keeps P (ret v).
Proof. intros a H. exact H. Qed.

Lemma keeps_bind {A B} (P : Aligner -> Prop) (m : Method A) (k : A -> Method B) :
  keeps P m -> (forall v, keeps P (k v)) -> keeps P (bind m k).
Proof.
  intros Hm Hk a Ha. unfold bind. specialize (Hm a Ha).
  destruct (m a) as [v a1|e a1]; cbn [stateOf] in *; [apply Hk; exact Hm | exact Hm].
Qed.

Lemma keeps_forEach {A} (P : Aligner -> Prop) (xs : list A) (body : A -> Method unit) :
  (forall x, keeps P (body x)) -> keeps P (forEach xs body).
Proof.
  intros Hb. induction xs as [|x xs IH]; cbn [forEach].
  - apply keeps_ret.
  - apply keeps_bind; [apply Hb | intros _; exact IH].
Qed.

Lemma keeps_update (P : Aligner -> Prop) (f : Aligner -> Aligner) :
  (forall a, P a -> P (f a)) -> keeps P (update f).
Proof. intros Hf a Ha. apply Hf, Ha. Qed.

Lemma _mark_cases (idx : Z) (st : Status) (heard : JSString) (a : Aligner) :
  _mark idx st heard a = Returned tt a
  \/ exists t trace,
       at_ (tokens a) idx = Some t /\ isWord t = true
       /\ _mark idx st heard a
          = Returned tt
              (mkAligner (<[Z.to_nat idx := setStatus st t]> (tokens a)) (pointer a)
                 (beamWidth a) (threshold a) (margin a) (windowSize a)
                 (spokenBuffer a) (beam a) trace).
Proof.
  unfold _mark. destruct (at_ (tokens a) idx) as [t|]; [|left; reflexivity].
  destruct (isWord t) eqn:Ew; cbn [negb]; [|left; reflexivity].
  right. exists t. destruct st; eexists; (split; [reflexivity|]); (split; [exact Ew|]);
    reflexivity.
Qed.

(** The mark a step of a path asks for. *)
Lemma step_mark (step : Step) :
  (marks step = None /\ forall a,
     match step with
     | match_ tp w _ => _mark tp correct w
     | substitution tp w _ _ => _mark tp incorrect w
     | deletion tp _ _ => _mark tp skipped []
     | insertion _ _ => ret tt
     end a = Returned tt a)
  \/ (exists idx st heard,
        marks step = Some idx
        /\ (st = correct \/ st = incorrect \/ st = skipped)
        /\ forall a,
             match step with
             | match_ tp w _ => _mark tp correct w
             | substitution tp w _ _ => _mark tp incorrect w
             | deletion tp _ _ => _mark tp skipped []
             | insertion _ _ => ret tt
             end a = _mark idx st heard a).
Proof.
  destruct step as [tp w c|tp w e c|tp e c|w c].
  - right. exists tp, correct, w. cbn. tauto.
  - right. exists tp, incorrect, w. cbn. tauto.
  - right. exists tp, skipped, []. cbn. tauto.
  - left. split; reflexivity.
Qed.

(** What [_applyPath] keeps, given what each of its marks keeps. *)
Lemma applyPath_ind (P : Aligner -> Prop) (p : list Step) :
  (forall a step idx st t trace,
     P a -> step ∈ p -> marks step = Some idx ->
     at_ (tokens a) idx = Some t -> isWord t = true ->
     st = correct \/ st = incorrect \/ st = skipped ->
     P (mkAligner (<[Z.to_nat idx := setStatus st t]> (tokens a)) (pointer a)
          (beamWidth a) (threshold a) (margin a) (windowSize a)
          (spokenBuffer a) (beam a) trace)) ->
  forall a, P a ->
    exists a1, _applyPath p a = Returned tt a1
               /\ P a1 /\ beam a1 = beam a /\ pointer a1 = pointer a
               /\ spokenBuffer a1 = spokenBuffer a
               /\ beamWidth a1 = beamWidth a /\ threshold a1 = threshold a
               /\ margin a1 = margin a /\ windowSize a1 = windowSize a.
Proof.
  unfold _applyPath. induction p as [|step p IH]; intros Hmark a Ha.
  - exists a. cbn [forEach]. unfold ret. tauto.
  - cbn [forEach].
    assert (Hstep : exists a1,
      match step with
      | match_ tp w _ => _mark tp correct w
      | substitution tp w _ _ => _mark tp incorrect w
      | deletion tp _ _ => _mark tp skipped []
      | insertion _ _ => ret tt
      end a = Returned tt a1
      /\ P a1 /\ beam a1 = beam a /\ pointer a1 = pointer a
      /\ spokenBuffer a1 = spokenBuffer a
      /\ beamWidth a1 = beamWidth a /\ threshold a1 = threshold a
      /\ margin a1 = margin a /\ windowSize a1 = windowSize a).
    { destruct (step_mark step) as [[_ H]|(idx & st & heard & Hm & Hst & H)].
      - exists a. rewrite H. tauto.
      - rewrite H.
        destruct (_mark_cases idx st heard a) as [H1|(t & trace & Ht & Hw & H1)];
          rewrite H1.
        + exists a. tauto.
        + eexists. split; [reflexivity|]. split; [|cbn; tauto].
          apply (Hmark a step idx st t trace); try assumption. left. }
    destruct Hstep as (a1 & H1 & HP1 & Hb1 & Hp1 & Hs1 & Hc1).
    rewrite (Rounds.bind_returned _ _ _ _ _ H1).
    destruct (IH (fun a0 st0 idx st t trace Ha0 Hin =>
                    Hmark a0 st0 idx st t trace Ha0 (list_elem_of_further _ _ _ Hin)) a1 HP1)
      as (a2 & H2 & HP2 & Hb2 & Hp2 & Hs2 & Hc2).
    exists a2. split; [exact H2|]. split; [exact HP2|].
    repeat split; try congruence; intuition congruence.
Qed.

Section Kept.
Context {U : Unicode}.
Variable P : Aligner -> Prop.

Hypothesis P_buffer : forall a v, P a -> P (withSpokenBuffer v a).
Hypothesis P_expand : forall a w out,
  P a -> expandStates a w (beam a) = inr out -> P (withBeam (_pruneBeam a out) a).
Hypothesis P_mark : forall a s step idx st t trace,
  P a -> s ∈ beam a -> step ∈ path s -> marks step = Some idx ->
  at_ (tokens a) idx = Some t -> isWord t = true ->
  st = correct \/ st = incorrect \/ st = skipped ->
  P (mkAligner (<[Z.to_nat idx := setStatus st t]> (tokens a)) (pointer a)
       (beamWidth a) (threshold a) (margin a) (windowSize a)
       (spokenBuffer a) (beam a) trace).
Hypothesis P_commit : forall a s,
  P a -> s ∈ beam a ->
  P (withBeam [mkState (textPos s) 0 0 []]
       (uiCall (uiSetPointer (textPos s)) (withPointer (textPos s) a))).
Hypothesis P_pointer : forall a idx, P a -> P (uiCall (uiSetPointer idx) (withPointer idx a)).
Hypothesis P_config : forall a b t m w, P a -> P (stateOf (setConfig b t m w a)).

Lemma keeps_expand (w : JSString) : keeps P (_expandBeam w).
Proof.
  intros a Ha. unfold _expandBeam.
  destruct (expandStates a w (beam a)) as [e|out] eqn:E; cbn [stateOf]; [exact Ha|].
  apply (P_expand a w out Ha E).
Qed.

Lemma applyPath_keeps (s : AlignmentState) (p : list Step) :
  (forall step, step ∈ p -> step ∈ path s) ->
  forall a, P a -> s ∈ beam a ->
    exists a1, _applyPath p a = Returned tt a1
               /\ P a1 /\ beam a1 = beam a /\ pointer a1 = pointer a
               /\ spokenBuffer a1 = spokenBuffer a
               /\ beamWidth a1 = beamWidth a /\ threshold a1 = threshold a
               /\ margin a1 = margin a /\ windowSize a1 = windowSize a.
Proof.
  intros Hsub a Ha Hs.
  destruct (applyPath_ind (fun x => P x /\ s ∈ beam x) p) with (a := a)
    as (a1 & H1 & [HP1 _] & Hrest); [|split; assumption|].
  - intros a0 step idx st t trace [Ha0 Hs0] Hin Hm Ht Hw Hst. split; [|exact Hs0].
    apply (P_mark a0 s step idx st t trace); auto.
  - exists a1. tauto.
Qed.

Lemma keeps_check : keeps P _checkAdvancement.
Proof.
  intros a Ha. unfold _checkAdvancement.
  destruct (beam a) as [|first others] eqn:Eb; [exact Ha|].
  match goal with |- context [if ?c then _ else _] => destruct c end; [|exact Ha].
  set (best := bestOf first others).
  assert (Hin : best ∈ beam a).
  { rewrite Eb. apply list_elem_of_In. apply Rounds.bestOf_in. }
  destruct (applyPath_keeps best (path best) (fun _ H => H) a Ha Hin)
    as (a1 & H1 & HP1 & Hb1 & _).
  rewrite (Rounds.bind_returned _ _ _ _ _ H1).
  apply (P_commit a1 best HP1). rewrite Hb1. exact Hin.
Qed.

Lemma keeps_process : keeps P _processBeamSearch.
Proof.
  intros a Ha. unfold _processBeamSearch.
  destruct (spokenBuffer a) as [|w ws]; [exact Ha|].
  revert Ha. generalize (w :: ws). intros l Ha. revert a Ha.
  apply keeps_bind; [apply keeps_forEach, keeps_expand|]. intros _.
  apply keeps_bind; [apply keeps_check|]. intros _.
  apply keeps_update. intros a Ha. apply P_buffer, Ha.
Qed.

Lemma keeps_phrase (phrase : JSString) : keeps P (advanceWithPhrase phrase).
Proof.
  unfold advanceWithPhrase. destruct (negb (truthy phrase)); [apply keeps_ret|].
  apply keeps_bind; [|intros _].
  - apply keeps_update. intros a Ha. apply P_buffer, Ha.
  - apply keeps_bind; [apply keeps_process | intros _; apply keeps_ret].
Qed.

Lemma keeps_word (wNorm : JSString) : keeps P (advanceWithWord wNorm).
Proof.
  unfold advanceWithWord. destruct (negb (truthy wNorm)); [apply keeps_ret|].
  destruct (FILLERS_has wNorm); [apply keeps_ret|].
  apply keeps_bind; [|intros _].
  - apply keeps_update. intros a Ha. apply P_buffer, Ha.
  - apply keeps_bind; [apply keeps_process | intros _; apply keeps_ret].
Qed.

Lemma keeps_call (c : Call) (a : Aligner) : P a -> P (runCall c a).
Proof.
  intros Ha. destruct c as [b t m w|idx|phrase|wNorm]; cbn [runCall].
  - apply P_config, Ha.
  - apply P_pointer, Ha.
  - apply keeps_phrase, Ha.
  - apply keeps_word, Ha.
Qed.

Lemma keeps_calls (cs : list Call) : forall a, P a -> P (runCalls cs a).
Proof.
  unfold runCalls. induction cs as [|c cs IH]; intros a Ha; [exact Ha|].
  cbn [fold_left]. apply IH, keeps_call, Ha.
Qed.

End Kept.

(** *** The text of the tokens *)

Lemma markedFrom_refl (t : Token) : markedFrom t t.
Proof. unfold markedFrom, sameWord. tauto. Qed.

Lemma sameText_refl (ts : list Token) : sameText ts ts.
Proof. apply Forall_Forall2_diag, Forall_true, markedFrom_refl. Qed.

Lemma sameText_mark (ts0 ts : list Token) (idx : Z) (st : Status) (t : Token) :
  sameText ts0 ts -> at_ ts idx = Some t -> isWord t = true ->
  st = correct \/ st = incorrect \/ st = skipped ->
  sameText ts0 (<[Z.to_nat idx := setStatus st t]> ts).
Proof.
  intros Hs Ht Hw Hst. apply Rollback.at_Some in Ht as [_ Ht].
  destruct (Forall2_lookup_r _ _ _ _ _ Hs Ht) as (t0 & Ht0 & Hm).
  rewrite <- (list_insert_id ts0 (Z.to_nat idx) t0 Ht0).
  apply Forall2_insert; [exact Hs|].
  destruct Hm as (Hsame & Hsep & _). unfold markedFrom, sameWord in *.
  cbn [setStatus id text norm isWord phonetic status].
  split; [exact Hsame|]. split; [|tauto].
  intros H0. destruct Hsame as (_ & _ & _ & Hw0 & _). congruence.
Qed.

(** X16.  Whatever calls are made on an aligner, its token array keeps its
    length, and every token keeps its id, text, normalized form, word
    flag and phonetic codes; a separator is never changed, and the
    status of a word is either the one it had at construction or one
    of correct, incorrect and skipped: the aligner never sets a word
    back to pending. *)
Theorem tokens_keep_their_text {U : Unicode} (ts : list Token) (cs : list Call) :
  sameText ts (tokens (runCalls cs (new ts)))
  /\ length (tokens (runCalls cs (new ts))) = length ts.
Proof.
  assert (H : sameText ts (tokens (runCalls cs (new ts)))).
  { apply (keeps_calls (fun a => sameText ts (tokens a))); try (intros; assumption).
    - intros a s step idx st t trace Ha _ _ _ Ht Hw Hst. cbn [tokens].
      apply sameText_mark; assumption.
    - apply sameText_refl. }
  split; [exact H|]. symmetry. apply (Forall2_length _ _ _ H).
Qed.

(** *** The configuration *)

Lemma clampFloor_bounds (lo hi : Z) (v : Q) :
  0 <= lo <= hi -> (Z.to_nat lo <= clampFloor lo hi v <= Z.to_nat hi)%nat.
Proof. intros H. unfold clampFloor. lia. Qed.

Lemma clamp_unit (v : Q) : (0 <= Qmin 1 (Qmax 0 v) <= 1)%Q.
Proof.
  split.
  - apply Q.min_glb; [lra | apply Q.le_max_l].
  - apply Q.le_min_l.
Qed.

Lemma configOk_setConfig (a : Aligner) (b t m w : option Q) :
  configOk a -> configOk (stateOf (setConfig b t m w a)).
Proof.
  intros (Hb & Ht & Hm & Hw). unfold configOk, setConfig, update.
  cbn [stateOf beamWidth threshold margin windowSize].
  split; [|split; [|split]].
  - destruct b; [apply (clampFloor_bounds 2 10); lia | exact Hb].
  - destruct t; [apply clamp_unit | exact Ht].
  - destruct m; [apply clamp_unit | exact Hm].
  - destruct w; [apply (clampFloor_bounds 5 20); lia | exact Hw].
Qed.

Lemma configOk_new (ts : list Token) : configOk (new ts).
Proof.
  unfold configOk. cbn. repeat split; try lia; unfold Qle; cbn; lia.
Qed.

(** X17.  Whatever calls are made on an aligner, its configuration stays
    within the bounds of [setConfig] (beam width 2 to 10, threshold
    and margin 0 to 1, window 5 to 20 words), and the beam never holds
    more than 10 hypotheses. *)
Theorem configuration_stays_in_bounds {U : Unicode} (ts : list Token) (cs : list Call) :
  configOk (runCalls cs (new ts))
  /\ (length (beam (runCalls cs (new ts))) <= 10)%nat.
Proof.
  apply (keeps_calls (fun a => configOk a /\ (length (beam a) <= 10)%nat));
    try (intros; assumption).
  - intros a w out [H _] _. split; [exact H|].
    cbn [beam withBeam]. unfold _pruneBeam. rewrite length_take.
    destruct H as (Hb & _). lia.
  - intros a s [H _] _. split; [exact H | cbn; lia].
  - intros a b t m w [H Hl]. split; [apply configOk_setConfig, H | exact Hl].
  - split; [apply configOk_new | cbn; lia].
Qed.

(** *** The bookkeeping of the hypotheses *)

Lemma similarity_unit (a b : JSString) : (0 <= 1 - Scorer.similarity a b <= 1)%Q.
Proof.
  assert (H : (0 <= Scorer.similarity a b <= 1)%Q).
  { unfold Scorer.similarity. rewrite Distance.levenshtein_editDistance.
    apply Distance.ratio_bounds; [|apply Distance.orOne_pos].
    etransitivity; [|apply Distance.orOne_pos].
    unfold Scorer.editDistance.
    pose proof (Distance.editRev_le_max (rev a) (rev b)) as H.
    rewrite !length_rev in H. exact H. }
  lra.
Qed.

Lemma wellFormed_successor (s : AlignmentState) (tp sp : Z) (c : Q) (step : Step) :
  wellFormed s -> stepCost step = c -> (0 <= c <= 1)%Q ->
  sp = (if consumes step then spokenPos s + 1 else spokenPos s) ->
  wellFormed (successor s tp sp c step).
Proof.
  intros (Hc & Hall & Hsp) Hstep Hbound Hpos.
  unfold wellFormed, successor. cbn [cost path spokenPos].
  rewrite List.map_app, List.filter_app. cbn [List.map List.filter].
  split; [|split].
  - rewrite DriftCost.sumQ_app. cbn [Spec.sumQ fold_right]. rewrite Hc, Hstep. ring.
  - apply Forall_app. split; [exact Hall|]. constructor; [|constructor].
    rewrite Hstep. exact Hbound.
  - rewrite Hpos, Hsp. destruct (consumes step).
    + rewrite length_app. cbn [length]. lia.
    + rewrite app_nil_r. reflexivity.
Qed.

Lemma wellFormed_transitions (a : Aligner) (s : AlignmentState) (tp : Z)
    (t : Token) (w : JSString) :
  wellFormed s -> Forall wellFormed (_generateTransitions a s tp t w).
Proof.
  intros Hs. unfold _generateTransitions.
  pose proof (similarity_unit w (norm t)) as Hsim.
  apply Forall_app. split.
  - destruct (_canMatch a w t); [|constructor].
    constructor; [|constructor].
    apply wellFormed_successor; [exact Hs | reflexivity | exact Hsim | reflexivity].
  - constructor; [|constructor; [|constructor; [|constructor]]].
    + apply wellFormed_successor; [exact Hs | reflexivity | exact Hsim | reflexivity].
    + apply wellFormed_successor; [exact Hs | reflexivity | lra | reflexivity].
    + apply wellFormed_successor; [exact Hs | reflexivity | | reflexivity].
      destruct (FILLERS_has w); lra.
Qed.

Lemma wellFormed_expandStates (a : Aligner) (w : JSString) (states : list AlignmentState) :
  Forall wellFormed states ->
  forall out, expandStates a w states = inr out -> Forall wellFormed out.
Proof.
  induction 1 as [|s states Hs _ IH]; intros out Hout; cbn [expandStates] in Hout.
  - injection Hout as <-. constructor.
  - unfold expandState in Hout.
    destruct (_getTextTokensInWindow a (textPos s)) as [e|l]; [discriminate|].
    destruct (expandStates a w states) as [e|outs]; [discriminate|].
    injection Hout as <-. apply Forall_app. split; [|apply IH; reflexivity].
    clear IH. induction l as [|[tp t] l IHl]; cbn [List.map concat]; [constructor|].
    apply Forall_app. split; [apply wellFormed_transitions, Hs | exact IHl].
Qed.

Lemma wellFormed_fresh (p : Z) : wellFormed (mkState p 0 0 []).
Proof.
  unfold wellFormed. cbn. split; [reflexivity|]. split; [constructor | reflexivity].
Qed.

(** X18.  Whatever calls are made on an aligner, every hypothesis in its
    beam has a cost equal to the sum of the costs of the steps on its
    path, each of them between 0 and 1, so that no cost is negative;
    and its spoken position is the number of steps that consume a
    spoken word (all but the deletions). *)
Theorem beam_costs_add_up {U : Unicode} (ts : list Token) (cs : list Call) :
  Forall (fun s => wellFormed s /\ (0 <= cost s)%Q) (beam (runCalls cs (new ts))).
Proof.
  assert (H : Forall wellFormed (beam (runCalls cs (new ts)))).
  { apply (keeps_calls (fun a => Forall wellFormed (beam a))); try (intros; assumption).
    - intros a w out Ha Hout. cbn [beam withBeam]. unfold _pruneBeam.
      apply Forall_take. rewrite Beam.sortByCost_perm.
      apply (wellFormed_expandStates a w _ Ha out Hout).
    - intros a s _ _. cbn [beam withBeam]. constructor; [apply wellFormed_fresh|constructor].
    - cbn. constructor; [apply wellFormed_fresh|constructor]. }
  eapply List.Forall_impl; [|exact H]. intros s Hs. split; [exact Hs|].
  destruct Hs as (Hc & Hall & _). rewrite Hc. clear Hc.
  induction Hall as [|st p Hst _ IH]; cbn [List.map Spec.sumQ fold_right]; [lra|].
  change (fold_right Qplus 0%Q (List.map stepCost p)) with (Spec.sumQ (List.map stepCost p)).
  lra.
Qed.

End AlignerKeeps.

(** ** What a round does (aligner.js) *)

Module AlignerRounds.
Import Aligner AlignerCalls Views AlignerKeeps.

Lemma forEach_expand_frame (ws : list JSString) (a : Aligner) :
  exists b, stateOf (forEach ws _expandBeam a) = withBeam b a.
Proof.
  apply (keeps_forEach (fun x => exists b, x = withBeam b a) ws _expandBeam).
  - intros w. apply keeps_expand.
    intros a0 w0 out [b ->] _. eexists. reflexivity.
  - exists (beam a). symmetry. apply Rounds.withBeam_same.
Qed.

Lemma Qltb_true (x y : Q) : Qltb x y = true <-> (x < y)%Q.
Proof.
  unfold Qltb. rewrite negb_true_iff. split.
  - intros H. apply Qnot_le_lt. intros Hle. apply Qle_bool_iff in Hle. congruence.
  - intros H. destruct (Qle_bool y x) eqn:E; [|reflexivity].
    apply Qle_bool_iff in E. exfalso. apply (Qlt_not_le _ _ H E).
Qed.

Lemma Qltb_false (x y : Q) : Qltb x y = false <-> (y <= x)%Q.
Proof.
  unfold Qltb. rewrite negb_false_iff. apply Qle_bool_iff.
Qed.

(** [reduce] keeps the first of the cheapest hypotheses. *)
Lemma reduce_cheapestFirst (others : list AlignmentState) :
  forall (seen : list AlignmentState) (best : AlignmentState),
    cheapestFirst best seen ->
    cheapestFirst
      (fold_left (fun best current => if Qltb (cost current) (cost best) then current else best)
         others best)
      (seen ++ others).
Proof.
  induction others as [|o others IH]; intros seen best Hbest; cbn [fold_left].
  - rewrite app_nil_r. exact Hbest.
  - replace (seen ++ o :: others) with ((seen ++ [o]) ++ others)
      by (rewrite <- app_assoc; reflexivity).
    apply IH. destruct Hbest as (i & Hi & Hmin & Hfirst).
    destruct (Qltb (cost o) (cost best)) eqn:E.
    + apply Qltb_true in E. exists (length seen).
      split; [apply list_lookup_middle; reflexivity|]. split.
      * intros s Hs. apply elem_of_app in Hs as [Hs|Hs].
        -- apply Qlt_le_weak. eapply Qlt_le_trans; [exact E | apply Hmin, Hs].
        -- apply list_elem_of_singleton in Hs as ->. apply Qle_refl.
      * intros j s Hj Hs. rewrite lookup_app_l in Hs by exact Hj.
        eapply Qlt_le_trans; [exact E|]. apply Hmin.
        apply list_elem_of_lookup. eauto.
    + apply Qltb_false in E. exists i.
      split; [apply lookup_app_l_Some; exact Hi|]. split.
      * intros s Hs. apply elem_of_app in Hs as [Hs|Hs]; [apply Hmin, Hs|].
        apply list_elem_of_singleton in Hs as ->. exact E.
      * intros j s Hj Hs. apply (Hfirst j s Hj).
        rewrite lookup_app_l in Hs; [exact Hs|].
        apply lookup_lt_Some in Hi. lia.
Qed.

Lemma bestOf_cheapestFirst (first : AlignmentState) (others : list AlignmentState) :
  cheapestFirst (bestOf first others) (first :: others).
Proof.
  apply (reduce_cheapestFirst others [first] first).
  exists 0%nat. split; [reflexivity|]. split.
  - intros s Hs. apply list_elem_of_singleton in Hs as ->. apply Qle_refl.
  - intros j s Hj. lia.
Qed.

Lemma cheapestFirst_in (best : AlignmentState) (b : list AlignmentState) :
  cheapestFirst best b -> best ∈ b.
Proof. intros (i & Hi & _). apply list_elem_of_lookup. eauto. Qed.

(** The hypothesis a commit follows is determined by the beam. *)
Lemma cheapestFirst_unique (best best' : AlignmentState) (b : list AlignmentState) :
  cheapestFirst best b -> cheapestFirst best' b -> best = best'.
Proof.
  intros (i & Hi & Hmin & Hfirst) (j & Hj & Hmin' & Hfirst').
  destruct (lt_eq_lt_dec i j) as [[Hlt|Heq]|Hgt].
  - exfalso. apply (Qlt_not_le _ _ (Hfirst' i best Hlt Hi)).
    apply Hmin. apply list_elem_of_lookup. eauto.
  - subst j. congruence.
  - exfalso. apply (Qlt_not_le _ _ (Hfirst j best' Hgt Hj)).
    apply Hmin'. apply list_elem_of_lookup. eauto.
Qed.

Lemma check_cases (a : Aligner) :
  _checkAdvancement a = Returned tt a
  \/ exists best a3,
       cheapestFirst best (beam a)
       /\ _applyPath (path best) a = Returned tt a3
       /\ _checkAdvancement a
          = Returned tt
              (withBeam [mkState (textPos best) 0 0 []]
                 (uiCall (uiSetPointer (textPos best)) (withPointer (textPos best) a3))).
Proof.
  unfold _checkAdvancement. destruct (beam a) as [|first others] eqn:Eb; [left; reflexivity|].
  match goal with |- context [if ?c then _ else _] => destruct c end; [|left; reflexivity].
  right. set (best := bestOf first others).
  destruct (Rounds._applyPath_frame (path best) a) as (a3 & H3 & _).
  exists best, a3. split; [apply bestOf_cheapestFirst|]. split; [exact H3|].
  rewrite (Rounds.bind_returned _ _ _ _ _ H3). reflexivity.
Qed.

(** The two outcomes of [_processBeamSearch]: only the beam and the
    buffer change, or the path of the best hypothesis is applied, the
    pointer set and the beam reset. *)
Lemma process_cases (a1 : Aligner) :
  (exists b sb, stateOf (_processBeamSearch a1) = withSpokenBuffer sb (withBeam b a1))
  \/ exists b best a3,
       cheapestFirst best b
       /\ stateOf (forEach (spokenBuffer a1) _expandBeam a1) = withBeam b a1
       /\ _applyPath (path best) (withBeam b a1) = Returned tt a3
       /\ _processBeamSearch a1
          = Returned tt
              (withSpokenBuffer []
                 (withBeam [mkState (textPos best) 0 0 []]
                    (uiCall (uiSetPointer (textPos best))
                       (withPointer (textPos best) a3)))).
Proof.
  unfold _processBeamSearch. destruct (spokenBuffer a1) as [|w ws] eqn:Es.
  - left. exists (beam a1), []. destruct a1. cbn in *. subst. reflexivity.
  - destruct (forEach_expand_frame (w :: ws) a1) as [b Hb].
    destruct (forEach (w :: ws) _expandBeam a1) as [[] a2|e a2] eqn:E;
      cbn [stateOf] in Hb; subst a2.
    + rewrite (Rounds.bind_returned _ _ _ _ _ E).
      destruct (check_cases (withBeam b a1)) as [Hc|(best & a3 & Hin & H3 & Hc)].
      * rewrite (Rounds.bind_returned _ _ _ _ _ Hc).
        left. exists b, []. reflexivity.
      * rewrite (Rounds.bind_returned _ _ _ _ _ Hc).
        right. exists b, best, a3. repeat split; assumption.
    + rewrite (Rounds.bind_threw _ _ _ _ _ E).
      left. exists b, (w :: ws). cbn [stateOf]. destruct a1. cbn in *. subst. reflexivity.
Qed.

Section WithUnicode.
Context {U : Unicode}.

(** The state on which [advanceWithPhrase] runs the search. *)
Lemma phrase_cases (phrase : JSString) (a : Aligner) :
  (phrase = [] /\ advanceWithPhrase phrase a = Returned 0%nat a)
  \/ (phrase <> []
      /\ exists a1,
           a1 = withSpokenBuffer (spokenBuffer a ++ wordsOf phrase) a
           /\ advanceWithPhrase phrase a
              = match _processBeamSearch a1 with
                | Returned _ a' => Returned (length (wordsOf phrase)) a'
                | Threw e a' => Threw e a'
                end).
Proof.
  unfold advanceWithPhrase. destruct phrase as [|c phrase]; [left; split; reflexivity|].
  right. split; [discriminate|]. eexists. split; [reflexivity|].
  cbn [truthy negb]. unfold bind, update. cbn beta iota.
  destruct (_processBeamSearch _); reflexivity.
Qed.

(** X19.  A round of [advanceWithPhrase] is all or nothing.  Either it
    leaves the tokens, the pointer and the hooks untouched (only the
    beam and the buffer of spoken words may differ), or it commits to
    the best hypothesis of the expanded beam, which is its cheapest
    one and, among equally cheap ones, the first: the tokens are
    marked as the path of that hypothesis says and in no other way,
    the pointer moves to the text position of that hypothesis,
    [ui.setPointer] is told so last of all, the beam is reset to the
    single fresh hypothesis at the new pointer and the buffer is
    emptied.  The configuration is never changed. *)
Theorem round_commits_or_waits (a : Aligner) (phrase : JSString) :
  let a' := stateOf (advanceWithPhrase phrase a) in
  (beamWidth a' = beamWidth a /\ threshold a' = threshold a
   /\ margin a' = margin a /\ windowSize a' = windowSize a)
  /\ ((tokens a' = tokens a /\ pointer a' = pointer a /\ uiTrace a' = uiTrace a)
      \/ (exists best,
            let a2 := beforeCheck phrase a in
            let a3 := stateOf (_applyPath (path best) a2) in
            cheapestFirst best (beam a2)
            /\ (forall other, cheapestFirst other (beam a2) -> other = best)
            /\ tokens a2 = tokens a /\ uiTrace a2 = uiTrace a
            /\ tokens a' = tokens a3
            /\ pointer a' = textPos best
            /\ uiTrace a' = uiTrace a3 ++ [uiSetPointer (textPos best)])
         /\ sameText (tokens a) (tokens a')
         /\ beam a' = [mkState (pointer a') 0 0 []]
         /\ spokenBuffer a' = []
         /\ last (uiTrace a') = Some (uiSetPointer (pointer a'))).
Proof.
  cbv zeta.
  destruct (phrase_cases phrase a) as [[_ H]|(_ & a1 & Ha1 & H)]; rewrite H; clear H.
  { cbn [stateOf]. tauto. }
  destruct (process_cases a1) as [(b & sb & Hp)|(b & best & a3 & Hin & Hb & H3 & Hp)].
  - assert (Hs : stateOf match _processBeamSearch a1 with
                         | Returned _ a' => Returned (length (wordsOf phrase)) a'
                         | Threw e a' => Threw e a'
                         end = withSpokenBuffer sb (withBeam b a1)).
    { rewrite <- Hp. destruct (_processBeamSearch a1); reflexivity. }
    rewrite Hs, Ha1. cbn. tauto.
  - rewrite Hp. cbn [stateOf].
    assert (H2 : beforeCheck phrase a = withBeam b a1).
    { unfold beforeCheck. cbv zeta. rewrite <- Ha1. exact Hb. }
    destruct (applyPath_ind (fun x => sameText (tokens a) (tokens x)) (path best))
      with (a := withBeam b a1) as (a3' & H3' & Hsame & _ & _ & _ & Hcfg).
    + intros a0 step idx st t trace Ha0 _ _ Ht Hw Hst. cbn [tokens].
      apply sameText_mark; assumption.
    + rewrite Ha1. cbn [tokens withBeam withSpokenBuffer]. apply sameText_refl.
    + rewrite H3 in H3'. injection H3' as <-.
      rewrite Ha1 in Hcfg. cbn in Hcfg. split; [cbn; tauto|]. right.
      split.
      * exists best. rewrite H2, H3. cbn [stateOf].
        split; [exact Hin|].
        split; [intros other Ho; apply (cheapestFirst_unique _ _ _ Ho Hin)|].
        rewrite Ha1. cbn. tauto.
      * split; [exact Hsame|]. cbn. rewrite last_snoc. tauto.
Qed.

End WithUnicode.

(** *** Marks fall between the old pointer and the new one *)

Lemma aheadOf_successor (p : Z) (s : AlignmentState) (i sp : Z) (c : Q) (step : Step)
    (tp' : Z) :
  aheadOf p s -> textPos s <= i ->
  (tp' = i + 1 /\ marks step = Some i) \/ (tp' = i /\ marks step = None) ->
  aheadOf p (successor s tp' sp c step).
Proof.
  intros [Hp Hpath] Hi Hstep. unfold aheadOf, successor. cbn [textPos path].
  split; [lia|]. intros st tp Hin Hm. apply elem_of_app in Hin as [Hin|Hin].
  - specialize (Hpath st tp Hin Hm). lia.
  - apply list_elem_of_singleton in Hin as ->.
    destruct Hstep as [[-> Hs]|[-> Hs]]; rewrite Hs in Hm; [|discriminate].
    injection Hm as <-. lia.
Qed.

Lemma aheadOf_transitions (a : Aligner) (p : Z) (s : AlignmentState) (i : Z)
    (t : Token) (w : JSString) :
  aheadOf p s -> textPos s <= i -> Forall (aheadOf p) (_generateTransitions a s i t w).
Proof.
  intros Hs Hi. unfold _generateTransitions. apply Forall_app. split.
  - destruct (_canMatch a w t); [|constructor]. constructor; [|constructor].
    apply (aheadOf_successor p s i); [exact Hs | exact Hi | left; split; reflexivity].
  - constructor; [|constructor; [|constructor; [|constructor]]].
    + apply (aheadOf_successor p s i); [exact Hs | exact Hi | left; split; reflexivity].
    + apply (aheadOf_successor p s i); [exact Hs | exact Hi | left; split; reflexivity].
    + apply (aheadOf_successor p s i); [exact Hs | exact Hi | right; split; reflexivity].
Qed.

Lemma aheadOf_expandStates (a : Aligner) (w : JSString) (p : Z)
    (states : list AlignmentState) :
  Forall (aheadOf p) states ->
  forall out, expandStates a w states = inr out -> Forall (aheadOf p) out.
Proof.
  induction 1 as [|s states Hs _ IH]; intros out Hout; cbn [expandStates] in Hout.
  - injection Hout as <-. constructor.
  - unfold expandState in Hout.
    destruct (_getTextTokensInWindow a (textPos s)) as [e|l] eqn:Ew; [discriminate|].
    destruct (expandStates a w states) as [e|outs]; [discriminate|].
    injection Hout as <-. apply Forall_app. split; [|apply IH; reflexivity].
    pose proof (Rounds.window_from _ _ _ Ew) as Hfrom. clear IH Ew.
    induction l as [|[i t] l IHl]; cbn [List.map concat]; [constructor|].
    apply Forall_app. split.
    + apply aheadOf_transitions; [exact Hs|]. apply (Hfrom i t). left. reflexivity.
    + apply IHl. intros j u Hin. apply (Hfrom j u). right. exact Hin.
Qed.

Lemma ahead_expand (a : Aligner) (w : JSString) (out : list AlignmentState) :
  ahead a -> expandStates a w (beam a) = inr out -> ahead (withBeam (_pruneBeam a out) a).
Proof.
  intros Ha Hout. unfold ahead. cbn [beam pointer withBeam]. unfold _pruneBeam.
  apply Forall_take. rewrite Beam.sortByCost_perm.
  apply (aheadOf_expandStates a w _ _ Ha out Hout).
Qed.

Lemma ahead_commit (a : Aligner) (s : AlignmentState) :
  ahead a -> s ∈ beam a ->
  ahead (withBeam [mkState (textPos s) 0 0 []]
           (uiCall (uiSetPointer (textPos s)) (withPointer (textPos s) a))).
Proof.
  intros _ _. unfold ahead. cbn. constructor; [|constructor].
  split; [cbn; lia|]. cbn. intros step tp Hin. apply elem_of_nil in Hin. contradiction.
Qed.

Lemma ahead_new (ts : list Token) : ahead (new ts).
Proof.
  unfold ahead. cbn. constructor; [|constructor].
  split; [cbn; lia|]. cbn. intros step tp Hin. apply elem_of_nil in Hin. contradiction.
Qed.

Section WithUnicode.
Context {U : Unicode}.

Lemma ahead_calls (cs : list Call) :
  Forall notSetPointer cs -> forall a, ahead a -> ahead (runCalls cs a).
Proof.
  unfold runCalls. induction 1 as [|c cs Hc _ IH]; intros a Ha; [exact Ha|].
  cbn [fold_left]. apply IH.
  destruct c as [b t m w|idx|phrase|wNorm]; cbn [runCall].
  - exact Ha.
  - destruct Hc.
  - apply (keeps_phrase ahead); try (intros; assumption);
      [apply ahead_expand | apply ahead_commit].
  - apply (keeps_word ahead); try (intros; assumption);
      [apply ahead_expand | apply ahead_commit].
Qed.

Lemma round_between (a : Aligner) (phrase : JSString) :
  ahead a ->
  let a' := stateOf (advanceWithPhrase phrase a) in
  pointer a <= pointer a'
  /\ forall i : nat, Z.of_nat i < pointer a \/ pointer a' <= Z.of_nat i ->
                    tokens a' !! i = tokens a !! i.
Proof.
  intros Ha. cbv zeta.
  destruct (phrase_cases phrase a) as [[_ H]|(_ & a1 & Ha1 & H)]; rewrite H; clear H.
  { cbn [stateOf]. split; [lia | reflexivity]. }
  destruct (process_cases a1) as [(b & sb & Hp)|(b & best & a3 & Hin & Hb & H3 & Hp)].
  - assert (Hs : stateOf match _processBeamSearch a1 with
                         | Returned _ a' => Returned (length (wordsOf phrase)) a'
                         | Threw e a' => Threw e a'
                         end = withSpokenBuffer sb (withBeam b a1)).
    { rewrite <- Hp. destruct (_processBeamSearch a1); reflexivity. }
    rewrite Hs, Ha1. cbn. split; [lia | reflexivity].
  - rewrite Hp. cbn [stateOf].
    assert (Ha2 : ahead (withBeam b a1)).
    { rewrite <- Hb.
      apply (keeps_forEach ahead).
      - intros w. apply keeps_expand. apply ahead_expand.
      - rewrite Ha1. exact Ha. }
    assert (Hbest : aheadOf (pointer a) best).
    { unfold ahead in Ha2. rewrite Forall_forall in Ha2.
      specialize (Ha2 best (cheapestFirst_in _ _ Hin)). rewrite Ha1 in Ha2. exact Ha2. }
    destruct Hbest as [Hle Hmarks].
    cbn [pointer tokens withSpokenBuffer withBeam uiCall withPointer].
    split; [exact Hle|]. intros i Hi.
    destruct (applyPath_ind (fun x => tokens x !! i = tokens a !! i) (path best))
      with (a := withBeam b a1) as (a3' & H3' & Hsame & _).
    + intros a0 step idx st t trace Ha0 Hstep Hm Ht Hw Hst. cbn [tokens].
      specialize (Hmarks step idx Hstep Hm).
      apply Rollback.at_Some in Ht as [Hidx _].
      rewrite list_lookup_insert_ne by lia. exact Ha0.
    + rewrite Ha1. reflexivity.
    + rewrite H3 in H3'. injection H3' as <-. exact Hsame.
Qed.

(** X20.  As long as the caller does not move the pointer itself
    ([setPointer]), a round of [advanceWithPhrase] marks only tokens
    from the old pointer up to, not including, the new one: the
    pointer does not move back, the words behind it keep their status,
    and so does everything from the new pointer on. *)
Theorem marks_between_pointers (ts : list Token) (cs : list Call) (phrase : JSString) :
  Forall notSetPointer cs ->
  let a := runCalls cs (new ts) in
  let a' := stateOf (advanceWithPhrase phrase a) in
  pointer a <= pointer a'
  /\ forall i : nat, Z.of_nat i < pointer a \/ pointer a' <= Z.of_nat i ->
                    tokens a' !! i = tokens a !! i.
Proof.
  intros Hcs. apply round_between. apply ahead_calls; [exact Hcs | apply ahead_new].
Qed.

End WithUnicode.

Lemma marks_between_pointers_witness :
  let a := @runCalls Latin1 [callAdvanceWithPhrase (lit "x")] (new Samples.tokensXY) in
  let a' := stateOf (@advanceWithPhrase Latin1 (lit "y") a) in
  pointer a <= pointer a'
  /\ forall i : nat, Z.of_nat i < pointer a \/ pointer a' <= Z.of_nat i ->
                    tokens a' !! i = tokens a !! i.
Proof.
  apply (@marks_between_pointers Latin1 Samples.tokensXY
           [callAdvanceWithPhrase (lit "x")] (lit "y")).
  constructor; [exact I | constructor].
Defined.

End AlignerRounds.

(** ** When a call throws (aligner.js) *)

Module AlignerThrows.
Import Aligner AlignerCalls Views AlignerKeeps.

Lemma firstWordFrom_cases (ts : list Token) :
  forall i, 0 <= i ->
    (firstWordFrom ts i = -1 /\ Forall notWord ts)
    \/ (0 <= firstWordFrom ts i /\ exists t, t ∈ ts /\ isWord t = true).
Proof.
  induction ts as [|t ts IH]; intros i Hi.
  - left. split; [reflexivity | constructor].
  - cbn [firstWordFrom]. destruct (isWord t) eqn:Ew.
    + right. split; [lia|]. exists t. split; [left | exact Ew].
    + destruct (IH (i + 1) ltac:(lia)) as [[H1 H2]|[H1 (u & Hu & Hw)]].
      * left. split; [exact H1 | constructor; [exact Ew | exact H2]].
      * right. split; [exact H1|]. exists u. split; [right; exact Hu | exact Hw].
Qed.

(** *** A text with a word *)

Lemma nonNegative_expand (a : Aligner) (w : JSString) (out : list AlignmentState) :
  nonNegative a -> expandStates a w (beam a) = inr out ->
  nonNegative (withBeam (_pruneBeam a out) a).
Proof.
  intros Ha Hout. unfold nonNegative. cbn [beam withBeam].
  apply (Rounds._pruneBeam_from a 0). apply (Rounds.expandStates_from a w 0 _ Ha out Hout).
Qed.

Lemma nonNegative_commit (a : Aligner) (s : AlignmentState) :
  nonNegative a -> s ∈ beam a ->
  nonNegative (withBeam [mkState (textPos s) 0 0 []]
                 (uiCall (uiSetPointer (textPos s)) (withPointer (textPos s) a))).
Proof.
  intros Ha Hs. unfold nonNegative in *. cbn [beam withBeam].
  rewrite Forall_forall in Ha. constructor; [|constructor]. cbn. apply Ha, Hs.
Qed.

Lemma expandStates_returns (a : Aligner) (w : JSString) (states : list AlignmentState) :
  Forall (fun s => 0 <= textPos s) states -> exists out, expandStates a w states = inr out.
Proof.
  induction 1 as [|s states Hs _ [outs IH]]; [eexists; reflexivity|].
  cbn [expandStates]. unfold expandState, _getTextTokensInWindow.
  replace (textPos s <? 0) with false by (symmetry; apply Z.ltb_ge; exact Hs).
  rewrite IH. eexists. reflexivity.
Qed.

Lemma expand_returns (w : JSString) (a : Aligner) :
  nonNegative a -> exists a', _expandBeam w a = Returned tt a' /\ nonNegative a'.
Proof.
  intros Ha. unfold _expandBeam.
  destruct (expandStates_returns a w (beam a) Ha) as [out Hout]. rewrite Hout.
  eexists. split; [reflexivity|]. apply (nonNegative_expand a w out Ha Hout).
Qed.

Lemma forEach_expand_returns (ws : list JSString) :
  forall a, nonNegative a ->
    exists a', forEach ws _expandBeam a = Returned tt a' /\ nonNegative a'.
Proof.
  induction ws as [|w ws IH]; intros a Ha.
  - exists a. split; [reflexivity | exact Ha].
  - cbn [forEach]. destruct (expand_returns w a Ha) as (a1 & H1 & Ha1).
    rewrite (Rounds.bind_returned _ _ _ _ _ H1). apply IH, Ha1.
Qed.

Lemma process_returns (a : Aligner) :
  nonNegative a ->
  exists a', _processBeamSearch a = Returned tt a' /\ spokenBuffer a' = [].
Proof.
  intros Ha. unfold _processBeamSearch. destruct (spokenBuffer a) as [|w ws] eqn:Es.
  - exists a. split; [reflexivity | exact Es].
  - destruct (forEach_expand_returns (w :: ws) a Ha) as (a1 & H1 & Ha1).
    rewrite (Rounds.bind_returned _ _ _ _ _ H1).
    destruct (AlignerRounds.check_cases a1) as [Hc|(best & a3 & _ & _ & Hc)];
      rewrite (Rounds.bind_returned _ _ _ _ _ Hc); eexists; (split; [reflexivity|]);
      reflexivity.
Qed.

Section WithUnicode.
Context {U : Unicode}.

Lemma nonNegative_calls (cs : list Call) :
  forall a, nonNegative a -> nonNegative (runCalls cs a).
Proof.
  apply (keeps_calls nonNegative); try (intros; assumption).
  - apply nonNegative_expand.
  - apply nonNegative_commit.
Qed.

(** X21.  An aligner built on a text with at least one word never throws:
    whatever calls were made before, [advanceWithPhrase] returns the
    number of words of the phrase and leaves the buffer of spoken
    words empty (for a phrase that is not the empty string), and
    [advanceWithWord] returns whether the word is neither empty nor a
    filler.  No hypothesis of the beam ever lies before the array. *)
Theorem with_a_word_nothing_throws (ts : list Token) (cs : list Call) :
  (exists t, t ∈ ts /\ isWord t = true) ->
  let a := runCalls cs (new ts) in
  nonNegative a
  /\ (forall phrase, exists a',
        advanceWithPhrase phrase a = Returned (length (wordsOf phrase)) a'
        /\ (phrase <> [] -> spokenBuffer a' = []))
  /\ (forall wNorm, exists a',
        advanceWithWord wNorm a = Returned (truthy wNorm && negb (FILLERS_has wNorm)) a').
Proof.
  intros (t & Ht & Hw). cbv zeta.
  assert (Ha : nonNegative (runCalls cs (new ts))).
  { apply nonNegative_calls. unfold nonNegative. cbn. constructor; [|constructor]. cbn.
    destruct (firstWordFrom_cases ts 0 ltac:(lia)) as [[_ Hnone]|[Hpos _]]; [|exact Hpos].
    rewrite Forall_forall in Hnone. specialize (Hnone t Ht). unfold notWord in Hnone.
    congruence. }
  split; [exact Ha|]. set (a := runCalls cs (new ts)) in *. split.
  - intros phrase.
    destruct (AlignerRounds.phrase_cases phrase a) as [[-> H]|(_ & a1 & Ha1 & H)].
    + exists a. split; [exact H | congruence].
    + destruct (process_returns a1) as (a' & Hp & Hb).
      { rewrite Ha1. exact Ha. }
      rewrite H, Hp. exists a'. split; [reflexivity | intros _; exact Hb].
  - intros wNorm. unfold advanceWithWord.
    destruct (truthy wNorm); cbn [negb andb]; [|eexists; reflexivity].
    destruct (FILLERS_has wNorm); cbn [negb]; [eexists; reflexivity|].
    destruct (process_returns (withSpokenBuffer [wNorm] a)) as (a' & Hp & _); [exact Ha|].
    exists a'. unfold bind, update. rewrite Hp. reflexivity.
Qed.

(** *** A text without words *)

Lemma stuck_calls (ts : list Token) (cs : list Call) :
  forall a, stuck ts a -> stuck ts (runCalls cs a).
Proof.
  apply (keeps_calls (stuck ts)); try (intros; assumption).
  - intros a w out (Hb & _ & (_ & _ & _ & Hw)) Hout. exfalso.
    rewrite Hb in Hout. cbn [expandStates] in Hout.
    unfold expandState, _getTextTokensInWindow in Hout. cbn [textPos] in Hout.
    replace (-1 <? 0) with true in Hout by reflexivity.
    replace (0 <? windowSize a)%nat with true in Hout
      by (symmetry; apply Nat.ltb_lt; lia).
    discriminate.
  - intros a s step idx st t trace (Hb & _) Hs Hstep. exfalso.
    rewrite Hb in Hs. apply list_elem_of_singleton in Hs. subst s.
    cbn in Hstep. apply elem_of_nil in Hstep. exact Hstep.
  - intros a s (Hb & Ht & Hc) Hs.
    rewrite Hb in Hs. apply list_elem_of_singleton in Hs. subst s.
    split; [reflexivity|]. split; [exact Ht | exact Hc].
  - intros a b t m w (Hb & Ht & Hc). split; [exact Hb|]. split; [exact Ht|].
    apply configOk_setConfig, Hc.
Qed.

Lemma stuck_throws (ts : list Token) (a : Aligner) (w : JSString) (ws : list JSString) :
  stuck ts a -> spokenBuffer a = w :: ws -> _processBeamSearch a = Threw TypeError a.
Proof.
  intros (Hb & _ & (_ & _ & _ & Hw)) Hs. unfold _processBeamSearch. rewrite Hs.
  apply Rounds.bind_threw. cbn [forEach]. apply Rounds.bind_threw.
  unfold _expandBeam. rewrite Hb. cbn [expandStates].
  unfold expandState, _getTextTokensInWindow. cbn [textPos].
  replace (-1 <? 0) with true by reflexivity.
  replace (0 <? windowSize a)%nat with true by (symmetry; apply Nat.ltb_lt; lia).
  reflexivity.
Qed.

(** X22.  An aligner built on a text without any word (the empty text, or
    separators only) has its pointer at -1 and throws a [TypeError] on
    every phrase that holds a word, whatever calls were made before:
    no token is marked, the beam stays as it is, and the words of the
    phrase stay in the buffer of spoken words.  [advanceWithWord]
    throws as well for a word that is neither empty nor a filler. *)
Theorem wordless_text_throws (ts : list Token) (cs : list Call) (phrase : JSString) :
  Forall notWord ts -> wordsOf phrase <> [] ->
  let a := runCalls cs (new ts) in
  advanceWithPhrase phrase a
  = Threw TypeError (withSpokenBuffer (spokenBuffer a ++ wordsOf phrase) a)
  /\ tokens a = ts
  /\ beam a = [mkState (-1) 0 0 []]
  /\ (forall wNorm, truthy wNorm = true -> FILLERS_has wNorm = false ->
        advanceWithWord wNorm a = Threw TypeError (withSpokenBuffer [wNorm] a)).
Proof.
  intros Hts Hwords. cbv zeta.
  assert (Hnew : stuck ts (new ts)).
  { unfold stuck. split; [|split; [reflexivity | apply configOk_new]].
    cbn. unfold _firstWordIndex.
    destruct (firstWordFrom_cases ts 0 ltac:(lia)) as [[-> _]|[_ (t & Ht & Hw)]];
      [reflexivity|].
    rewrite Forall_forall in Hts. specialize (Hts t Ht). unfold notWord in Hts. congruence. }
  pose proof (stuck_calls ts cs _ Hnew) as Ha. set (a := runCalls cs (new ts)) in *.
  split; [|split; [apply Ha | split; [apply Ha|]]].
  - destruct (AlignerRounds.phrase_cases phrase a) as [[-> _]|(_ & a1 & Ha1 & H)].
    + exfalso. apply Hwords. apply Rounds.wordsOf_empty.
    + rewrite H. subst a1.
      destruct (spokenBuffer a ++ wordsOf phrase) as [|w ws] eqn:E.
      { apply app_eq_nil in E as [_ E]. contradiction. }
      rewrite (stuck_throws ts _ w ws); [reflexivity | exact Ha | reflexivity].
  - intros wNorm Ht Hf. unfold advanceWithWord. rewrite Ht, Hf. cbn [negb].
    unfold bind, update. rewrite (stuck_throws ts _ wNorm []); [reflexivity | exact Ha|].
    reflexivity.
Qed.

End WithUnicode.

Lemma with_a_word_nothing_throws_witness :
  let a := @runCalls Latin1 [callSetPointer (-3); callAdvanceWithPhrase (lit "x")]
             (new Samples.tokensXY) in
  nonNegative a
  /\ (forall phrase, exists a',
        @advanceWithPhrase Latin1 phrase a = Returned (length (@wordsOf Latin1 phrase)) a'
        /\ (phrase <> [] -> spokenBuffer a' = []))
  /\ (forall wNorm, exists a',
        advanceWithWord wNorm a = Returned (truthy wNorm && negb (FILLERS_has wNorm)) a').
Proof.
  apply (@with_a_word_nothing_throws Latin1 Samples.tokensXY
           [callSetPointer (-3); callAdvanceWithPhrase (lit "x")]).
  exists (Samples.word "x" 0). split; [left | reflexivity].
Defined.

Lemma wordless_text_throws_witness :
  let a := @runCalls Latin1 [] (new [Samples.space 0]) in
  @advanceWithPhrase Latin1 (lit "hi") a
  = Threw TypeError (withSpokenBuffer (spokenBuffer a ++ @wordsOf Latin1 (lit "hi")) a)
  /\ tokens a = [Samples.space 0]
  /\ beam a = [mkState (-1) 0 0 []]
  /\ (forall wNorm, truthy wNorm = true -> FILLERS_has wNorm = false ->
        advanceWithWord wNorm a = Threw TypeError (withSpokenBuffer [wNorm] a)).
Proof.
  apply (@wordless_text_throws Latin1 [Samples.space 0] [] (lit "hi")).
  - constructor; [reflexivity | constructor].
  - vm_compute. discriminate.
Defined.

End AlignerThrows.

(** ** The distance as a metric, and exact matches (aligner.js) *)

Module Metric.
Import Scorer Aligner.

Lemma editRev_zero (x : list N) : forall y, editRev x y = 0%nat -> x = y.
Proof.
  induction x as [|c x IHx]; intros y H.
  - rewrite Distance.editRev_nil_l in H. destruct y; [reflexivity | discriminate].
  - destruct y as [|d y].
    + rewrite Distance.editRev_nil_r in H. discriminate.
    + rewrite Distance.editRev_cons in H.
      destruct (bool_decide (c = d)) eqn:E.
      * apply bool_decide_eq_true in E. subst d. f_equal. apply IHx. lia.
      * lia.
Qed.

Lemma editRev_triangle (x : list N) :
  forall y z, (editRev x z <= editRev x y + editRev y z)%nat.
Proof.
  induction x as [|c x IHx]; intros y z.
  - rewrite !Distance.editRev_nil_l.
    pose proof (Distance.editRev_ge_diff y z). lia.
  - revert z. induction y as [|d y IHy]; intros z.
    + rewrite Distance.editRev_nil_r, Distance.editRev_nil_l.
      pose proof (Distance.editRev_le_max (c :: x) z). lia.
    + induction z as [|e z IHz].
      * rewrite !Distance.editRev_nil_r.
        pose proof (Distance.editRev_ge_diff (c :: x) (d :: y)). lia.
      * rewrite (Distance.editRev_cons c e), (Distance.editRev_cons c d),
          (Distance.editRev_cons d e).
        pose proof (IHx (d :: y) (e :: z)) as H1.
        pose proof (IHx y (e :: z)) as H2.
        pose proof (IHx y z) as H3.
        pose proof (IHy (e :: z)) as H4.
        pose proof (IHy z) as H5.
        rewrite (Distance.editRev_cons d e) in H1.
        rewrite (Distance.editRev_cons c d) in IHz.
        rewrite (Distance.editRev_cons c e) in H4.
        destruct (bool_decide (c = d)) eqn:E1; destruct (bool_decide (d = e)) eqn:E2;
          destruct (bool_decide (c = e)) eqn:E3;
          try (apply bool_decide_eq_true in E1); try (apply bool_decide_eq_true in E2);
          try (apply bool_decide_eq_false in E3); try congruence; lia.
Qed.

Lemma levenshtein_rev (a b : JSString) : levenshtein a b = editRev (rev a) (rev b).
Proof. rewrite Distance.levenshtein_editDistance. reflexivity. Qed.

(** X23.  [levenshtein] is a metric on strings: it is 0 exactly for equal
    strings, symmetric, and satisfies the triangle inequality; and it
    lies between the difference of the lengths and the larger
    length. *)
Theorem levenshtein_is_a_metric (a b c : JSString) :
  (levenshtein a b = 0%nat <-> a = b)
  /\ levenshtein a b = levenshtein b a
  /\ (levenshtein a c <= levenshtein a b + levenshtein b c)%nat
  /\ (length a - length b <= levenshtein a b)%nat
  /\ (length b - length a <= levenshtein a b)%nat
  /\ (levenshtein a b <= Nat.max (length a) (length b))%nat.
Proof.
  rewrite !levenshtein_rev. split; [|split; [|split]].
  - split.
    + intros H. apply editRev_zero in H. apply (f_equal (@rev N)) in H.
      rewrite !rev_involutive in H. exact H.
    + intros ->. apply Distance.editRev_refl.
  - apply Distance.editRev_sym.
  - apply editRev_triangle.
  - pose proof (Distance.editRev_ge_diff (rev a) (rev b)) as H1.
    pose proof (Distance.editRev_le_max (rev a) (rev b)) as H2.
    rewrite !length_rev in *. lia.
Qed.

(** X24.  The similarity of two strings is 1 only when they are equal, so
    with the threshold at 1 [_canMatch] accepts a spoken word exactly
    when it equals the normalized form of the token. *)
Theorem exact_match_at_threshold_one (this : Aligner) (spokenWord : JSString)
    (textToken : Token) :
  ((similarity spokenWord (norm textToken) == 1)%Q <-> spokenWord = norm textToken)
  /\ ((threshold this == 1)%Q ->
      (_canMatch this spokenWord textToken = true <-> spokenWord = norm textToken)).
Proof.
  assert (Hone : forall a b, (similarity a b == 1)%Q <-> a = b).
  { intros a b. unfold similarity.
    pose proof (Distance.orOne_pos (Nat.max (length a) (length b))) as [Hpos _].
    pose proof (Distance.ofNat_pos _ Hpos) as HQ.
    split.
    - intros H.
      assert (H0 : (ofNat (levenshtein a b) == 0)%Q).
      { assert (Hd : (ofNat (levenshtein a b)
                        / ofNat (orOne (Nat.max (length a) (length b))) == 0)%Q) by lra.
        rewrite <- (Qmult_div_r (ofNat (levenshtein a b))
                      (ofNat (orOne (Nat.max (length a) (length b))))) by lra.
        rewrite Hd. ring. }
      rewrite levenshtein_rev in H0.
      assert (Hz : editRev (rev a) (rev b) = 0%nat).
      { unfold ofNat, Qeq, inject_Z in H0. cbn [Qnum Qden] in H0. lia. }
      apply editRev_zero in Hz. apply (f_equal (@rev N)) in Hz.
      rewrite !rev_involutive in Hz. exact Hz.
    - intros ->. rewrite levenshtein_rev, Distance.editRev_refl.
      change (ofNat 0) with 0%Q. unfold Qdiv. ring. }
  split; [apply Hone|]. intros Hthr. unfold _canMatch. rewrite <- Hone.
  pose proof (AlignerKeeps.similarity_unit spokenWord (norm textToken)) as Hu.
  split.
  - intros H. apply Qle_bool_iff in H. rewrite Hthr in H. lra.
  - intros H. apply Qle_bool_iff. rewrite Hthr, H. lra.
Qed.

Lemma exact_match_at_threshold_one_witness :
  _canMatch (stateOf (setConfig None (Some 1%Q) None None (new Samples.tokensXY)))
    (lit "x") (Samples.word "x" 0) = true
  <-> lit "x" = norm (Samples.word "x" 0).
Proof.
  apply (proj2 (exact_match_at_threshold_one
                  (stateOf (setConfig None (Some 1%Q) None None (new Samples.tokensXY)))
                  (lit "x") (Samples.word "x" 0))).
  reflexivity.
Defined.

End Metric.

(** ** The phonetic blend stays a similarity (phonetic variant of aligner.js) *)

Module Phonetic.
Import Scorer Aligner PhoneticAligner.

Section WithLevenshtein.
Variable levenshtein : JSString -> JSString -> nat.
Hypothesis levenshtein_le_max :
  forall a b, (levenshtein a b <= Nat.max (length a) (length b))%nat.

Lemma similarity_bounds (a b : JSString) :
  (0 <= PhoneticAligner.similarity levenshtein a b <= 1)%Q.
Proof.
  unfold PhoneticAligner.similarity.
  apply Distance.ratio_bounds; [|apply Distance.orOne_pos].
  etransitivity; [apply levenshtein_le_max | apply Distance.orOne_pos].
Qed.

Lemma bestPairSimilarity_bounds (sp tp : JSString * JSString) :
  (0 <= bestPairSimilarity levenshtein sp tp <= 1)%Q.
Proof.
  unfold bestPairSimilarity. generalize (flat_map
      (fun a => List.map (fun b => (a, b)) (List.filter truthy [fst tp; snd tp]))
      (List.filter truthy [fst sp; snd sp])). intros pairs.
  assert (H : forall best, (0 <= best <= 1)%Q ->
    (0 <= fold_left
            (fun best '(a, b) =>
               let maxLen := orOne (Nat.max (length a) (length b)) in
               let sim := (1 - ofNat (levenshtein a b) / ofNat maxLen)%Q in
               if Qltb best sim then sim else best)
            pairs best <= 1)%Q).
  { induction pairs as [|[a b] pairs IH]; intros best Hbest; [exact Hbest|].
    cbn [fold_left]. apply IH.
    pose proof (similarity_bounds a b) as Hs. unfold PhoneticAligner.similarity in Hs.
    cbv zeta. destruct (Qltb best _); [exact Hs | exact Hbest]. }
  apply H. lra.
Qed.

Lemma phonSimOf_bounds (sp : JSString * JSString) (t : Token) :
  (0 <= phonSimOf levenshtein sp t <= 1)%Q.
Proof.
  unfold phonSimOf.
  destruct (_ || _ || _); [|lra].
  destruct (_ || _); [lra | apply bestPairSimilarity_bounds].
Qed.

Lemma combined_bounds (this : Scoring) (w : JSString) (sp : JSString * JSString)
    (t : Token) :
  (0 <= phoneticWeight this <= 1)%Q ->
  (0 <= _combinedSimilarity levenshtein this w sp t <= 1)%Q.
Proof.
  intros Hw. unfold _combinedSimilarity.
  pose proof (similarity_bounds w (norm t)) as Ht.
  destruct (phoneticEnabled this); cbn [negb]; [|exact Ht].
  pose proof (phonSimOf_bounds sp t) as Hp.
  set (x := PhoneticAligner.similarity levenshtein w (norm t)) in *.
  set (y := phonSimOf levenshtein sp t) in *.
  set (k := phoneticWeight this) in *.
  assert (Hb : (0 <= k * y + (1 - k) * x <= 1)%Q) by nra.
  split.
  - apply Q.max_le_iff. left. lra.
  - apply Q.max_lub; lra.
Qed.

(** X25.  With a weight between 0 and 1, and a distance function that
    never exceeds the larger length, the combined similarity of the
    phonetic variant lies between 0 and 1, and so no transition it
    generates lowers the cost of a hypothesis or raises it by more
    than 1. *)
Theorem combinedSimilarity_in_unit_interval (this : Scoring) (state : AlignmentState)
    (textPos_ : Z) (textToken : Token) (spokenWord : JSString)
    (spokenPhonetic : JSString * JSString) :
  (0 <= phoneticWeight this <= 1)%Q ->
  (0 <= _combinedSimilarity levenshtein this spokenWord spokenPhonetic textToken <= 1)%Q
  /\ Forall (fun s => (cost state <= cost s <= cost state + 1)%Q)
       (PhoneticAligner._generateTransitions levenshtein this state textPos_ textToken
          spokenWord spokenPhonetic).
Proof.
  intros Hw. pose proof (combined_bounds this spokenWord spokenPhonetic textToken Hw) as Hc.
  split; [exact Hc|]. unfold PhoneticAligner._generateTransitions.
  apply Forall_app. split.
  - destruct (PhoneticAligner._canMatch _ _ _ _ _); [|constructor].
    constructor; [|constructor]. cbn [successor cost]. lra.
  - constructor; [|constructor; [|constructor; [|constructor]]]; cbn [successor cost].
    + lra.
    + lra.
    + destruct (FILLERS_has spokenWord); lra.
Qed.

End WithLevenshtein.

Lemma levenshtein_bounded (a b : JSString) :
  (Scorer.levenshtein a b <= Nat.max (length a) (length b))%nat.
Proof.
  rewrite Distance.levenshtein_editDistance. unfold editDistance.
  pose proof (Distance.editRev_le_max (rev a) (rev b)) as H.
  rewrite !length_rev in H. exact H.
Qed.

Lemma combinedSimilarity_in_unit_interval_witness :
  (0 <= _combinedSimilarity Scorer.levenshtein (mkScoring (8 # 10) true (5 # 10))
          (lit "x") (lit "KS", []) (Samples.word "x" 0) <= 1)%Q
  /\ Forall (fun s => (cost (mkState 0 0 0 []) <= cost s <= cost (mkState 0 0 0 []) + 1)%Q)
       (PhoneticAligner._generateTransitions Scorer.levenshtein
          (mkScoring (8 # 10) true (5 # 10)) (mkState 0 0 0 []) 0 (Samples.word "x" 0)
          (lit "x") (lit "KS", [])).
Proof.
  apply (combinedSimilarity_in_unit_interval Scorer.levenshtein levenshtein_bounded
           (mkScoring (8 # 10) true (5 # 10)) (mkState 0 0 0 []) 0 (Samples.word "x" 0)
           (lit "x") (lit "KS", [])).
  cbn. split; discriminate.
Defined.

End Phonetic.

(** ** Sentences (tokenize.js) *)

Module SentenceFacts.
Import Sentences Views.

Lemma at_middle (pre : list Token) (tok : Token) (rest : list Token) :
  at_ (pre ++ tok :: rest) (Z.of_nat (length pre)) = Some tok.
Proof. rewrite Ring.at_of_nat. apply list_lookup_middle. reflexivity. Qed.

Lemma sentencesFrom_weaken (tokens : list Token) (b b' : Z) (n : nat) (out : list t) :
  b' <= b -> sentencesFrom tokens b n out -> sentencesFrom tokens b' n out.
Proof.
  intros Hb (H1 & H2 & H3 & H4). repeat split; try assumption.
  eapply List.Forall_impl; [|exact H4]. cbn. intros x Hx. lia.
Qed.

(** What the scan returns from a point on. *)
Lemma scan_spec (tokens : list Token) :
  forall rest pre st n,
    tokens = pre ++ rest ->
    match st with
    | seeking _ => True
    | inSentence s l =>
        0 <= s <= l /\ l < Z.of_nat (length pre)
        /\ wordAt tokens s /\ wordAt tokens l
        /\ forall j, s <= j < Z.of_nat (length pre) -> ~ endSepAt tokens j
    end ->
    forall out cs lw,
      scan tokens rest (Z.of_nat (length pre)) st n = (out, (cs, lw)) ->
      (forall i tok, rest !! i = Some tok -> isWord tok = true ->
         exists x, x ∈ out
                   /\ startIndex x <= Z.of_nat (length pre + i) <= endIndex x)
      /\ match st with
         | seeking _ =>
             sentencesFrom tokens (Z.of_nat (length pre)) n out
             /\ (out = [] -> cs = -1)
             /\ (out = [] -> Forall notWord rest)
         | inSentence s l =>
             sentencesFrom tokens s n out
             /\ exists x out', out = x :: out' /\ startIndex x = s /\ l <= endIndex x
         end.
Proof.
  induction rest as [|tok rest IH]; intros pre st n Htok Hst out cs lw Hscan.
  - cbn [scan] in Hscan. split; [intros i tok Hi; discriminate|].
    destruct st as [l|s l].
    + injection Hscan as <- <- <-. split; [|split; [reflexivity | constructor]].
      split; [constructor|]. split; [intros k x Hk; discriminate|]. split; constructor.
    + destruct Hst as (Hsl & Hl & Hws & Hwl & Hno).
      unfold closeSentence in Hscan.
      replace ((0 <=? s) && (s <=? l)) with true in Hscan
        by (symmetry; apply andb_true_intro; split; apply Z.leb_le; lia).
      injection Hscan as <- <- <-.
      rewrite app_nil_r in Htok. subst pre.
      assert (Hok : sentenceOk tokens (mk n s l (previewOf tokens s l))).
      { unfold sentenceOk. cbn [startIndex endIndex preview].
        repeat split; try assumption; try lia.
        intros j Hj. apply Hno. lia. }
      split; [|eexists; eexists; split; [reflexivity|]; cbn; lia].
      split; [constructor; [exact Hok | constructor]|]. split; [|split].
      * intros k x Hk. destruct k; [|discriminate]. injection Hk as <-. cbn. lia.
      * constructor; constructor.
      * constructor; [cbn; lia | constructor].
  - assert (Htok' : tokens = (pre ++ [tok]) ++ rest) by (rewrite <- app_assoc; exact Htok).
    assert (Hlen : Z.of_nat (length (pre ++ [tok])) = Z.of_nat (length pre) + 1)
      by (rewrite length_app; cbn [length]; lia).
    assert (Hat : at_ tokens (Z.of_nat (length pre)) = Some tok)
      by (rewrite Htok; apply at_middle).
    cbn [scan] in Hscan. destruct st as [l|s l].
    + destruct (isWord tok) eqn:Ew.
      * rewrite <- Hlen in Hscan.
        destruct (IH (pre ++ [tok]) (inSentence (Z.of_nat (length pre)) (Z.of_nat (length pre)))
                    n Htok') with (out := out) (cs := cs) (lw := lw)
          as (Hcov & Hfrom & x & out' & Hout & Hx & Hxe).
        { split; [lia|]. split; [lia|]. split; [exists tok; auto|]. split; [exists tok; auto|].
          intros j Hj (u & Hu & Hnw & _). replace j with (Z.of_nat (length pre)) in Hu by lia.
          congruence. }
        { rewrite Hlen. rewrite <- Hlen. exact Hscan. }
        split.
        -- intros i u Hi Hu. destruct i as [|i].
           ++ exists x. split; [rewrite Hout; left|]. lia.
           ++ destruct (Hcov i u Hi Hu) as (y & Hy & Hin). exists y. split; [exact Hy|].
              rewrite length_app in Hin. cbn [length] in Hin. lia.
        -- split; [exact Hfrom|]. split; [intros ->; discriminate|].
           intros ->. discriminate.
      * rewrite <- Hlen in Hscan.
        destruct (IH (pre ++ [tok]) (seeking l) n Htok' I out cs lw Hscan)
          as (Hcov & Hfrom & Hcs & Hnone).
        split.
        -- intros i u Hi Hu. destruct i as [|i].
           ++ injection Hi as <-. congruence.
           ++ destruct (Hcov i u Hi Hu) as (y & Hy & Hin). exists y. split; [exact Hy|].
              rewrite length_app in Hin. cbn [length] in Hin. lia.
        -- split; [apply (sentencesFrom_weaken _ (Z.of_nat (length (pre ++ [tok]))));
                   [rewrite Hlen; lia | exact Hfrom]|].
           split; [exact Hcs|]. intros Ho. constructor; [exact Ew | apply Hnone, Ho].
    + destruct Hst as (Hsl & Hl & Hws & Hwl & Hno).
      destruct (negb (isWord tok) && isEndSep (text tok)) eqn:Eend.
      * apply andb_prop in Eend as [Enw Esep]. apply negb_true_iff in Enw.
        unfold closeSentence in Hscan.
        replace ((0 <=? s) && (s <=? l)) with true in Hscan
          by (symmetry; apply andb_true_intro; split; apply Z.leb_le; lia).
        cbn [length] in Hscan. rewrite <- Hlen in Hscan.
        destruct (scan tokens rest (Z.of_nat (length (pre ++ [tok]))) (seeking l) (n + 1))
          as [more final] eqn:Emore.
        destruct final as [cs' lw']. injection Hscan as <- <- <-.
        destruct (IH (pre ++ [tok]) (seeking l) (n + 1)%nat Htok' I more cs' lw' Emore)
          as (Hcov & (Hok & Hnum & Hsort & Hstart) & _).
        assert (Hx : sentenceOk tokens (mk n s l (previewOf tokens s l))).
        { unfold sentenceOk. cbn [startIndex endIndex preview].
          repeat split; try assumption; try lia.
          - rewrite Htok, length_app. lia.
          - intros j Hj. apply Hno. lia. }
        split.
        -- intros i u Hi Hu. destruct i as [|i].
           ++ injection Hi as <-. congruence.
           ++ destruct (Hcov i u Hi Hu) as (y & Hy & Hin). exists y.
              split; [right; exact Hy|].
              rewrite length_app in Hin. cbn [length] in Hin. lia.
        -- split; [|eexists; eexists; split; [reflexivity|]; cbn; lia].
           split; [constructor; assumption|]. split; [|split].
           ++ intros k x Hk. destruct k as [|k].
              ** injection Hk as <-. cbn. lia.
              ** cbn in Hk. rewrite (Hnum k x Hk). lia.
           ++ constructor; [exact Hsort|].
              eapply List.Forall_impl; [|exact Hstart]. cbn. intros y Hy.
              exists (Z.of_nat (length pre)). cbn [endIndex]. split; [lia|].
              exists tok. auto.
           ++ constructor; [cbn; lia|].
              eapply List.Forall_impl; [|exact Hstart]. cbn. intros y Hy. lia.
      * rewrite <- Hlen in Hscan.
        destruct (IH (pre ++ [tok])
                    (inSentence s (if isWord tok then Z.of_nat (length pre) else l))
                    n Htok') with (out := out) (cs := cs) (lw := lw)
          as (Hcov & Hfrom & x & out' & Hout & Hx & Hxe).
        { split; [destruct (isWord tok); lia|]. split; [destruct (isWord tok); lia|].
          split; [exact Hws|]. split.
          - destruct (isWord tok) eqn:Ew; [exists tok; auto | exact Hwl].
          - intros j Hj. destruct (decide (j = Z.of_nat (length pre))) as [->|Hne].
            + intros (u & Hu & Hnw & Hsep). rewrite Hat in Hu. injection Hu as <-.
              rewrite Hnw, Hsep in Eend. discriminate.
            + apply Hno. lia. }
        { exact Hscan. }
        split.
        -- intros i u Hi Hu. destruct i as [|i].
           ++ injection Hi as <-. exists x. split; [rewrite Hout; left|].
              rewrite Hu in Hxe. lia.
           ++ destruct (Hcov i u Hi Hu) as (y & Hy & Hin). exists y. split; [exact Hy|].
              rewrite length_app in Hin. cbn [length] in Hin. lia.
        -- split; [exact Hfrom|]. exists x, out'. split; [exact Hout|]. split; [exact Hx|].
           destruct (isWord tok); lia.
Qed.

(** X29.  [computeSentences] cuts the words of a text into sentences.  Every
    sentence starts and ends at a word token and holds no separator
    that ends a sentence (one with [.], [!] or [?], or with a blank
    line); the sentences are numbered 0, 1, 2, ... in text order, with
    such a separator between any two of them; every word token lies in
    a sentence; and there is no sentence exactly when the text has no
    word.  The block after the loop never adds anything. *)
Theorem computeSentences_cuts_at_end_separators (tokens : list Token) :
  Forall (sentenceOk tokens) (computeSentences tokens)
  /\ numberedFrom 0 (computeSentences tokens)
  /\ StronglySorted (sentenceBefore tokens) (computeSentences tokens)
  /\ (forall (i : nat) tok, tokens !! i = Some tok -> isWord tok = true ->
        exists x, x ∈ computeSentences tokens
                  /\ startIndex x <= Z.of_nat i <= endIndex x)
  /\ (computeSentences tokens = [] <-> Forall notWord tokens)
  /\ computeSentences tokens = fst (scan tokens tokens 0 (seeking (-1)) 0).
Proof.
  unfold computeSentences.
  destruct (scan tokens tokens 0 (seeking (-1)) 0) as [out [cs lw]] eqn:E.
  destruct (scan_spec tokens tokens [] (seeking (-1)) 0%nat eq_refl I out cs lw E)
    as (Hcov & (Hok & Hnum & Hsort & _) & Hcs & Hnone).
  assert (Hdead : (length out =? 0)%nat && (0 <=? cs) && (cs <=? lw) = false).
  { destruct out as [|x out]; [|reflexivity]. rewrite (Hcs eq_refl). reflexivity. }
  rewrite Hdead. cbn [fst].
  split; [exact Hok|]. split; [exact Hnum|]. split; [exact Hsort|]. split; [exact Hcov|].
  split; [|reflexivity]. split; [exact Hnone|].
  intros Hall. destruct out as [|x out]; [reflexivity|]. exfalso.
  apply Forall_cons in Hok as [(_ & _ & (t & Ht & Hw) & _) _].
  apply Rollback.at_Some in Ht as [_ Ht].
  rewrite Forall_forall in Hall. specialize (Hall t (list_elem_of_lookup_2 _ _ _ Ht)).
  unfold notWord in Hall. congruence.
Qed.

End SentenceFacts.

(** ** The tokenizer (tokenize.js) *)

Module TokenizerFacts.
Import Tokenize Tokenizer Views.

Lemma concat_codePoints_both (s : JSString) :
  concat (codePoints s) = s /\ forall h, concat (codePoints (h :: s)) = h :: s.
Proof.
  induction s as [|l s [IH1 IH2]].
  - split; [reflexivity | intros h; reflexivity].
  - split; [apply IH2|]. intros h.
    change (codePoints (h :: l :: s))
      with (if isHighSurrogate h && isLowSurrogate l
            then [h; l] :: codePoints s else [h] :: codePoints (l :: s)).
    destruct (isHighSurrogate h && isLowSurrogate l); cbn [concat app].
    + rewrite IH1. reflexivity.
    + rewrite IH2. reflexivity.
Qed.

Lemma concat_codePoints (s : JSString) : concat (codePoints s) = s.
Proof. apply concat_codePoints_both. Qed.

Lemma codePoints_nonempty_both (s : JSString) :
  Forall (fun u => u <> []) (codePoints s)
  /\ forall h, Forall (fun u => u <> []) (codePoints (h :: s)).
Proof.
  induction s as [|l s [IH1 IH2]].
  - split; [constructor | intros h; constructor; [discriminate | constructor]].
  - split; [apply IH2|]. intros h.
    change (codePoints (h :: l :: s))
      with (if isHighSurrogate h && isLowSurrogate l
            then [h; l] :: codePoints s else [h] :: codePoints (l :: s)).
    destruct (isHighSurrogate h && isLowSurrogate l).
    + constructor; [discriminate | exact IH1].
    + constructor; [discriminate | apply IH2].
Qed.

Section WithUnicode.
Context {U : Unicode}.
Variable doubleMetaphone : JSString -> option (JSString * JSString).

Lemma lexGo_concat (cps : list (list N)) :
  forall kind cur, concat (snd <$> lexGo cps kind cur) = cur ++ concat cps.
Proof.
  induction cps as [|u rest IH]; intros kind cur; cbn [lexGo].
  - cbn. rewrite !app_nil_r. reflexivity.
  - destruct (continues kind u rest).
    + rewrite IH. cbn [concat]. rewrite app_assoc. reflexivity.
    + cbn [fmap list_fmap snd concat]. rewrite IH. reflexivity.
Qed.

Lemma lex_concat (s : JSString) : concat (snd <$> lex s) = s.
Proof.
  unfold lex. pose proof (concat_codePoints s) as H.
  destruct (codePoints s) as [|u rest]; [exact H|].
  rewrite lexGo_concat. exact H.
Qed.

Lemma lexGo_nonempty (cps : list (list N)) :
  Forall (fun u => u <> []) cps ->
  forall kind cur, cur <> [] -> Forall (fun m => snd m <> []) (lexGo cps kind cur).
Proof.
  induction 1 as [|u rest Hu _ IH]; intros kind cur Hcur; cbn [lexGo].
  - constructor; [exact Hcur | constructor].
  - destruct (continues kind u rest).
    + apply IH. destruct cur; [contradiction | discriminate].
    + constructor; [exact Hcur | apply IH, Hu].
Qed.

Lemma lexGo_head (cps : list (list N)) :
  forall kind cur, exists cur' tail, lexGo cps kind cur = (kind, cur') :: tail.
Proof.
  induction cps as [|u rest IH]; intros kind cur; cbn [lexGo].
  - eexists. eexists. reflexivity.
  - destruct (continues kind u rest); [apply IH | eexists; eexists; reflexivity].
Qed.

(** After a separator comes a letter or a digit. *)
Lemma lexGo_sep_maximal (cps : list (list N)) :
  forall kind cur k m m',
    lexGo cps kind cur !! k = Some m -> lexGo cps kind cur !! S k = Some m' ->
    fst m = kSep -> fst m' <> kSep.
Proof.
  induction cps as [|u rest IH]; intros kind cur k m m' Hm Hm' Hsep; cbn [lexGo] in *.
  - destruct k; discriminate.
  - destruct (continues kind u rest) eqn:Ec.
    + apply (IH kind (cur ++ u) k m m' Hm Hm' Hsep).
    + destruct k as [|k].
      * injection Hm as <-. cbn [fst] in Hsep. subst kind.
        destruct (lexGo_head rest (startKind u) u) as (cur' & tail & Hhead).
        cbn in Hm'. rewrite Hhead in Hm'. injection Hm' as <-. cbn [fst].
        unfold continues in Ec. apply negb_false_iff in Ec.
        unfold startKind. destruct (isLetterPoint u); [discriminate|].
        destruct (isDigitPoint u); [discriminate | discriminate].
      * apply (IH (startKind u) u k m m' Hm Hm' Hsep).
Qed.

Lemma pushTokens_lookup (ms : list (Kind * JSString)) :
  forall id_ k, pushTokens doubleMetaphone id_ ms !! k
                = tokenOf doubleMetaphone (id_ + Z.of_nat k) <$> ms !! k.
Proof.
  induction ms as [|m ms IH]; intros id_ k; [reflexivity|].
  destruct k as [|k]; cbn [pushTokens].
  - cbn. rewrite Z.add_0_r. reflexivity.
  - cbn [lookup list_lookup]. rewrite IH. f_equal. f_equal. lia.
Qed.

Lemma pushTokens_text (ms : list (Kind * JSString)) :
  forall id_, text <$> pushTokens doubleMetaphone id_ ms = snd <$> ms.
Proof.
  induction ms as [|m ms IH]; intros id_; [reflexivity|].
  cbn [pushTokens fmap list_fmap]. f_equal; [|apply IH].
  unfold tokenOf. destruct (fst m); reflexivity.
Qed.

(** X26.  [tokenize] loses nothing and numbers its tokens: the texts of the
    tokens, put together, are the text after
    [preprocessHyphenatedWords]; the token at index [k] has id [k] and
    a text that is not empty; a word token is pending and carries the
    normalized form of its text and a pair of phonetic codes; a
    separator has the status sep, an empty normalized form and no
    phonetic codes; and a separator is never followed by another
    separator.  The empty text has no tokens. *)
Theorem tokenize_loses_nothing (text_ : JSString) :
  let tokens := tokenize doubleMetaphone text_ in
  concat (text <$> tokens) = preprocessHyphenatedWords text_
  /\ (forall (k : nat) t, tokens !! k = Some t ->
        id t = Z.of_nat k
        /\ text t <> []
        /\ (isWord t = true ->
              norm t = normalizeWord (text t) /\ status t = pending
              /\ exists codes, phonetic t = Some codes)
        /\ (isWord t = false -> norm t = [] /\ status t = sep /\ phonetic t = None)
        /\ (isWord t = false ->
              forall t', tokens !! S k = Some t' -> isWord t' = true))
  /\ (text_ = [] -> tokens = []).
Proof.
  cbv zeta. unfold tokenize. destruct text_ as [|c text_]; cbn [truthy negb].
  { split; [reflexivity|]. split; [intros k t Hk; discriminate | reflexivity]. }
  set (s := preprocessHyphenatedWords (c :: text_)).
  split; [rewrite pushTokens_text; apply lex_concat|]. split; [|discriminate].
  intros k t Hk. rewrite pushTokens_lookup, Z.add_0_l in Hk.
  destruct (lex s !! k) as [m|] eqn:Em; [|discriminate]. injection Hk as <-.
  assert (Hne : snd m <> []).
  { assert (Hall : Forall (fun m => snd m <> []) (lex s)).
    { unfold lex. pose proof (proj1 (codePoints_nonempty_both s)) as Hcp.
      destruct (codePoints s) as [|u rest]; [constructor|].
      apply Forall_cons in Hcp as [Hu Hrest]. apply lexGo_nonempty; assumption. }
    rewrite Forall_forall in Hall. apply Hall. apply (list_elem_of_lookup_2 _ _ _ Em). }
  assert (Hw : isWord (tokenOf doubleMetaphone (Z.of_nat k) m)
               = match fst m with kSep => false | _ => true end).
  { unfold tokenOf. destruct (fst m); reflexivity. }
  split; [unfold tokenOf; destruct (fst m); reflexivity|].
  split; [unfold tokenOf; destruct (fst m); exact Hne|].
  split; [|split].
  - unfold tokenOf. destruct (fst m); cbn; intros H; try discriminate;
      (split; [reflexivity|]); (split; [reflexivity|]); eexists; reflexivity.
  - unfold tokenOf. destruct (fst m); cbn; intros H; try discriminate. auto.
  - rewrite Hw. intros Hsep t' Ht'. rewrite pushTokens_lookup in Ht'.
    destruct (lex s !! S k) as [m'|] eqn:Em'; [|discriminate]. injection Ht' as <-.
    assert (Hk' : fst m' <> kSep).
    { unfold lex in Em, Em'. destruct (codePoints s) as [|u rest]; [discriminate|].
      apply (lexGo_sep_maximal rest (startKind u) u k m m' Em Em').
      destruct (fst m); [discriminate | discriminate | reflexivity]. }
    unfold tokenOf. destruct (fst m'); [reflexivity | reflexivity | contradiction].
Qed.

End WithUnicode.

(** *** Joining words across line breaks *)

Lemma asciiLetter_range (c : N) : isAsciiLetter c = true -> (65 <= c <= 122)%N.
Proof.
  unfold isAsciiLetter. intros H.
  apply orb_true_iff in H as [H|H]; apply andb_true_iff in H as [H1 H2];
    apply N.leb_le in H1, H2; lia.
Qed.

Lemma asciiLetter_not_space (c : N) : isAsciiLetter c = true -> isWhiteSpace c = false.
Proof.
  intros H. apply asciiLetter_range in H. unfold isWhiteSpace.
  repeat match goal with
         | |- context [N.leb ?a ?b] => destruct (N.leb_spec a b); try lia
         | |- context [N.eqb ?a ?b] => destruct (N.eqb_spec a b); try lia
         end;
    try reflexivity.
Qed.

Lemma asciiLetter_not_surrogate (c : N) :
  isAsciiLetter c = true -> isHighSurrogate c = false.
Proof.
  intros H. apply asciiLetter_range in H. unfold isHighSurrogate.
  repeat match goal with
         | |- context [N.leb ?a ?b] => destruct (N.leb_spec a b); try lia
         | |- context [N.eqb ?a ?b] => destruct (N.eqb_spec a b); try lia
         end;
    try reflexivity.
Qed.

Lemma joinGo_keeps (s : JSString) :
  forall st, Forall (fun c => keptByJoin c = false) (heldBack st) ->
    List.filter keptByJoin (joinGo s st) = List.filter keptByJoin s.
Proof.
  assert (Hnone : forall l, Forall (fun c => keptByJoin c = false) l ->
                            List.filter keptByJoin l = []).
  { induction 1 as [|c l Hc _ IH]; [reflexivity|]. cbn [List.filter]. rewrite Hc. exact IH. }
  induction s as [|c s IH]; intros st Hst.
  - destruct st; cbn [joinGo]; try reflexivity. apply Hnone, Hst.
  - destruct st as [| |held nl]; cbn [joinGo heldBack] in *.
    + cbn [List.filter]. rewrite IH by (destruct (isAsciiLetter c); constructor). reflexivity.
    + destruct (isLineHyphen c) eqn:Eh.
      * rewrite IH.
        -- cbn [List.filter]. unfold keptByJoin at 2. rewrite Eh. reflexivity.
        -- constructor; [unfold keptByJoin; rewrite Eh; reflexivity | constructor].
      * cbn [List.filter].
        rewrite IH by (destruct (isAsciiLetter c); constructor). reflexivity.
    + destruct (isWhiteSpace c) eqn:Ew.
      * rewrite IH.
        -- cbn [List.filter]. unfold keptByJoin at 2. rewrite Ew, orb_true_r. reflexivity.
        -- apply Forall_app. split; [exact Hst|]. constructor; [|constructor].
           unfold keptByJoin. rewrite Ew, orb_true_r. reflexivity.
      * destruct (isAsciiLetter c && nl).
        -- cbn [List.filter]. rewrite IH by constructor. reflexivity.
        -- rewrite List.filter_app, (Hnone held Hst). cbn [app List.filter].
           rewrite IH by (destruct (isAsciiLetter c); constructor). reflexivity.
Qed.

Lemma joinGo_without_line_feed (s : JSString) :
  Forall (fun c => c <> 10%N) s ->
  forall st, match st with afterHyphen _ nl => nl = false | _ => True end ->
    joinGo s st = heldBack st ++ s.
Proof.
  induction 1 as [|c s Hc _ IH]; intros st Hst.
  - destruct st; cbn; rewrite ?app_nil_r; reflexivity.
  - destruct st as [| |held nl]; cbn [joinGo heldBack app].
    + rewrite IH by (destruct (isAsciiLetter c); exact I).
      destruct (isAsciiLetter c); reflexivity.
    + destruct (isLineHyphen c).
      * rewrite IH by reflexivity. reflexivity.
      * rewrite IH by (destruct (isAsciiLetter c); exact I).
        destruct (isAsciiLetter c); reflexivity.
    + subst nl. destruct (isWhiteSpace c).
      * rewrite IH.
        -- cbn [heldBack]. rewrite <- app_assoc. reflexivity.
        -- cbn [orb]. apply N.eqb_neq. exact Hc.
      * rewrite andb_false_r.
        rewrite IH by (destruct (isAsciiLetter c); exact I).
        destruct (isAsciiLetter c); reflexivity.
Qed.

Lemma joinGo_white_space (W : JSString) :
  Forall (fun c => isWhiteSpace c = true) W ->
  forall rest held nl,
    joinGo (W ++ rest) (afterHyphen held nl)
    = joinGo rest (afterHyphen (held ++ W) (nl || existsb (fun c => (c =? 10)%N) W)).
Proof.
  induction 1 as [|c W Hc _ IH]; intros rest held nl.
  - cbn. rewrite app_nil_r, orb_false_r. reflexivity.
  - cbn [app joinGo]. rewrite Hc, IH. cbn [existsb].
    rewrite <- app_assoc, orb_assoc. reflexivity.
Qed.

Lemma join_one (a h b : N) (W post : JSString) :
  isAsciiLetter a = true -> isLineHyphen h = true ->
  Forall (fun c => isWhiteSpace c = true) W -> 10%N ∈ W ->
  isAsciiLetter b = true ->
  preprocessHyphenatedWords (a :: h :: W ++ b :: post)
  = a :: b :: preprocessHyphenatedWords post.
Proof.
  intros Ha Hh HW Hnl Hb. unfold preprocessHyphenatedWords.
  cbn [joinGo]. rewrite Ha, Hh. rewrite (joinGo_white_space W HW).
  cbn [joinGo orb]. rewrite (asciiLetter_not_space b Hb), Hb.
  replace (existsb (fun c => (c =? 10)%N) W) with true; [reflexivity|].
  symmetry. apply existsb_exists. exists 10%N. split; [|reflexivity].
  apply list_elem_of_In. exact Hnl.
Qed.

(** X27.  [preprocessHyphenatedWords] joins a word broken at the end of a
    line: a letter, a hyphen, white space with a line feed in it and a
    letter become the two letters.  It removes nothing but hyphens and
    white space, and it returns a text without line feeds unchanged.
    The second letter of a join does not open another one: of two
    breaks around a single letter only the first is joined. *)
Theorem preprocessHyphenatedWords_joins_broken_words :
  (forall a h b W post,
     isAsciiLetter a = true -> isLineHyphen h = true ->
     Forall (fun c => isWhiteSpace c = true) W -> 10%N ∈ W ->
     isAsciiLetter b = true ->
     preprocessHyphenatedWords (a :: h :: W ++ b :: post)
     = a :: b :: preprocessHyphenatedWords post)
  /\ (forall text_,
        List.filter keptByJoin (preprocessHyphenatedWords text_)
        = List.filter keptByJoin text_)
  /\ (forall text_, Forall (fun c => c <> 10%N) text_ ->
        preprocessHyphenatedWords text_ = text_)
  /\ (forall a h b h' c,
        isAsciiLetter a = true -> isLineHyphen h = true -> isAsciiLetter b = true ->
        isLineHyphen h' = true -> isAsciiLetter c = true ->
        preprocessHyphenatedWords [a; h; 10; b; h'; 10; c]%N = [a; b; h'; 10; c]%N).
Proof.
  split; [exact join_one|]. split; [|split].
  - intros text_. apply joinGo_keeps. constructor.
  - intros text_ H. apply (joinGo_without_line_feed text_ H idle I).
  - intros a h b h' c Ha Hh Hb Hh' Hc.
    assert (Hj : preprocessHyphenatedWords (a :: h :: [10%N] ++ b :: [h'; 10; c]%N)
                 = a :: b :: preprocessHyphenatedWords [h'; 10; c]%N).
    { apply join_one; try assumption; [constructor; [reflexivity | constructor] | left]. }
    cbn [app] in Hj. rewrite Hj. clear Hj.
    unfold preprocessHyphenatedWords. cbn [joinGo].
    assert (Hn : isAsciiLetter h' = false).
    { unfold isLineHyphen in Hh'. unfold isAsciiLetter.
      destruct (N.eqb_spec h' 45), (N.eqb_spec h' 8211), (N.eqb_spec h' 8212),
        (N.eqb_spec h' 8722); try discriminate; subst; reflexivity. }
    rewrite Hn. cbn. rewrite Hc. reflexivity.
Qed.

Lemma preprocessHyphenatedWords_joins_broken_words_witness :
  preprocessHyphenatedWords (lit "under-" ++ [10%N] ++ lit "standing")
  = lit "understanding".
Proof.
  change (lit "under-" ++ [10%N] ++ lit "standing")
    with (lit "unde" ++ (114 :: 45 :: [10] ++ 115 :: lit "tanding"))%N.
  transitivity (lit "unde" ++ 114 :: 115 :: preprocessHyphenatedWords (lit "tanding"))%N;
    [|reflexivity].
  rewrite <- (proj1 preprocessHyphenatedWords_joins_broken_words 114 45 115 [10]
                (lit "tanding"))%N;
    [reflexivity | reflexivity | reflexivity | repeat constructor | left | reflexivity].
Defined.

(** *** Hyphens and apostrophes inside a word *)

Section WithUnicode.
Context {U : Unicode}.
Variable doubleMetaphone : JSString -> option (JSString * JSString).
Hypothesis ascii_letters : forall c, isAsciiLetter c = true -> isLetter c = true.
Hypothesis hyphen_no_letter : isLetter 45 = false.
Hypothesis apostrophe_no_letter : isLetter 39 = false.

Lemma codePoints_units (s : JSString) :
  Forall (fun c => isHighSurrogate c = false) s -> codePoints s = (fun c => [c]) <$> s.
Proof.
  intros H. induction H as [|h s Hh Hs IH]; [reflexivity|].
  destruct s as [|l s]; [reflexivity|].
  change (codePoints (h :: l :: s))
    with (if isHighSurrogate h && isLowSurrogate l
          then [h; l] :: codePoints s else [h] :: codePoints (l :: s)).
  rewrite Hh. cbn [andb]. rewrite IH. reflexivity.
Qed.

Lemma lexGo_letters (w : JSString) :
  Forall (fun c => isAsciiLetter c = true) w ->
  forall rest cur,
    lexGo (((fun c => [c]) <$> w) ++ rest) kLetters cur = lexGo rest kLetters (cur ++ w).
Proof.
  induction 1 as [|c w Hc _ IH]; intros rest cur.
  - cbn. rewrite app_nil_r. reflexivity.
  - cbn [fmap list_fmap app lexGo]. unfold continues, isLetterPoint. cbn [codePointValue].
    rewrite (ascii_letters c Hc). cbn [orb]. rewrite IH, <- app_assoc. reflexivity.
Qed.

(** X28.  A hyphen-minus between two words of ASCII letters makes three
    tokens of them: word, separator, word; an apostrophe makes one
    word.  (The hyphen-minus is not in the class of characters that
    the token pattern allows inside a word.) *)
Theorem hyphen_splits_apostrophe_joins (w1 w2 : JSString) :
  w1 <> [] -> w2 <> [] ->
  Forall (fun c => isAsciiLetter c = true) w1 ->
  Forall (fun c => isAsciiLetter c = true) w2 ->
  tokenize doubleMetaphone (w1 ++ [45%N] ++ w2)
  = [tokenOf doubleMetaphone 0 (kLetters, w1);
     tokenOf doubleMetaphone 1 (kSep, [45%N]);
     tokenOf doubleMetaphone 2 (kLetters, w2)]
  /\ tokenize doubleMetaphone (w1 ++ [39%N] ++ w2)
     = [tokenOf doubleMetaphone 0 (kLetters, w1 ++ [39%N] ++ w2)].
Proof.
  intros Hn1 Hn2 H1 H2.
  assert (Hlex : forall j, (j = 45 \/ j = 39)%N ->
            lex (preprocessHyphenatedWords (w1 ++ [j] ++ w2))
            = match w1, w2 with
              | c1 :: w1', c2 :: w2' =>
                  lexGo ([j] :: ((fun c => [c]) <$> w2)) kLetters w1
              | _, _ => []
              end).
  { intros j Hj. unfold preprocessHyphenatedWords.
    rewrite (joinGo_without_line_feed (w1 ++ [j] ++ w2)) with (st := idle); [|..|exact I].
    2:{ apply Forall_app. split; [|constructor].
        - eapply List.Forall_impl; [|exact H1]. intros c Hc. apply asciiLetter_range in Hc. lia.
        - destruct Hj; subst; discriminate.
        - eapply List.Forall_impl; [|exact H2]. intros c Hc. apply asciiLetter_range in Hc. lia. }
    cbn [heldBack app]. unfold lex. rewrite codePoints_units.
    2:{ apply Forall_app. split; [|constructor].
        - eapply List.Forall_impl; [|exact H1]. apply asciiLetter_not_surrogate.
        - destruct Hj; subst; reflexivity.
        - eapply List.Forall_impl; [|exact H2]. apply asciiLetter_not_surrogate. }
    destruct w1 as [|c1 w1]; [contradiction|]. destruct w2 as [|c2 w2]; [contradiction|].
    apply Forall_cons in H1 as [Hc1 H1].
    rewrite fmap_app. cbn [app fmap list_fmap].
    unfold startKind, isLetterPoint. cbn [codePointValue]. rewrite (ascii_letters c1 Hc1).
    change (((fun c => [c]) <$> w1) ++ [j] :: [c2] :: ((fun c => [c]) <$> w2))
      with (((fun c => [c]) <$> w1) ++ ([j] :: [c2] :: ((fun c => [c]) <$> w2))).
    rewrite (lexGo_letters w1 H1). reflexivity. }
  destruct w1 as [|c1 w1]; [contradiction|]. destruct w2 as [|c2 w2]; [contradiction|].
  apply Forall_cons in H2 as [Hc2 H2].
  pose proof (Hlex 45%N (or_introl eq_refl)) as H45.
  pose proof (Hlex 39%N (or_intror eq_refl)) as H39. clear Hlex.
  assert (Hstep : forall u rest k cur,
            lexGo (u :: rest) k cur
            = if continues k u rest then lexGo rest k (cur ++ u)
              else (k, cur) :: lexGo rest (startKind u) u) by reflexivity.
  assert (Hstart : forall c, isAsciiLetter c = true -> startKind [c] = kLetters).
  { intros c Hc. unfold startKind, isLetterPoint. cbn [codePointValue].
    rewrite (ascii_letters c Hc). reflexivity. }
  assert (Hsep : startKind [45%N] = kSep).
  { unfold startKind, isLetterPoint. cbn [codePointValue]. rewrite hyphen_no_letter.
    reflexivity. }
  assert (Hstop : forall rest, continues kLetters [45%N] rest = false).
  { intros rest. unfold continues, isLetterPoint. cbn [codePointValue].
    rewrite hyphen_no_letter. reflexivity. }
  assert (Hletter : forall c rest, isAsciiLetter c = true -> continues kSep [c] rest = false).
  { intros c rest Hc. unfold continues, isLetterPoint. cbn [codePointValue].
    rewrite (ascii_letters c Hc). reflexivity. }
  assert (Hjoin : forall c rest, isAsciiLetter c = true ->
                                 continues kLetters [39%N] ([c] :: rest) = true).
  { intros c rest Hc. unfold continues, isLetterPoint. cbn [codePointValue].
    rewrite apostrophe_no_letter, (ascii_letters c Hc). reflexivity. }
  unfold tokenize. cbn [app truthy negb] in *. split.
  - rewrite H45. cbn [fmap list_fmap].
    rewrite Hstep, Hstop, Hsep, Hstep, (Hletter c2 _ Hc2), (Hstart c2 Hc2).
    rewrite <- (app_nil_r ((fun c => [c]) <$> w2)), (lexGo_letters w2 H2).
    reflexivity.
  - rewrite H39. cbn [fmap list_fmap].
    rewrite Hstep, (Hjoin c2 _ Hc2).
    change ([c2] :: ((fun c => [c]) <$> w2)) with ((fun c => [c]) <$> (c2 :: w2)).
    rewrite <- (app_nil_r ((fun c => [c]) <$> (c2 :: w2))).
    rewrite (lexGo_letters (c2 :: w2)) by (constructor; assumption).
    rewrite <- !app_assoc. reflexivity.
Qed.

End WithUnicode.

Lemma latin1_ascii_letters (c : N) :
  isAsciiLetter c = true -> @isLetter Latin1 c = true.
Proof.
  intros Hc. unfold isAsciiLetter in Hc.
  cbn [isLetter Latin1]. unfold latin1Letter. rewrite Hc. reflexivity.
Qed.

Lemma hyphen_splits_apostrophe_joins_witness :
  @tokenize Latin1 (fun _ => None) (lit "co" ++ [45%N] ++ lit "operate")
  = [@tokenOf Latin1 (fun _ => None) 0 (kLetters, lit "co");
     @tokenOf Latin1 (fun _ => None) 1 (kSep, [45%N]);
     @tokenOf Latin1 (fun _ => None) 2 (kLetters, lit "operate")]
  /\ @tokenize Latin1 (fun _ => None) (lit "co" ++ [39%N] ++ lit "operate")
     = [@tokenOf Latin1 (fun _ => None) 0 (kLetters, lit "co" ++ [39%N] ++ lit "operate")].
Proof.
  apply (@hyphen_splits_apostrophe_joins Latin1 (fun _ => None) latin1_ascii_letters
           eq_refl eq_refl (lit "co") (lit "operate"));
    [discriminate | discriminate | repeat constructor | repeat constructor].
Defined.

End TokenizerFacts.

(** ** What normalization can do to a word (tokenize.js) *)

Module NormalizeFacts.
Import Tokenize.

Lemma dropWhile_suffix {A} (p : A -> bool) (l : list A) :
  exists pre, l = pre ++ dropWhile p l.
Proof.
  induction l as [|x l [pre IH]]; [exists []; reflexivity|].
  cbn [dropWhile]. destruct (p x).
  - exists (x :: pre). cbn. rewrite <- IH. reflexivity.
  - exists []. reflexivity.
Qed.

Lemma filter_sublist {A} (p : A -> bool) (l : list A) : List.filter p l `sublist_of` l.
Proof.
  induction l as [|x l IH]; [constructor|].
  cbn [List.filter]. destruct (p x); [apply sublist_skip | apply sublist_cons]; exact IH.
Qed.

Section WithUnicode.
Context {U : Unicode}.

Lemma stripEdges_sublist (s : JSString) : stripEdges s `sublist_of` s.
Proof.
  unfold stripEdges.
  destruct (dropWhile_suffix notLetterOrNumber (codePoints s)) as [pre Hpre].
  remember (dropWhile notLetterOrNumber (codePoints s)) as m eqn:Em.
  destruct (dropWhile_suffix notLetterOrNumber (rev m)) as [post Hpost].
  remember (dropWhile notLetterOrNumber (rev m)) as k eqn:Ek.
  assert (Hm : m = rev k ++ rev post).
  { rewrite <- (rev_involutive m), Hpost, rev_app_distr. reflexivity. }
  pose proof (TokenizerFacts.concat_codePoints s) as Hs.
  rewrite Hpre, Hm, !concat_app in Hs. rewrite <- Hs.
  apply sublist_inserts_l, sublist_inserts_r. reflexivity.
Qed.

(** X30.  [normalizeWord] only deletes: its result is the lower-cased word
    with some code units left out, in the same order; it holds no
    unit of the collapsed class (apostrophe, grave accent, and
    everything from U+00B4 to U+2013, U+2014, U+2212); and the empty
    word gives the empty word. *)
Theorem normalizeWord_only_deletes (w : JSString) :
  normalizeWord w `sublist_of` toLowerCase w
  /\ Forall (fun c => inCollapseClass c = false) (normalizeWord w)
  /\ (length (normalizeWord w) <= length (toLowerCase w))%nat
  /\ @normalizeWord U [] = [].
Proof.
  assert (Hsub : normalizeWord w `sublist_of` toLowerCase w).
  { unfold normalizeWord. destruct w as [|c w]; cbn [truthy negb]; [apply sublist_nil_l|].
    unfold collapse. etransitivity; [apply filter_sublist | apply stripEdges_sublist]. }
  split; [exact Hsub|]. split; [|split; [apply sublist_length, Hsub | reflexivity]].
  unfold normalizeWord. destruct w as [|c w]; cbn [truthy negb]; [constructor|].
  unfold collapse. apply List.Forall_forall. intros x Hx.
  apply List.filter_In in Hx as [_ Hx]. apply negb_true_iff in Hx. exact Hx.
Qed.

End WithUnicode.

End NormalizeFacts.
